(** * Graph subsystem of ts-data-structures: a shallow embedding

    The development follows [src/structures/Graph.ts] (the version that has
    [nodeMap] and [dijkstra]): the adjacency table of [CommonGraphMethods],
    the edge insertion of [Directed] and [Unidirected], the [bfs] and [dfs]
    traversals and [dijkstra].

    Conventions of the embedding.
    - A node-data object of type [T extends DataShapeWithValue] is a term of a
      type [T] with decidable equality; equality of terms stands for identity
      of object references (the key comparison of a JavaScript [Map] whose
      keys are objects), and [value] reads the numeric field of the object.
      Two different nodes may carry the same [value].
    - JavaScript numbers are modelled as integers ([Z]); a distance is an
      integer or [Infinity].  [NaN] and fractions are not modelled: the
      graphs of the model have integer weights.  [dijkstra] adds with
      [number_add], exactly; [dijkstra_with double_add] is the same loop
      with the addition of the code, which rounds a sum above [2 ^ 53] to
      53 bits and gives [Infinity] above the largest double.  The two are
      one on the graphs with [exact_weights], where every distance and
      every sum of the loop is an integer of at most [2 ^ 53]; the
      statements that depend on a sum of weights are made of
      [dijkstra_with double_add].
    - [Map<T, ...>] and [Map<number, ...>] are [gmap]s; a [Set<number>] that
      is only tested for membership is a [gset]; the [Set<number>] that
      [dijkstra] iterates is a duplicate-free list in insertion order.
    - [console.log], [console.error] and the calls of the visitor callback
      are recorded, in order, as a list of [event]s.
    - A non-null assertion [x!] does nothing at run time: a lookup that
      finds nothing is [undefined], a comparison with [undefined] or with the
      [NaN] of an addition with it is false, and [getNeighbors(undefined)]
      finds no list.  The embedding keeps these branches.
    - Every [while] loop takes a [fuel] argument and answers [None] when the
      fuel is used up before the loop has finished; the theorems give the
      fuel that is enough. *)

From stdpp Require Import gmap strings list fin_maps pretty.
From Stdlib Require Import SpecFloat.

Local Open Scope Z_scope.

(** ** Numbers *)

Inductive number : Type :=
  | Fin (z : Z)
  | Infinity.

Global Instance number_eq_dec : EqDecision number.
Proof. solve_decision. Defined.

(** [a < b] on distances. *)
Definition number_lt (a b : number) : bool :=
  match a, b with
  | Fin x, Fin y => bool_decide (x < y)
  | Fin _, Infinity => true
  | Infinity, _ => false
  end.

(** [a <= b] on distances. *)
Definition number_le (a b : number) : Prop :=
  match a, b with
  | Fin x, Fin y => x <= y
  | _, Infinity => True
  | Infinity, Fin _ => False
  end.

(** [a + w] for a distance [a] and a finite weight [w], as it is on
    integers while the sum stays within [2 ^ 53]. *)
Definition number_add (a : number) (w : Z) : number :=
  match a with
  | Fin x => Fin (x + w)
  | Infinity => Infinity
  end.

(** The double nearest to an integer [z] that is not negative, ties to
    the even mantissa: an integer below [2 ^ 53] is a double; above, the
    53 leading bits are kept and the rest is rounded; from
    [2 ^ 1024 - 2 ^ 970] on the result is [Infinity]. *)
Definition round53 (z : Z) : number :=
  if bool_decide (z < 2 ^ 53) then Fin z
  else
    let s := Z.log2 z - 52 in
    let q := z / 2 ^ s in
    let r := z mod 2 ^ s in
    let half := 2 ^ (s - 1) in
    let q' := if bool_decide (r < half) then q
              else if bool_decide (half < r) then q + 1
              else if Z.even q then q else q + 1 in
    if bool_decide (q' * 2 ^ s < 2 ^ 1024) then Fin (q' * 2 ^ s)
    else Infinity.

(** [a + w] as the code computes it, in double precision, for a distance
    [a] and an integer weight [w] that has passed the test [weight < 0]:
    the exact sum, rounded.  A distance is not negative, so neither is the
    sum. *)
Definition double_add (a : number) (w : Z) : number :=
  match a with
  | Fin x => round53 (x + w)
  | Infinity => Infinity
  end.


(** The binary64 datum of an integer or of [Infinity], in the format of
    the standard library. *)
Definition binary64 (a : number) : spec_float :=
  match a with
  | Fin z => binary_normalize 53 1024 z 0 false
  | Infinity => S754_infinity false
  end.

Global Instance spec_float_eq_dec : EqDecision spec_float.
Proof. solve_decision. Defined.

(** Template-literal rendering [${n}] of an integer. *)
Definition toString (n : Z) : string := pretty n.

(** ** [Set<number>] in insertion order *)

Definition Set_add (s : list Z) (v : Z) : list Z :=
  if decide (v ∈ s) then s else s ++ [v].

(** [new Set(array)] *)
Definition Set_new (l : list Z) : list Z := foldl Set_add [] l.

Definition Set_delete (v : Z) (s : list Z) : list Z :=
  filter (λ x, x ≠ v) s.

(** ** Interface [DataShapeWithValue] *)

Class DataShapeWithValue (T : Type) := value : T → Z.

Section CommonGraphMethods.
Context {T : Type} `{Countable T} {DSV : DataShapeWithValue T}.

(** class [GraphEdge]: a missing weight is [None]. *)
Record GraphEdge : Type := mkGraphEdge {
  target : T;
  weight : option Z
}.

Inductive event : Type :=
  | Visit (data : T)
  | ConsoleLog (msg : string)
  | ConsoleError (msg : string).

(** The fields of [CommonGraphMethods]. *)
Record Graph : Type := mkGraph {
  adjacencyList : gmap T (list GraphEdge);
  nodeMap : gmap Z T;
  nodes : list T
}.

(** The constructor. *)
Definition new_graph : Graph :=
  {| adjacencyList := ∅; nodeMap := ∅; nodes := [] |}.

Definition hasNode (g : Graph) (data : T) : bool :=
  bool_decide (is_Some (adjacencyList g !! data)).

Definition addNode (g : Graph) (data : T) : Graph :=
  if negb (hasNode g data) then
    {| adjacencyList := <[data := []]> (adjacencyList g);
       nodeMap := <[value data := data]> (nodeMap g);
       nodes := nodes g ++ [data] |}
  else g.

Definition getNodes (g : Graph) : list T := nodes g.

(** [None] is the [undefined] of a node that is not found. *)
Definition getNeighbors (g : Graph) (data : T) : option (list GraphEdge) :=
  adjacencyList g !! data.

(** [this.adjacencyList.get(from)!.push(e)]; every caller has checked
    [hasNode from] before. *)
Definition push_edge (g : Graph) (from : T) (e : GraphEdge) : Graph :=
  {| adjacencyList := alter (λ es, es ++ [e]) from (adjacencyList g);
     nodeMap := nodeMap g;
     nodes := nodes g |}.

(** *** Breadth-first search *)

(** The [for (const edge of neighbors)] loop of [bfs]. *)
Fixpoint bfs_enqueue (visited : gset Z) (queue : list T)
    (neighbors : list GraphEdge) : gset Z * list T :=
  match neighbors with
  | [] => (visited, queue)
  | edge :: rest =>
      let neighborData := target edge in
      if decide (value neighborData ∈ visited) then
        bfs_enqueue visited queue rest
      else
        bfs_enqueue ({[value neighborData]} ∪ visited)
                    (queue ++ [neighborData]) rest
  end.

(** One iteration of the [while] loop of [bfs] after [queue.shift()] and
    [processNode(currentNodeData)]: the new visited set and queue. *)
Definition bfs_body (g : Graph) (visited : gset Z) (currentNodeData : T)
    (queue1 : list T) : gset Z * list T :=
  match getNeighbors g currentNodeData with
  | Some neighbors => bfs_enqueue visited queue1 neighbors
  | None => (visited, queue1)
  end.

(** The [while (queue.length > 0)] loop of [bfs]; the head of the list is
    the front of the queue. *)
Fixpoint bfs_loop (fuel : nat) (g : Graph) (visited : gset Z)
    (queue : list T) : option (list event) :=
  match fuel with
  | O => None
  | S fuel' =>
      match queue with
      | [] => Some []
      | currentNodeData :: queue1 =>
          let '(visited', queue') :=
            bfs_body g visited currentNodeData queue1 in
          cons (Visit currentNodeData) <$> bfs_loop fuel' g visited' queue'
      end
  end.

Definition bfs (fuel : nat) (g : Graph) (startNodeData : T)
    : option (list event) :=
  if negb (hasNode g startNodeData) then
    Some [ConsoleError ("BFS failed: Start node with data "
                        +:+ toString (value startNodeData)
                        +:+ " not found.")]
  else
    bfs_loop fuel g {[value startNodeData]} [startNodeData].

(** *** Depth-first search *)

(** The [for (let i = 0; ...)] loop of [dfs]; the head of the list is the
    top of the stack. *)
Fixpoint dfs_push (visited : gset Z) (stack : list T)
    (neighbors : list GraphEdge) : list T :=
  match neighbors with
  | [] => stack
  | neighborEdge :: rest =>
      let neighborData := target neighborEdge in
      if decide (value neighborData ∈ visited) then
        dfs_push visited stack rest
      else
        dfs_push visited (neighborData :: stack) rest
  end.

(** One iteration of the [while] loop of [dfs] after [stack.pop()]: the
    new visited set, the new stack and the calls of [processNode]. *)
Definition dfs_body (g : Graph) (visited : gset Z) (currentNodeData : T)
    (stack1 : list T) : gset Z * list T * list event :=
  if decide (value currentNodeData ∈ visited) then (visited, stack1, [])
  else
    let visited' := {[value currentNodeData]} ∪ visited in
    let stack' :=
      match getNeighbors g currentNodeData with
      | Some neighbors => dfs_push visited' stack1 neighbors
      | None => stack1
      end in
    (visited', stack', [Visit currentNodeData]).

(** The [while (stack.length > 0)] loop of [dfs]. *)
Fixpoint dfs_loop (fuel : nat) (g : Graph) (visited : gset Z)
    (stack : list T) : option (list event) :=
  match fuel with
  | O => None
  | S fuel' =>
      match stack with
      | [] => Some []
      | currentNodeData :: stack1 =>
          let '(visited', stack', calls) :=
            dfs_body g visited currentNodeData stack1 in
          app calls <$> dfs_loop fuel' g visited' stack'
      end
  end.

Definition dfs (fuel : nat) (g : Graph) (startNodeData : T)
    : option (list event) :=
  if negb (hasNode g startNodeData) then
    Some [ConsoleError ("DFS failed: Start node with data "
                        +:+ toString (value startNodeData)
                        +:+ " not found.")]
  else
    dfs_loop fuel g ∅ [startNodeData].

(** *** Dijkstra *)

Record DijkstraResult : Type := mkResult {
  distances : gmap Z number;
  predecessors : gmap Z (option T)
}.

(** The two fresh empty maps of the failure returns. *)
Definition empty_result : DijkstraResult :=
  {| distances := ∅; predecessors := ∅ |}.

(** The linear scan [for (const nodeValue of unvisited)]: the state is
    [(currentNodeValue, minDistance)]; a key missing from [distances]
    compares false. *)
Definition scan_step (dist : gmap Z number) (acc : option Z * number)
    (nodeValue : Z) : option Z * number :=
  match dist !! nodeValue with
  | Some d => if number_lt d acc.2 then (Some nodeValue, d) else acc
  | None => acc
  end.

Definition scan_min (dist : gmap Z number) (unvisited : list Z)
    : option Z * number :=
  foldl (scan_step dist) (None, Infinity) unvisited.

(** The [for (const edge of neighbors)] loop of [dijkstra]; [None] is the
    [return] taken on a negative weight. *)
Fixpoint relax (currentNode : T) (unvisited : list Z)
    (neighbors : list GraphEdge) (dist : gmap Z number)
    (pred : gmap Z (option T))
    : option (gmap Z number * gmap Z (option T)) :=
  match neighbors with
  | [] => Some (dist, pred)
  | edge :: rest =>
      let neighbor := target edge in
      let w := default 1 (weight edge) in
      if bool_decide (w < 0) then None
      else if decide (value neighbor ∈ unvisited) then
        match dist !! value currentNode, dist !! value neighbor with
        | Some dc, Some dn =>
            let newDistance := number_add dc w in
            if number_lt newDistance dn then
              relax currentNode unvisited rest
                    (<[value neighbor := newDistance]> dist)
                    (<[value neighbor := Some currentNode]> pred)
            else relax currentNode unvisited rest dist pred
        | _, _ => relax currentNode unvisited rest dist pred
        end
      else relax currentNode unvisited rest dist pred
  end.

Inductive outcome : Type :=
  | Completed (dist : gmap Z number) (pred : gmap Z (option T))
  | NegativeWeight.

(** What one iteration of the [while] loop of [dijkstra] does: [break],
    [return] on a negative weight, or go on with new maps and a smaller
    unvisited set. *)
Inductive iteration : Type :=
  | Break
  | Abort
  | Continue (dist : gmap Z number) (pred : gmap Z (option T))
             (unvisited : list Z).

Definition dijkstra_body (g : Graph) (dist : gmap Z number)
    (pred : gmap Z (option T)) (unvisited : list Z) : iteration :=
  match scan_min dist unvisited with
  | (None, _) | (_, Infinity) => Break
  | (Some currentNodeValue, Fin _) =>
      let unvisited' := Set_delete currentNodeValue unvisited in
      match nodeMap g !! currentNodeValue with
      | Some currentNode =>
          match getNeighbors g currentNode with
          | Some neighbors =>
              match relax currentNode unvisited' neighbors dist pred with
              | Some (dist', pred') => Continue dist' pred' unvisited'
              | None => Abort
              end
          | None => Continue dist pred unvisited'
          end
      | None => Continue dist pred unvisited'
      end
  end.

(** The [while (unvisited.size > 0)] loop of [dijkstra]. *)
Fixpoint dijkstra_loop (fuel : nat) (g : Graph) (dist : gmap Z number)
    (pred : gmap Z (option T)) (unvisited : list Z) : option outcome :=
  match fuel with
  | O => None
  | S fuel' =>
      match unvisited with
      | [] => Some (Completed dist pred)
      | _ :: _ =>
          match dijkstra_body g dist pred unvisited with
          | Break => Some (Completed dist pred)
          | Abort => Some NegativeWeight
          | Continue dist' pred' unvisited' =>
              dijkstra_loop fuel' g dist' pred' unvisited'
          end
      end
  end.

(** The initial maps: every node value is given [x]. *)
Definition init_map {A : Type} (x : A) (ns : list T) : gmap Z A :=
  foldl (λ m node, <[value node := x]> m) ∅ ns.

Definition init_unvisited (g : Graph) : list Z :=
  Set_new (value <$> nodes g).

Definition init_distances (g : Graph) (startNodeData : T) : gmap Z number :=
  <[value startNodeData := Fin 0]> (init_map Infinity (nodes g)).

Definition init_predecessors (g : Graph) : gmap Z (option T) :=
  init_map None (nodes g).

Definition dijkstra (fuel : nat) (g : Graph) (startNodeData : T)
    : option (DijkstraResult * list event) :=
  if negb (hasNode g startNodeData) then
    Some (empty_result,
          [ConsoleError ("Dijkstra failed: Start node with data "
                         +:+ toString (value startNodeData)
                         +:+ " not found.")])
  else
    match dijkstra_loop fuel g (init_distances g startNodeData)
                        (init_predecessors g) (init_unvisited g) with
    | None => None
    | Some (Completed dist' pred') =>
        Some ({| distances := dist'; predecessors := pred' |}, [])
    | Some NegativeWeight =>
        Some (empty_result,
              [ConsoleError "Dijkstra requires non-negative edge weights. Found negative weight."])
    end.

End CommonGraphMethods.

Arguments GraphEdge T : clear implicits.
Arguments event T : clear implicits.
Arguments Graph T {_ _}.
Arguments DijkstraResult T : clear implicits.
Arguments outcome T : clear implicits.
Arguments iteration T : clear implicits.

(** A call of one of the mutating methods of a graph object. *)
Inductive operation (T : Type) : Type :=
  | AddNode (data : T)
  | AddEdge (from to : T)
  | AddWeightedEdge (from to : T) (w : Z).
Arguments AddNode {T} data.
Arguments AddEdge {T} from to.
Arguments AddWeightedEdge {T} from to w.

(** ** class [Directed] *)
Module Directed.
Section Directed.
Context {T : Type} `{Countable T} {DSV : DataShapeWithValue T}.

Definition create : Graph T * list (event T) :=
  (new_graph, [ConsoleLog "Created a Directed Graph"]).

Definition addEdge (g : Graph T) (from to : T) : Graph T * list (event T) :=
  if negb (hasNode g from) || negb (hasNode g to) then
    (g, [ConsoleError ("Cannot add directed edge: Source ("
                       +:+ toString (value from) +:+ ") or target ("
                       +:+ toString (value to) +:+ ") node not found.")])
  else
    (push_edge g from (mkGraphEdge to None),
     [ConsoleLog ("Added directed edge from " +:+ toString (value from)
                  +:+ " to " +:+ toString (value to))]).

Definition addWeightedEdge (g : Graph T) (from to : T) (w : Z)
    : Graph T * list (event T) :=
  if negb (hasNode g from) || negb (hasNode g to) then
    (g, [ConsoleError ("Cannot add directed weighted edge: Source ("
                       +:+ toString (value from) +:+ ") or target ("
                       +:+ toString (value to) +:+ ") node not found.")])
  else
    (push_edge g from (mkGraphEdge to (Some w)),
     [ConsoleLog ("Added directed weighted edge from "
                  +:+ toString (value from) +:+ " to "
                  +:+ toString (value to) +:+ " with weight "
                  +:+ toString w)]).

Definition call (g : Graph T) (op : operation T) : Graph T * list (event T) :=
  match op with
  | AddNode data => (addNode g data, [])
  | AddEdge from to => addEdge g from to
  | AddWeightedEdge from to w => addWeightedEdge g from to w
  end.

(** The graph object after [new Directed()] and the calls [ops]. *)
Definition build (ops : list (operation T)) : Graph T :=
  foldl (λ g op, (call g op).1) create.1 ops.
End Directed.
End Directed.

(** ** class [Unidirected] *)
Module Unidirected.
Section Unidirected.
Context {T : Type} `{Countable T} {DSV : DataShapeWithValue T}.

Definition create : Graph T * list (event T) :=
  (new_graph, [ConsoleLog "Created an Unidirected Graph"]).

Definition addEdge (g : Graph T) (from to : T) : Graph T * list (event T) :=
  if negb (hasNode g from) || negb (hasNode g to) then
    (g, [ConsoleError ("Cannot add unidirected edge: Node with data "
                       +:+ toString (value from) +:+ " or "
                       +:+ toString (value to) +:+ " not found.")])
  else
    (push_edge (push_edge g from (mkGraphEdge to None))
               to (mkGraphEdge from None),
     [ConsoleLog ("Added unidirected edge between "
                  +:+ toString (value from) +:+ " and "
                  +:+ toString (value to))]).

Definition addWeightedEdge (g : Graph T) (from to : T) (w : Z)
    : Graph T * list (event T) :=
  if negb (hasNode g from) || negb (hasNode g to) then
    (g, [ConsoleError ("Cannot add unidirected weighted edge: Node with data "
                       +:+ toString (value from) +:+ " or "
                       +:+ toString (value to) +:+ " not found.")])
  else
    (push_edge (push_edge g from (mkGraphEdge to (Some w)))
               to (mkGraphEdge from (Some w)),
     [ConsoleLog ("Added unidirected weighted edge between "
                  +:+ toString (value from) +:+ " and "
                  +:+ toString (value to) +:+ " with weight "
                  +:+ toString w)]).

Definition call (g : Graph T) (op : operation T) : Graph T * list (event T) :=
  match op with
  | AddNode data => (addNode g data, [])
  | AddEdge from to => addEdge g from to
  | AddWeightedEdge from to w => addWeightedEdge g from to w
  end.

(** The graph object after [new Unidirected()] and the calls [ops]. *)
Definition build (ops : list (operation T)) : Graph T :=
  foldl (λ g op, (call g op).1) create.1 ops.
End Unidirected.
End Unidirected.

(** ** A JavaScript [Map<number, A>] with its insertion order *)

Section InsertionOrderedMap.
Context {A : Type}.

Fixpoint Map_get (m : list (Z * A)) (k : Z) : option A :=
  match m with
  | [] => None
  | (k', v) :: m' => if decide (k' = k) then Some v else Map_get m' k
  end.

(** [set] keeps the place of a key that is present and appends a new key. *)
Fixpoint Map_set (m : list (Z * A)) (k : Z) (v : A) : list (Z * A) :=
  match m with
  | [] => [(k, v)]
  | (k', v') :: m' =>
      if decide (k' = k) then (k, v) :: m' else (k', v') :: Map_set m' k v
  end.

Definition Map_delete (m : list (Z * A)) (k : Z) : list (Z * A) :=
  filter (λ p, p.1 ≠ k) m.

Definition Map_size (m : list (Z * A)) : Z := Z.of_nat (length m).

(** [Array.from(m.values())] *)
Definition Map_values (m : list (Z * A)) : list A := snd <$> m.

End InsertionOrderedMap.

(** ** class [Stack] *)
Module Stack.
Section Stack.
Context {T : Type}.

Record Stack : Type := mkStack { items : list (Z * T) }.

(** The constructor. *)
Definition create : Stack := {| items := [] |}.

Definition push (s : Stack) (item : T) : Stack :=
  let index := Map_size (items s) in
  {| items := Map_set (items s) index item |}.

(** The returned value, [None] for [undefined], and the stack after. *)
Definition pop (s : Stack) : option T * Stack :=
  let index := Map_size (items s) - 1 in
  let pop := Map_get (items s) index in
  (pop, {| items := Map_delete (items s) index |}).

Definition peek (s : Stack) : option T :=
  let last_index := Map_size (items s) - 1 in
  Map_get (items s) last_index.

Definition isEmpty (s : Stack) : bool := bool_decide (Map_size (items s) = 0).

Definition size (s : Stack) : Z := Map_size (items s).

Definition clear (s : Stack) : Stack := {| items := [] |}.

Definition toArray (s : Stack) : list T := Map_values (items s).

(** A call of [push], [pop] or [clear]. *)
Inductive operation : Type :=
  | Push (item : T)
  | Pop
  | Clear.

Definition call (s : Stack) (op : operation) : Stack :=
  match op with
  | Push item => push s item
  | Pop => (pop s).2
  | Clear => clear s
  end.

(** The stack object after [new Stack()] and the calls [ops]. *)
Definition build (ops : list operation) : Stack := foldl call create ops.

(** The keys of [items] are the indices [0 .. size - 1], in this order. *)
Definition indexed (s : Stack) : Prop :=
  (items s).*1 = seqZ 0 (Map_size (items s)).

(** The calls on a list whose last element is the top. *)
Definition model (ops : list operation) : list T :=
  foldl (λ l op, match op with
                 | Push item => l ++ [item]
                 | Pop => removelast l
                 | Clear => []
                 end) [] ops.

End Stack.
Arguments Stack T : clear implicits.
Arguments operation T : clear implicits.
End Stack.

(** ** The node data of the test-suite *)
Module Test.

Record TestData : Type := createTestData {
  id : nat;
  val : Z;
  name : string
}.

Global Instance TestData_eq_dec : EqDecision TestData.
Proof. solve_decision. Defined.

Global Instance TestData_countable : Countable TestData.
Proof.
  refine (inj_countable' (λ d, (id d, val d, name d))
                         (λ '(i, v, n), createTestData i v n) _).
  intros []; reflexivity.
Defined.

Global Instance TestData_value : DataShapeWithValue TestData := val.

Definition node1 := createTestData 1 10 "A".
Definition node2 := createTestData 2 20 "B".
Definition node3 := createTestData 3 30 "C".
Definition node4 := createTestData 4 40 "D".
Definition node5 := createTestData 5 50 "E".

(** The graph of "should find shortest paths in a simple weighted
    unidirected graph". *)
Definition weighted_unidirected : Graph TestData :=
  Unidirected.build
    [AddNode node1; AddNode node2; AddNode node3; AddNode node4;
     AddNode node5;
     AddWeightedEdge node1 node2 4; AddWeightedEdge node1 node3 2;
     AddWeightedEdge node2 node5 3; AddWeightedEdge node2 node4 2;
     AddWeightedEdge node3 node4 4; AddWeightedEdge node3 node5 5;
     AddWeightedEdge node4 node5 1].

(** The graph of [setupTraversalGraph]. *)
Definition traversal_graph : Graph TestData :=
  Unidirected.build
    [AddNode node1; AddNode node2; AddNode node3; AddNode node4;
     AddNode node5;
     AddEdge node1 node2; AddEdge node1 node3; AddEdge node2 node4;
     AddEdge node3 node4; AddEdge node4 node5].

(** The graph of "should handle graphs with negative weights". *)
Definition negative_graph : Graph TestData :=
  Directed.build
    [AddNode node1; AddNode node2; AddWeightedEdge node1 node2 (-5)].

(** The graph of "should handle unreachable nodes". *)
Definition unreachable_graph : Graph TestData :=
  Directed.build
    [AddNode node1; AddNode node2; AddNode node3; AddNode node4;
     AddWeightedEdge node1 node2 1; AddWeightedEdge node3 node2 1].


(** Two node objects with the same [value]. *)
Definition twin := createTestData 6 10 "A2".
Definition twin_graph : Graph TestData :=
  Directed.build [AddNode node1; AddNode twin; AddNode node2;
                  AddEdge node1 twin; AddEdge twin node2].

(** A twin of the start node that owns the only edge. *)
Definition shadow_graph : Graph TestData :=
  Directed.build [AddNode node1; AddNode twin; AddNode node2;
                  AddWeightedEdge twin node2 1].

(** One undirected edge. *)
Definition pair_graph : Graph TestData :=
  Unidirected.build [AddNode node1; AddNode node2; AddEdge node1 node2].

End Test.

(** * Specification vocabulary *)

Section Vocabulary.
Context {T : Type} {EqT : EqDecision T} {CntT : Countable T}
        {DSV : DataShapeWithValue T}.

(** [v] is the target of an outgoing edge of [u]. *)
Definition edge_of (g : Graph T) (u v : T) : Prop :=
  ∃ es e, getNeighbors g u = Some es ∧ e ∈ es ∧ target e = v.

(** The connected component of [s]: what is reachable via outgoing edges. *)
Definition reachable (g : Graph T) (s x : T) : Prop := rtc (edge_of g) s x.

(** The invariant of the fields of a graph object.  The constructor
    establishes it and [addNode], [addEdge] and [addWeightedEdge] keep it
    (lemmas [Directed_build_well_formed], [Unidirected_build_well_formed]),
    and the fields are [protected]: "a graph" below is a well-formed
    [Graph]. *)
Record well_formed (g : Graph T) : Prop := {
  wf_dom : ∀ x, x ∈ nodes g ↔ is_Some (adjacencyList g !! x);
  wf_NoDup : NoDup (nodes g);
  wf_target : ∀ x es e,
    adjacencyList g !! x = Some es → e ∈ es → target e ∈ nodes g;
  wf_nodeMap : ∀ v x, nodeMap g !! v = Some x → x ∈ nodes g ∧ value x = v;
  wf_nodeMap_dom : ∀ x, x ∈ nodes g → is_Some (nodeMap g !! value x)
}.

(** The nodes of the graph carry pairwise different values. *)
Definition unique_values (g : Graph T) : Prop :=
  NoDup (value <$> nodes g).

(** The nodes passed to [addNode] by a sequence of calls. *)
Definition added (ops : list (operation T)) : list T :=
  omap (λ op, match op with AddNode x => Some x | _ => None end) ops.

(** A list without the repetitions of its elements. *)
Fixpoint first_occurrences (l : list T) : list T :=
  match l with
  | [] => []
  | x :: l' => x :: filter (λ y, y ≠ x) (first_occurrences l')
  end.

(** The nodes on which a trace calls the visitor. *)
Definition visits (tr : list (event T)) : list T :=
  omap (λ ev, match ev with Visit x => Some x | _ => None end) tr.

(** The trace calls the visitor once on every node of the component of
    [start], on nothing else, and does nothing else. *)
Definition visits_component (g : Graph T) (start : T)
    (tr : list (event T)) : Prop :=
  ∃ vs, tr = Visit <$> vs ∧ NoDup vs ∧ ∀ x, x ∈ vs ↔ reachable g start x.

(** The number of edge records of the graph. *)
Definition edge_count (g : Graph T) : nat :=
  sum_list_with (λ x, length (default [] (getNeighbors g x))) (nodes g).

(** The edge records of the nodes whose value is not in [visited]. *)
Definition dfs_weight (g : Graph T) (visited : gset Z) : nat :=
  sum_list_with
    (λ x, if decide (value x ∈ visited) then O
          else length (default [] (getNeighbors g x)))
    (nodes g).

(** A state of the [while] loop of [dijkstra]. *)
Definition dijkstra_state : Type :=
  gmap Z number * gmap Z (option T) * list Z.


Definition dijkstra_init (g : Graph T) (start : T) : dijkstra_state :=
  (init_distances g start, init_predecessors g, init_unvisited g).

(** The graph [g] after a sequence of calls. *)
Definition run_calls
    (call : Graph T → operation T → Graph T * list (event T))
    (g : Graph T) (ops : list (operation T)) : Graph T :=
  foldl (λ g op, (call g op).1) g ops.

(** What the two kinds of graph have in common: [addNode] is inherited,
    the edge methods keep the node registry. *)
Definition edge_method (call : Graph T → operation T → Graph T * list (event T))
    : Prop :=
  ∀ g op,
    match op with
    | AddNode x => (call g op).1 = addNode g x
    | _ => nodes (call g op).1 = nodes g
           ∧ (∀ y, hasNode (call g op).1 y = hasNode g y)
           ∧ (well_formed g → well_formed (call g op).1)
    end.

(** From [g] to [g'] one edge record [e] has been appended to the
    neighbor list of [a]; nothing else has changed. *)
Definition appends_one (g g' : Graph T) (a : T) (e : GraphEdge T) : Prop :=
  getNodes g' = getNodes g
  ∧ nodeMap g' = nodeMap g
  ∧ (∃ la, getNeighbors g a = Some la
           ∧ getNeighbors g' a = Some (la ++ [e]))
  ∧ (∀ c, c ≠ a → getNeighbors g' c = getNeighbors g c).

(** From [g] to [g'] the record [ea] has been appended to the neighbor
    list of [a] and then [eb] to the list of [b] (the same list when
    [a = b]); nothing else has changed. *)
Definition appends_both (g g' : Graph T) (a b : T)
    (ea eb : GraphEdge T) : Prop :=
  getNodes g' = getNodes g
  ∧ nodeMap g' = nodeMap g
  ∧ (∀ c, c ≠ a → c ≠ b → getNeighbors g' c = getNeighbors g c)
  ∧ (a ≠ b → ∃ la lb,
       getNeighbors g a = Some la ∧ getNeighbors g b = Some lb
       ∧ getNeighbors g' a = Some (la ++ [ea])
       ∧ getNeighbors g' b = Some (lb ++ [eb]))
  ∧ (a = b → ∃ la,
       getNeighbors g a = Some la
       ∧ getNeighbors g' a = Some (la ++ [ea; eb])).

(** The values of the nodes of the graph. *)
Definition node_values (g : Graph T) : gset Z :=
  list_to_set (value <$> nodes g).

(** The invariant of the loop of [bfs] from [start]: [prior] are the nodes
    taken from the queue so far. *)
Record bfs_inv (g : Graph T) (start : T) (prior : list T)
    (visited : gset Z) (queue : list T) : Prop := {
  bfs_NoDup : NoDup (prior ++ queue);
  bfs_reach : ∀ x, x ∈ prior ++ queue → x ∈ nodes g ∧ reachable g start x;
  bfs_visited : ∀ x, x ∈ nodes g → value x ∈ visited ↔ x ∈ prior ++ queue;
  bfs_closed : ∀ x y, x ∈ prior → edge_of g x y → y ∈ prior ++ queue;
  bfs_start : start ∈ prior ++ queue
}.

(** The invariant of the loop of [dfs] from [start]: [prior] are the nodes
    visited so far. *)
Record dfs_inv (g : Graph T) (start : T) (prior : list T)
    (visited : gset Z) (stack : list T) : Prop := {
  dfs_NoDup : NoDup prior;
  dfs_reach : ∀ x, x ∈ prior ++ stack → x ∈ nodes g ∧ reachable g start x;
  dfs_visited : ∀ x, x ∈ nodes g → value x ∈ visited ↔ x ∈ prior;
  dfs_closed : ∀ x y, x ∈ prior → edge_of g x y → y ∈ prior ++ stack;
  dfs_start : start ∈ prior ++ stack
}.

(** The edge record [e] of [u] is relaxed: its weight is not negative and
    the distance of its target is at most that of [u] plus the weight. *)
Definition edge_relaxed (dist : gmap Z number) (u : T) (e : GraphEdge T)
    : Prop :=
  0 ≤ default 1 (weight e)
  ∧ ∃ du dv, dist !! value u = Some du
             ∧ dist !! value (target e) = Some dv
             ∧ number_le dv (number_add du (default 1 (weight e))).

(** The invariant of the maps and of the unvisited set of [dijkstra]. *)
Record dijkstra_base (g : Graph T) (start : T) (dist : gmap Z number)
    (pred : gmap Z (option T)) (unvisited : list Z) : Prop := {
  db_NoDup : NoDup unvisited;
  db_unvisited : ∀ v, v ∈ unvisited → ∃ x, x ∈ nodes g ∧ value x = v;
  db_dom : ∀ x, x ∈ nodes g →
    is_Some (dist !! value x) ∧ is_Some (pred !! value x);
  db_start : dist !! value start = Some (Fin 0);
  db_nonneg : ∀ v z, dist !! v = Some (Fin z) → 0 ≤ z;
  db_reach : ∀ x z, x ∈ nodes g → dist !! value x = Some (Fin z) →
    reachable g start x;
  db_pred : ∀ x p, x ∈ nodes g → pred !! value x = Some (Some p) →
    ∃ z, dist !! value x = Some (Fin z);
  db_mono : ∀ a b da db, a ∉ unvisited → b ∈ unvisited →
    dist !! a = Some da → dist !! b = Some db → number_le da db
}.

(** The edge records of the nodes that have left the unvisited set are
    relaxed. *)
Definition dijkstra_edges (g : Graph T) (dist : gmap Z number)
    (unvisited : list Z) : Prop :=
  ∀ u es e, value u ∉ unvisited → getNeighbors g u = Some es → e ∈ es →
    edge_relaxed dist u e.

(** The invariant of the inner loop of [dijkstra] on the node [cur], after
    the edge records [seen]; [unvisited] still holds the value of [cur],
    [unvisited'] does not. *)
Record relax_inv (g : Graph T) (start cur : T) (unvisited unvisited' : list Z)
    (seen : list (GraphEdge T)) (dist : gmap Z number)
    (pred : gmap Z (option T)) : Prop := {
  ri_base : dijkstra_base g start dist pred unvisited';
  ri_edges : dijkstra_edges g dist unvisited;
  ri_seen : ∀ e, e ∈ seen → edge_relaxed dist cur e;
  ri_le : ∀ a da, a ∉ unvisited' → dist !! a = Some da →
    ∃ dc, dist !! value cur = Some dc ∧ number_le da dc;
  ri_Fin : ∃ zc, dist !! value cur = Some (Fin zc)
}.

(** The inner loop of [dfs] as the specification words it: every target
    is pushed. *)
Definition dfs_push_all (visited : gset Z) (stack : list T)
    (neighbors : list (GraphEdge T)) : list T :=
  reverse (target <$> neighbors) ++ stack.

(** The loop of [dfs] over an inner loop [push]. *)
Fixpoint dfs_loop_with
    (push : gset Z → list T → list (GraphEdge T) → list T)
    (fuel : nat) (g : Graph T) (visited : gset Z) (stack : list T)
    : option (list (event T)) :=
  match fuel with
  | O => None
  | S fuel' =>
      match stack with
      | [] => Some []
      | cur :: stack1 =>
          if decide (value cur ∈ visited) then
            dfs_loop_with push fuel' g visited stack1
          else
            let visited' := {[value cur]} ∪ visited in
            let stack' :=
              match getNeighbors g cur with
              | Some neighbors => push visited' stack1 neighbors
              | None => stack1
              end in
            cons (Visit cur) <$> dfs_loop_with push fuel' g visited' stack'
      end
  end.

(** [dfs] as the specification words it. *)
Definition dfs_as_specified (fuel : nat) (g : Graph T) (startNodeData : T)
    : option (list (event T)) :=
  if negb (hasNode g startNodeData) then
    Some [ConsoleError ("DFS failed: Start node with data "
                        +:+ toString (value startNodeData)
                        +:+ " not found.")]
  else
    dfs_loop_with dfs_push_all fuel g ∅ [startNodeData].

(** An inner loop that, up to entries whose value is visited, pushes the
    targets whose value is not visited. *)
Definition pushes_unvisited
    (push : gset Z → list T → list (GraphEdge T) → list T) : Prop :=
  ∀ visited stack neighbors,
    filter (λ x, value x ∉ visited) (push visited stack neighbors)
    = reverse (filter (λ x, value x ∉ visited) (target <$> neighbors))
      ++ filter (λ x, value x ∉ visited) stack.

(** What the specification says of a [dfs] iteration on an unvisited
    node: every target is pushed. *)
Definition dfs_pushes_all_targets (g : Graph T) (visited : gset Z)
    (cur : T) (stack1 : list T) : Prop :=
  ∀ es, getNeighbors g cur = Some es →
    dfs_body g visited cur stack1
    = ({[value cur]} ∪ visited, reverse (target <$> es) ++ stack1,
       [Visit cur]).

End Vocabulary.

(** * Paths, layers and the shape of built graphs *)

Section Paths.
Context {T : Type} {EqT : EqDecision T} {CntT : Countable T}
        {DSV : DataShapeWithValue T}.

(** A path from [s] along edge records, with the sum of the weights that
    [dijkstra] gives them (1 for a record without weight). *)
Inductive path_weight (g : Graph T) (s : T) : T → Z → Prop :=
  | path_weight_nil : path_weight g s s 0
  | path_weight_snoc (u : T) (es : list (GraphEdge T)) (e : GraphEdge T)
      (w : Z) :
      path_weight g s u w → getNeighbors g u = Some es → e ∈ es →
      path_weight g s (target e) (w + default 1 (weight e)).

(** A path from [s] of [n] edges. *)
Inductive hops (g : Graph T) (s : T) : T → nat → Prop :=
  | hops_O : hops g s s O
  | hops_S (u v : T) (n : nat) :
      hops g s u n → edge_of g u v → hops g s v (S n).

(** [n] is the least number of edges of a path from [s] to [x]. *)
Definition layer (g : Graph T) (s x : T) (n : nat) : Prop :=
  hops g s x n ∧ ∀ m, hops g s x m → (n ≤ m)%nat.

(** No edge record carries a weight: the edges were added by [addEdge]. *)
Definition unweighted (g : Graph T) : Prop :=
  ∀ u es e, getNeighbors g u = Some es → e ∈ es → weight e = None.

(** Every edge record has its mirror record, of the same weight. *)
Definition symmetric_edges (g : Graph T) : Prop :=
  ∀ a b w es, getNeighbors g a = Some es → mkGraphEdge b w ∈ es →
    ∃ es', getNeighbors g b = Some es' ∧ mkGraphEdge a w ∈ es'.

(** [nodeMap] holds, for a value, the node added last with this value. *)
Definition nodeMap_last (g : Graph T) : Prop :=
  ∀ v, nodeMap g !! v = last (filter (λ n, value n = v) (nodes g)).

(** From [g] to [g'] nothing is removed or reordered. *)
Definition grows (g g' : Graph T) : Prop :=
  getNodes g `prefix_of` getNodes g'
  ∧ ∀ x es, getNeighbors g x = Some es →
      ∃ es', getNeighbors g' x = Some es' ∧ es `prefix_of` es'.

(** The weights are integers on which the additions of [dijkstra] are
    exact in double precision: a weight times the number of nodes stays
    within [2 ^ 53].  A distance is a sum of less weights than there are
    nodes, so no sum that the loop forms leaves the integers that a
    [number] holds exactly. *)
Definition exact_weights (g : Graph T) : Prop :=
  ∀ u es e, getNeighbors g u = Some es → e ∈ es →
    Z.abs (default 1 (weight e)) * Z.of_nat (length (nodes g)) ≤ 2 ^ 53.

(** The finite distances are sums of as many weights, at most, as there
    are keys that have left the unvisited set. *)
Definition dijkstra_bounded (g : Graph T) (dist : gmap Z number)
    (unvisited : list Z) : Prop :=
  ∀ v z, dist !! v = Some (Fin z) →
    0 ≤ z
    ∧ z * Z.of_nat (length (nodes g))
      ≤ (Z.of_nat (length (nodes g)) - Z.of_nat (length unvisited)) * 2 ^ 53.

(** The invariant of the maps of [dijkstra] that ties the distances to
    paths and to the predecessors. *)
Record dijkstra_tree (g : Graph T) (start : T) (dist : gmap Z number)
    (pred : gmap Z (option T)) (unvisited : list Z) : Prop := {
  dt_path : ∀ x z, x ∈ nodes g → dist !! value x = Some (Fin z) →
    path_weight g start x z;
  dt_start : pred !! value start = Some None;
  dt_pred : ∀ x p, x ∈ nodes g → pred !! value x = Some (Some p) →
    (value p ∉ unvisited)
    ∧ (∃ es e zp, getNeighbors g p = Some es ∧ e ∈ es ∧ target e = x
                  ∧ dist !! value p = Some (Fin zp)
                  ∧ dist !! value x
                    = Some (Fin (zp + default 1 (weight e))));
  dt_found : ∀ x z, x ∈ nodes g → dist !! value x = Some (Fin z) →
    value x ≠ value start → ∃ p, pred !! value x = Some (Some p)
}.

(** The invariant of the loop of [bfs] on the layers: the queue holds
    nodes of layer [k] followed by nodes of layer [k + 1], and every node
    within [k] edges of [start] was taken from the queue or is in it. *)
Record bfs_layers (g : Graph T) (start : T) (k : nat) (prior : list T)
    (queue : list T) : Prop := {
  bl_queue : ∃ qa qb, queue = qa ++ qb
                      ∧ (∀ x, x ∈ qa → layer g start x k)
                      ∧ (∀ x, x ∈ qb → layer g start x (S k));
  bl_within : ∀ y n, hops g start y n → (n ≤ k)%nat → y ∈ prior ++ queue
}.

(** The layers of the nodes of [vs] start at [k] or above and do not
    decrease along the list. *)
Definition ascending (g : Graph T) (start : T) (k : nat) (vs : list T)
    : Prop :=
  ∀ i j x y, vs !! i = Some x → vs !! j = Some y → (i ≤ j)%nat →
    ∃ n m, layer g start x n ∧ layer g start y m ∧ (k ≤ n ≤ m)%nat.

End Paths.

(** ** [dijkstra] over the addition of numbers

    The loop of [dijkstra] with the addition [distances.get(...) + weight]
    as a parameter: with [double_add] it is the loop of the code on
    integer weights; with [number_add] it is [dijkstra] above, which adds
    exactly. *)

Section DijkstraWith.
Context {T : Type} {EqT : EqDecision T} {CntT : Countable T}
        {DSV : DataShapeWithValue T}.
Variable add : number → Z → number.

(** The [for (const edge of neighbors)] loop of [dijkstra]. *)
Fixpoint relax_with (currentNode : T) (unvisited : list Z)
    (neighbors : list (GraphEdge T)) (dist : gmap Z number)
    (pred : gmap Z (option T))
    : option (gmap Z number * gmap Z (option T)) :=
  match neighbors with
  | [] => Some (dist, pred)
  | edge :: rest =>
      let neighbor := target edge in
      let w := default 1 (weight edge) in
      if bool_decide (w < 0) then None
      else if decide (value neighbor ∈ unvisited) then
        match dist !! value currentNode, dist !! value neighbor with
        | Some dc, Some dn =>
            let newDistance := add dc w in
            if number_lt newDistance dn then
              relax_with currentNode unvisited rest
                         (<[value neighbor := newDistance]> dist)
                         (<[value neighbor := Some currentNode]> pred)
            else relax_with currentNode unvisited rest dist pred
        | _, _ => relax_with currentNode unvisited rest dist pred
        end
      else relax_with currentNode unvisited rest dist pred
  end.

(** One iteration of the [while] loop of [dijkstra]. *)
Definition dijkstra_body_with (g : Graph T) (dist : gmap Z number)
    (pred : gmap Z (option T)) (unvisited : list Z) : iteration T :=
  match scan_min dist unvisited with
  | (None, _) | (_, Infinity) => Break
  | (Some currentNodeValue, Fin _) =>
      let unvisited' := Set_delete currentNodeValue unvisited in
      match nodeMap g !! currentNodeValue with
      | Some currentNode =>
          match getNeighbors g currentNode with
          | Some neighbors =>
              match relax_with currentNode unvisited' neighbors dist pred
              with
              | Some (dist', pred') => Continue dist' pred' unvisited'
              | None => Abort
              end
          | None => Continue dist pred unvisited'
          end
      | None => Continue dist pred unvisited'
      end
  end.

(** The [while (unvisited.size > 0)] loop of [dijkstra]. *)
Fixpoint dijkstra_loop_with (fuel : nat) (g : Graph T)
    (dist : gmap Z number) (pred : gmap Z (option T)) (unvisited : list Z)
    : option (outcome T) :=
  match fuel with
  | O => None
  | S fuel' =>
      match unvisited with
      | [] => Some (Completed dist pred)
      | _ :: _ =>
          match dijkstra_body_with g dist pred unvisited with
          | Break => Some (Completed dist pred)
          | Abort => Some NegativeWeight
          | Continue dist' pred' unvisited' =>
              dijkstra_loop_with fuel' g dist' pred' unvisited'
          end
      end
  end.

Definition dijkstra_with (fuel : nat) (g : Graph T) (startNodeData : T)
    : option (DijkstraResult T * list (event T)) :=
  if negb (hasNode g startNodeData) then
    Some (empty_result,
          [ConsoleError ("Dijkstra failed: Start node with data "
                         +:+ toString (value startNodeData)
                         +:+ " not found.")])
  else
    match dijkstra_loop_with fuel g (init_distances g startNodeData)
                             (init_predecessors g) (init_unvisited g) with
    | None => None
    | Some (Completed dist' pred') =>
        Some ({| distances := dist'; predecessors := pred' |}, [])
    | Some NegativeWeight =>
        Some (empty_result,
              [ConsoleError "Dijkstra requires non-negative edge weights. Found negative weight."])
    end.

(** An iteration of the loop that goes on. *)
Definition dijkstra_step_with (g : Graph T) (s s' : dijkstra_state) : Prop :=
  s.2 ≠ []
  ∧ dijkstra_body_with g s.1.1 s.1.2 s.2 = Continue s'.1.1 s'.1.2 s'.2.




End DijkstraWith.


(** * The adjacency table *)

Section AdjacencyTable.
Context {T : Type} {EqT : EqDecision T} {CntT : Countable T}
        {DSV : DataShapeWithValue T}.
Implicit Types (g : Graph T) (x a b : T).

Lemma hasNode_true g x : hasNode g x = true ↔ is_Some (adjacencyList g !! x).
Proof. unfold hasNode. apply bool_decide_eq_true. Qed.

Lemma hasNode_false g x : hasNode g x = false ↔ adjacencyList g !! x = None.
Proof.
  unfold hasNode. rewrite bool_decide_eq_false. symmetry. apply eq_None_not_Some.
Qed.

Lemma addNode_present g x : hasNode g x = true → addNode g x = g.
Proof. intros Hx. unfold addNode. now rewrite Hx. Qed.

Lemma hasNode_addNode g x y :
  hasNode (addNode g x) y = true ↔ hasNode g y = true ∨ y = x.
Proof.
  unfold addNode. destruct (hasNode g x) eqn:Hx; simpl.
  - split; [auto | intros [?| ->]; auto].
  - rewrite !hasNode_true. simpl. rewrite lookup_insert_is_Some.
    destruct (decide (x = y)) as [->|Hne]; intuition congruence.
Qed.

Lemma hasNode_push_edge g a e y :
  hasNode (push_edge g a e) y = hasNode g y.
Proof.
  unfold hasNode, push_edge; simpl. apply bool_decide_ext.
  rewrite lookup_alter. destruct (decide (a = y)) as [->|];
    [ | reflexivity ].
  destruct (adjacencyList g !! y); simpl; split; intros [? ?]; eauto;
    discriminate.
Qed.

Lemma push_edge_lookup g a e es :
  adjacencyList g !! a = Some es →
  adjacencyList (push_edge g a e) !! a = Some (es ++ [e]).
Proof. intros Ha. simpl. rewrite lookup_alter_eq, Ha. reflexivity. Qed.

Lemma push_edge_lookup_ne g a e c :
  c ≠ a → adjacencyList (push_edge g a e) !! c = adjacencyList g !! c.
Proof. intros Hne. simpl. now rewrite lookup_alter_ne. Qed.

Lemma well_formed_new : well_formed (new_graph (T:=T)).
Proof.
  split; simpl.
  - intros x. rewrite lookup_empty, elem_of_nil. split; [tauto|].
    intros [? ?]; discriminate.
  - constructor.
  - intros x es e Hx. now rewrite lookup_empty in Hx.
  - intros v x Hx. now rewrite lookup_empty in Hx.
  - intros x Hx. now apply elem_of_nil in Hx.
Qed.

Lemma well_formed_addNode g x : well_formed g → well_formed (addNode g x).
Proof.
  intros Hg. unfold addNode. destruct (hasNode g x) eqn:Hx; simpl; [done|].
  apply hasNode_false in Hx.
  assert (Hnin : x ∉ nodes g).
  { rewrite (wf_dom g Hg), Hx. intros [? ?]; discriminate. }
  split; simpl.
  - intros y. rewrite elem_of_app, list_elem_of_singleton,
      lookup_insert_is_Some, (wf_dom g Hg).
    destruct (decide (x = y)) as [->|]; intuition congruence.
  - apply NoDup_app. split; [apply (wf_NoDup g Hg)|]. split.
    + intros y Hy ->%list_elem_of_singleton. done.
    + apply NoDup_singleton.
  - intros y es e. rewrite lookup_insert.
    destruct (decide (x = y)) as [->|].
    + intros [= <-] He. now apply elem_of_nil in He.
    + intros Hy He. apply elem_of_app. left. eapply wf_target; eauto.
  - intros v y. rewrite lookup_insert.
    destruct (decide (value x = v)) as [<-|].
    + intros [= <-]. split; [|done]. apply elem_of_app. right.
      now apply list_elem_of_singleton.
    + intros Hy. destruct (wf_nodeMap g Hg _ _ Hy). split; [|done].
      apply elem_of_app. now left.
  - intros y. rewrite elem_of_app, list_elem_of_singleton.
    rewrite lookup_insert_is_Some.
    destruct (decide (value x = value y)); [now left|].
    intros [Hy| ->]; [|done]. right. split; [done|].
    now apply (wf_nodeMap_dom g Hg).
Qed.

Lemma well_formed_push_edge g a e :
  well_formed g → target e ∈ nodes g → well_formed (push_edge g a e).
Proof.
  intros Hg He. split.
  - intros y. rewrite <- hasNode_true, hasNode_push_edge, hasNode_true.
    apply (wf_dom g Hg).
  - apply (wf_NoDup g Hg).
  - intros y es e'. simpl. rewrite lookup_alter.
    destruct (decide (a = y)) as [->|].
    + destruct (adjacencyList g !! y) as [es0|] eqn:Hy; simpl; [|done].
      intros [= <-]. rewrite elem_of_app, list_elem_of_singleton.
      intros [Hin| ->]; [|done]. eapply wf_target; eauto.
    + intros Hy Hin. eapply wf_target; eauto.
  - apply (wf_nodeMap g Hg).
  - apply (wf_nodeMap_dom g Hg).
Qed.

Lemma hasNode_nodes g x : well_formed g → hasNode g x = true ↔ x ∈ nodes g.
Proof. intros Hg. now rewrite hasNode_true, (wf_dom g Hg). Qed.

End AdjacencyTable.

(** * Graphs built by calls of the public methods *)

Section Construction.
Context {T : Type} {EqT : EqDecision T} {CntT : Countable T}
        {DSV : DataShapeWithValue T}.
Implicit Types (g : Graph T) (x a b : T) (ops : list (operation T)).

Lemma push_edge_guarded g a b e (fail : list (event T)) (ok : list (event T)) :
  let r := if negb (hasNode g a) || negb (hasNode g b)
           then (g, fail) else (push_edge g a e, ok) in
  target e = b →
  nodes r.1 = nodes g
  ∧ (∀ y, hasNode r.1 y = hasNode g y)
  ∧ (well_formed g → well_formed r.1).
Proof.
  intros r He. subst r.
  destruct (hasNode g a) eqn:Ha, (hasNode g b) eqn:Hb; simpl; try done.
  split; [done|]. split; [apply hasNode_push_edge|].
  intros Hg. apply well_formed_push_edge; [done|].
  rewrite He. now apply hasNode_nodes.
Qed.

Lemma push_edge_twice_guarded g a b e1 e2 (fail ok : list (event T)) :
  let r := if negb (hasNode g a) || negb (hasNode g b)
           then (g, fail)
           else (push_edge (push_edge g a e1) b e2, ok) in
  target e1 = b → target e2 = a →
  nodes r.1 = nodes g
  ∧ (∀ y, hasNode r.1 y = hasNode g y)
  ∧ (well_formed g → well_formed r.1).
Proof.
  intros r He1 He2. subst r.
  destruct (hasNode g a) eqn:Ha, (hasNode g b) eqn:Hb; simpl; try done.
  split; [done|]. split.
  - intros y. now rewrite !hasNode_push_edge.
  - intros Hg. apply well_formed_push_edge.
    + apply well_formed_push_edge; [done|]. rewrite He1.
      now apply hasNode_nodes.
    + simpl. rewrite He2. now apply hasNode_nodes.
Qed.

Lemma Directed_edge_method : edge_method (Directed.call (T:=T)).
Proof.
  intros g [x|a b|a b w]; simpl; [done| |].
  - now apply push_edge_guarded.
  - now apply push_edge_guarded.
Qed.

Lemma Unidirected_edge_method : edge_method (Unidirected.call (T:=T)).
Proof.
  intros g [x|a b|a b w]; simpl; [done| |].
  - now apply push_edge_twice_guarded.
  - now apply push_edge_twice_guarded.
Qed.

Section Calls.
Variable call : Graph T → operation T → Graph T * list (event T).
Hypothesis Hcall : edge_method call.


Lemma run_well_formed ops g : well_formed g → well_formed (run_calls call g ops).
Proof.
  revert g. induction ops as [|op ops IH]; intros g Hg; [done|].
  simpl. apply IH. specialize (Hcall g op).
  destruct op; [rewrite Hcall; now apply well_formed_addNode| |];
    now apply Hcall.
Qed.

Lemma run_hasNode ops g y :
  hasNode (run_calls call g ops) y = true ↔ hasNode g y = true ∨ y ∈ added ops.
Proof.
  revert g. induction ops as [|op ops IH]; intros g; simpl.
  - rewrite elem_of_nil. tauto.
  - rewrite IH. specialize (Hcall g op).
    destruct op as [x|a b|a b w]; simpl.
    + rewrite Hcall, hasNode_addNode, elem_of_cons. tauto.
    + destruct Hcall as (_ & -> & _). reflexivity.
    + destruct Hcall as (_ & -> & _). reflexivity.
Qed.

Lemma run_nodes ops g :
  well_formed g →
  nodes (run_calls call g ops)
  = nodes g ++ filter (λ y, y ∉ nodes g) (first_occurrences (added ops)).
Proof.
  revert g. induction ops as [|op ops IH]; intros g Hg; simpl.
  - now rewrite app_nil_r.
  - pose proof (Hcall g op) as Hop.
    destruct op as [x|a b|a b w]; simpl.
    + rewrite Hop. rewrite IH by now apply well_formed_addNode.
      unfold addNode. destruct (hasNode g x) eqn:Hx; simpl.
      * apply hasNode_nodes in Hx; [|done].
        rewrite filter_cons_False by (intros Hn; now apply Hn).
        rewrite list_filter_filter. f_equal. apply list_filter_iff.
        intros y. split; [|intros [Hy _]; exact Hy].
        intros Hy. split; [done|]. intros ->. done.
      * assert (x ∉ nodes g).
        { rewrite <- hasNode_nodes by done. now rewrite Hx. }
        rewrite filter_cons_True by done.
        rewrite <- app_assoc. simpl. do 2 f_equal.
        rewrite list_filter_filter. apply list_filter_iff.
        intros y. rewrite elem_of_app, list_elem_of_singleton.
        unfold not. tauto.
    + destruct Hop as (Hn & _ & Hwf). rewrite IH by auto. now rewrite Hn.
    + destruct Hop as (Hn & _ & Hwf). rewrite IH by auto. now rewrite Hn.
Qed.

Lemma run_new_nodes ops :
  nodes (run_calls call new_graph ops) = first_occurrences (added ops).
Proof.
  rewrite run_nodes by apply well_formed_new. simpl.
  induction (first_occurrences (added ops)) as [|y l IH]; [done|].
  rewrite filter_cons_True by apply not_elem_of_nil. now f_equal.
Qed.
End Calls.

Lemma Directed_build_run ops :
  Directed.build ops = run_calls Directed.call new_graph ops.
Proof. reflexivity. Qed.

Lemma Unidirected_build_run ops :
  Unidirected.build ops = run_calls Unidirected.call new_graph ops.
Proof. reflexivity. Qed.

Lemma Directed_build_well_formed ops : well_formed (Directed.build ops).
Proof.
  rewrite Directed_build_run.
  apply (run_well_formed _ Directed_edge_method), well_formed_new.
Qed.

Lemma Unidirected_build_well_formed ops : well_formed (Unidirected.build ops).
Proof.
  rewrite Unidirected_build_run.
  apply (run_well_formed _ Unidirected_edge_method), well_formed_new.
Qed.

Lemma hasNode_new x : hasNode (new_graph (T:=T)) x = false.
Proof. apply hasNode_false. apply lookup_empty. Qed.

(** C7. After any sequence of calls on a new directed or undirected graph,
    [hasNode(x)] is true exactly when [x] has been passed to [addNode];
    [addNode] of a node that is present returns the graph as it is; and
    [getNodes()] lists the added nodes once each, in the order of their
    first insertion. *)
Theorem hasNode_exactly_added ops x :
  (hasNode (Directed.build ops) x = true ↔ x ∈ added ops)
  ∧ (hasNode (Unidirected.build ops) x = true ↔ x ∈ added ops)
  ∧ (∀ g, hasNode g x = true → addNode g x = g)
  ∧ getNodes (Directed.build ops) = first_occurrences (added ops)
  ∧ getNodes (Unidirected.build ops) = first_occurrences (added ops)
  ∧ NoDup (first_occurrences (added ops))
  ∧ (x ∈ first_occurrences (added ops) ↔ x ∈ added ops).
Proof.
  assert (Hd : hasNode (Directed.build ops) x = true ↔ x ∈ added ops).
  { rewrite Directed_build_run, (run_hasNode _ Directed_edge_method).
    rewrite hasNode_new. intuition congruence. }
  split; [exact Hd|]. split; [|split; [|split; [|split; [|split]]]].
  - rewrite Unidirected_build_run, (run_hasNode _ Unidirected_edge_method).
    rewrite hasNode_new. intuition congruence.
  - intros g. apply addNode_present.
  - apply (run_new_nodes _ Directed_edge_method).
  - apply (run_new_nodes _ Unidirected_edge_method).
  - rewrite <- (run_new_nodes _ Directed_edge_method ops).
    rewrite <- Directed_build_run.
    apply wf_NoDup, Directed_build_well_formed.
  - rewrite <- (run_new_nodes _ Directed_edge_method ops).
    rewrite <- Directed_build_run.
    rewrite <- hasNode_nodes by apply Directed_build_well_formed.
    exact Hd.
Qed.

End Construction.

(** * Edge insertion *)

Section EdgeInsertion.
Context {T : Type} {EqT : EqDecision T} {CntT : Countable T}
        {DSV : DataShapeWithValue T}.
Implicit Types (g : Graph T) (x a b : T).

Lemma push_edge_appends_one g a e :
  hasNode g a = true → appends_one g (push_edge g a e) a e.
Proof.
  intros [la Hla]%hasNode_true. repeat split.
  - exists la. split; [done|]. now apply push_edge_lookup.
  - intros c Hc. now apply push_edge_lookup_ne.
Qed.

Lemma push_edge_appends_both g a b ea eb :
  hasNode g a = true → hasNode g b = true →
  appends_both g (push_edge (push_edge g a ea) b eb) a b ea eb.
Proof.
  intros [la Hla]%hasNode_true [lb Hlb]%hasNode_true.
  split; [done|]. split; [done|]. split; [|split].
  - intros c Hca Hcb. unfold getNeighbors.
    now rewrite !push_edge_lookup_ne.
  - intros Hab. exists la, lb. split; [done|]. split; [done|].
    unfold getNeighbors. split.
    + rewrite push_edge_lookup_ne by done. now apply push_edge_lookup.
    + apply push_edge_lookup. now rewrite push_edge_lookup_ne.
  - intros <-. exists la. split; [done|]. unfold getNeighbors.
    rewrite (push_edge_lookup _ a eb (la ++ [ea])).
    + now rewrite <- app_assoc.
    + now apply push_edge_lookup.
Qed.

(** C6. With both endpoints present, [addEdge] and [addWeightedEdge] of a
    directed graph append one edge record to the list of [a] and change
    nothing else; those of an undirected graph append one record to the
    list of [a] and one, of the same weight, to the list of [b], and
    change nothing else.  With an endpoint absent the graph is returned
    as it is and one error message is written. *)
Theorem edge_insertion_frame g a b (w : Z) :
  (hasNode g a = true → hasNode g b = true →
     appends_one g (Directed.addEdge g a b).1 a (mkGraphEdge b None)
     ∧ appends_one g (Directed.addWeightedEdge g a b w).1 a
                   (mkGraphEdge b (Some w))
     ∧ appends_both g (Unidirected.addEdge g a b).1 a b
                    (mkGraphEdge b None) (mkGraphEdge a None)
     ∧ appends_both g (Unidirected.addWeightedEdge g a b w).1 a b
                    (mkGraphEdge b (Some w)) (mkGraphEdge a (Some w)))
  ∧ (hasNode g a = false ∨ hasNode g b = false →
     Directed.addEdge g a b
     = (g, [ConsoleError ("Cannot add directed edge: Source ("
                          +:+ toString (value a) +:+ ") or target ("
                          +:+ toString (value b) +:+ ") node not found.")])
     ∧ Directed.addWeightedEdge g a b w
       = (g, [ConsoleError ("Cannot add directed weighted edge: Source ("
                            +:+ toString (value a) +:+ ") or target ("
                            +:+ toString (value b) +:+ ") node not found.")])
     ∧ Unidirected.addEdge g a b
       = (g, [ConsoleError ("Cannot add unidirected edge: Node with data "
                            +:+ toString (value a) +:+ " or "
                            +:+ toString (value b) +:+ " not found.")])
     ∧ Unidirected.addWeightedEdge g a b w
       = (g, [ConsoleError
                ("Cannot add unidirected weighted edge: Node with data "
                 +:+ toString (value a) +:+ " or "
                 +:+ toString (value b) +:+ " not found.")])).
Proof.
  split.
  - intros Ha Hb.
    unfold Directed.addEdge, Directed.addWeightedEdge, Unidirected.addEdge,
      Unidirected.addWeightedEdge.
    rewrite Ha, Hb. simpl.
    auto using push_edge_appends_one, push_edge_appends_both.
  - intros Hab.
    unfold Directed.addEdge, Directed.addWeightedEdge, Unidirected.addEdge,
      Unidirected.addWeightedEdge.
    assert (negb (hasNode g a) || negb (hasNode g b) = true) as ->.
    { destruct Hab as [-> | ->]; [done|]. apply orb_true_r. }
    done.
Qed.

End EdgeInsertion.

(** * A start node that is not in the graph *)

Section StartNotFound.
Context {T : Type} {EqT : EqDecision T} {CntT : Countable T}
        {DSV : DataShapeWithValue T}.

(** C5. When the start node is not in the graph, [dijkstra] returns two
    empty maps, the traces of [bfs] and [dfs] hold no call of the visitor,
    and each of the three writes its own "not found" message and nothing
    else.  None of the three has the graph among its results: they only
    read it. *)
Theorem start_not_found (fuel : nat) (g : Graph T) (start : T) :
  hasNode g start = false →
  dijkstra fuel g start
  = Some (empty_result,
          [ConsoleError ("Dijkstra failed: Start node with data "
                         +:+ toString (value start) +:+ " not found.")])
  ∧ bfs fuel g start
    = Some [ConsoleError ("BFS failed: Start node with data "
                          +:+ toString (value start) +:+ " not found.")]
  ∧ dfs fuel g start
    = Some [ConsoleError ("DFS failed: Start node with data "
                          +:+ toString (value start) +:+ " not found.")]
  ∧ distances (T:=T) empty_result = ∅
  ∧ predecessors (T:=T) empty_result = ∅.
Proof.
  intros Hs. unfold dijkstra, bfs, dfs. rewrite Hs. simpl. done.
Qed.

End StartNotFound.

(** * Facts on lists and sets *)

Section ListFacts.
Context {A B : Type}.

Lemma NoDup_fmap_eq (f : A → B) (l : list A) (x y : A) :
  NoDup (f <$> l) → x ∈ l → y ∈ l → f x = f y → x = y.
Proof.
  induction l as [|a l IH]; simpl; intros Hnd Hx Hy Hf.
  - now apply elem_of_nil in Hx.
  - apply NoDup_cons in Hnd as [Ha Hnd].
    apply elem_of_cons in Hx as [->|Hx], Hy as [->|Hy]; auto.
    + exfalso. apply Ha. rewrite Hf. now apply list_elem_of_fmap_2.
    + exfalso. apply Ha. rewrite <- Hf. now apply list_elem_of_fmap_2.
Qed.

Lemma sum_list_with_drop (f f' : A → nat) (l : list A) (x : A) :
  (∀ y, f' y ≤ f y)%nat → x ∈ l → f' x = O →
  (sum_list_with f' l + f x ≤ sum_list_with f l)%nat.
Proof.
  intros Hle Hx Hz. induction l as [|a l IH]; simpl.
  - now apply elem_of_nil in Hx.
  - apply elem_of_cons in Hx as [<-|Hx].
    + assert (sum_list_with f' l ≤ sum_list_with f l)%nat.
      { clear IH. induction l as [|b l IH]; simpl; [lia|].
        specialize (Hle b). lia. }
      lia.
    + specialize (IH Hx). specialize (Hle a). lia.
Qed.

Lemma app_snoc_app (l : list A) (x : A) (k m : list A) :
  (l ++ [x]) ++ k ++ m = (l ++ x :: k) ++ m.
Proof. now rewrite <- !app_assoc. Qed.

End ListFacts.

Lemma size_list_to_set_le (l : list Z) :
  (size (list_to_set (C:=gset Z) l) ≤ length l)%nat.
Proof.
  induction l as [|a l IH].
  - rewrite list_to_set_nil, size_empty. done.
  - rewrite list_to_set_cons. simpl length.
    destruct (decide (a ∈ (list_to_set l : gset Z))) as [Hin|Hnin].
    + replace ({[a]} ∪ list_to_set l) with (list_to_set (C:=gset Z) l)
        by set_solver.
      lia.
    + rewrite size_union by set_solver. rewrite size_singleton. lia.
Qed.

Lemma size_difference_add (U visited : gset Z) (v : Z) :
  v ∈ U → v ∉ visited →
  S (size (U ∖ ({[v]} ∪ visited))) = size (U ∖ visited).
Proof.
  intros HU Hv.
  replace (U ∖ visited) with ({[v]} ∪ U ∖ ({[v]} ∪ visited)).
  - rewrite (size_union (C:=gset Z) {[v]} (U ∖ ({[v]} ∪ visited)))
      by set_solver.
    now rewrite size_singleton.
  - apply set_eq. intros z. rewrite elem_of_union, !elem_of_difference,
      elem_of_union, elem_of_singleton.
    destruct (decide (z = v)) as [->|]; intuition.
Qed.

(** * Breadth-first search *)

Section BFS.
Context {T : Type} {EqT : EqDecision T} {CntT : Countable T}
        {DSV : DataShapeWithValue T}.
Variable g : Graph T.
Implicit Types (x y cur : T) (visited : gset Z) (queue prior : list T).

Lemma bfs_loop_mono n m visited queue tr :
  bfs_loop n g visited queue = Some tr → (n ≤ m)%nat →
  bfs_loop m g visited queue = Some tr.
Proof.
  revert m visited queue tr.
  induction n as [|n IH]; intros m visited queue tr Hn Hle; [done|].
  destruct m as [|m]; [lia|]. simpl in *.
  destruct queue as [|cur queue1]; [done|].
  destruct (bfs_body g visited cur queue1) as [visited' queue'].
  destruct (bfs_loop n g visited' queue') as [tr'|] eqn:Hrec; [|done].
  rewrite (IH m _ _ tr') by (done || lia). done.
Qed.

(** What the inner loop does: it appends the targets that are met for the
    first time, in the order of the neighbor list. *)
Lemma bfs_enqueue_spec neighbors visited queue :
  ∃ new,
    bfs_enqueue visited queue neighbors
    = (visited ∪ list_to_set (value <$> new), queue ++ new)
    ∧ NoDup (value <$> new)
    ∧ (∀ x, x ∈ new →
         (value x ∉ visited) ∧ (∃ e, e ∈ neighbors ∧ target e = x))
    ∧ (∀ e, e ∈ neighbors →
         value (target e) ∈ visited ∪ list_to_set (value <$> new)).
Proof.
  revert visited queue.
  induction neighbors as [|e rest IH]; intros visited queue; simpl.
  - exists []. simpl. rewrite app_nil_r.
    split; [f_equal; set_solver|]. split; [constructor|].
    split; intros ? Hin; now apply elem_of_nil in Hin.
  - destruct (decide (value (target e) ∈ visited)) as [Hv|Hv].
    + destruct (IH visited queue) as (new & Heq & Hnd & Hnew & Hall).
      exists new. split; [done|]. split; [done|]. split.
      * intros x Hx. destruct (Hnew x Hx) as (? & e' & ? & ?).
        split; [done|]. exists e'. split; [now right|done].
      * intros e' [->|He']%elem_of_cons; [set_solver|auto].
    + destruct (IH ({[value (target e)]} ∪ visited) (queue ++ [target e]))
        as (new & Heq & Hnd & Hnew & Hall).
      exists (target e :: new). rewrite Heq. simpl. split.
      { rewrite <- app_assoc. simpl. f_equal. set_solver. }
      split.
      { constructor; [|done]. intros Hin.
        apply list_elem_of_fmap in Hin as (x & Hx & Hin).
        destruct (Hnew x Hin) as [Hnot _]. rewrite <- Hx in Hnot.
        set_solver. }
      split.
      * intros x [->|Hx]%elem_of_cons.
        { split; [done|]. exists e. split; [now left|done]. }
        destruct (Hnew x Hx) as (Hnot & e' & ? & ?).
        split; [set_solver|]. exists e'. split; [now right|done].
      * intros e' [->|He']%elem_of_cons; [set_solver|].
        specialize (Hall e' He'). set_solver.
Qed.

(** Every node value is put on the queue at most once: the nodes that are
    dequeued, which are the nodes that were enqueued, carry pairwise
    different values. *)
Lemma bfs_loop_values fuel visited queue tr :
  NoDup (value <$> queue) → (∀ x, x ∈ queue → value x ∈ visited) →
  bfs_loop fuel g visited queue = Some tr →
  ∃ vs, tr = Visit <$> vs ∧ NoDup (value <$> vs)
        ∧ ∀ x, x ∈ vs → x ∈ queue ∨ value x ∉ visited.
Proof.
  revert visited queue tr.
  induction fuel as [|fuel IH]; intros visited queue tr Hnd Hvis Hrun;
    [done|].
  simpl in Hrun. destruct queue as [|cur queue1].
  { injection Hrun as <-. exists []. split; [done|]. split; [constructor|].
    intros ? Hin. now apply elem_of_nil in Hin. }
  assert (∃ new, bfs_body g visited cur queue1
                 = (visited ∪ list_to_set (value <$> new), queue1 ++ new)
                 ∧ NoDup (value <$> new)
                 ∧ ∀ x, x ∈ new → value x ∉ visited)
    as (new & Hbody & Hndnew & Hnew).
  { unfold bfs_body. destruct (getNeighbors g cur) as [es|].
    - destruct (bfs_enqueue_spec es visited queue1)
        as (new & ? & ? & Hnew & _).
      exists new. split; [done|]. split; [done|].
      intros x Hx. now destruct (Hnew x Hx).
    - exists []. simpl. rewrite app_nil_r.
      split; [f_equal; set_solver|]. split; [constructor|].
      intros ? Hin. now apply elem_of_nil in Hin. }
  rewrite Hbody in Hrun.
  destruct (bfs_loop fuel g _ _) as [tr'|] eqn:Hrec; [|done].
  injection Hrun as <-.
  simpl in Hnd. apply NoDup_cons in Hnd as [Hcur Hnd1].
  apply IH in Hrec as (vs & -> & Hndvs & Hvs).
  - exists (cur :: vs). split; [done|]. split.
    + simpl. constructor; [|done]. intros Hin.
      apply list_elem_of_fmap in Hin as (x & Hx & Hin).
      assert (value cur ∈ visited) by (apply Hvis; now left).
      destruct (Hvs x Hin) as [[Hq|Hn]%elem_of_app|Hn].
      * apply Hcur. rewrite Hx. now apply list_elem_of_fmap_2.
      * apply (Hnew x Hn). now rewrite <- Hx.
      * apply Hn. rewrite <- Hx. set_solver.
    + intros x [->|Hx]%elem_of_cons; [left; now left|].
      destruct (Hvs x Hx) as [[Hq|Hn]%elem_of_app|Hn].
      * left. now right.
      * right. now apply Hnew.
      * right. set_solver.
  - rewrite fmap_app. apply NoDup_app. split; [done|]. split; [|done].
    intros v Hv1 Hv2.
    apply list_elem_of_fmap in Hv1 as (x & -> & Hx).
    apply list_elem_of_fmap in Hv2 as (y & Hy & Hyn).
    apply (Hnew y Hyn). rewrite <- Hy. apply Hvis. now right.
  - intros x [Hq|Hn]%elem_of_app.
    + apply elem_of_union_l, Hvis. now right.
    + apply elem_of_union_r, elem_of_list_to_set.
      now apply list_elem_of_fmap_2.
Qed.

(** *** Termination *)

Hypothesis Hwf : well_formed g.

Lemma neighbor_value_in_U cur es e :
  getNeighbors g cur = Some es → e ∈ es → value (target e) ∈ node_values g.
Proof.
  intros Hes He. apply elem_of_list_to_set, list_elem_of_fmap_2.
  eapply wf_target; eauto.
Qed.

Lemma bfs_enqueue_measure neighbors visited queue :
  (∀ e, e ∈ neighbors → value (target e) ∈ node_values g) →
  (length (bfs_enqueue visited queue neighbors).2
   + size (node_values g ∖ (bfs_enqueue visited queue neighbors).1)
   = length queue + size (node_values g ∖ visited))%nat.
Proof.
  revert visited queue.
  induction neighbors as [|e rest IH]; intros visited queue HU; simpl;
    [done|].
  assert (HUrest : ∀ e', e' ∈ rest → value (target e') ∈ node_values g).
  { intros e' He'. apply HU. now right. }
  destruct (decide (value (target e) ∈ visited)) as [Hv|Hv]; [auto|].
  rewrite IH by done. rewrite length_app. simpl.
  rewrite <- (size_difference_add (node_values g) visited (value (target e))); [lia| |done].
  apply HU. now left.
Qed.

Lemma bfs_loop_terminates fuel visited queue :
  (length queue + size (node_values g ∖ visited) < fuel)%nat →
  is_Some (bfs_loop fuel g visited queue).
Proof.
  revert visited queue.
  induction fuel as [|fuel IH]; intros visited queue Hlt; [lia|].
  simpl. destruct queue as [|cur queue1]; [by eexists|].
  destruct (bfs_body g visited cur queue1) as [visited' queue'] eqn:Hbody.
  assert (length queue' + size (node_values g ∖ visited')
          = length queue1 + size (node_values g ∖ visited))%nat as Hm.
  { unfold bfs_body in Hbody. destruct (getNeighbors g cur) as [es|] eqn:Hes.
    - pose proof (bfs_enqueue_measure es visited queue1) as Hm.
      rewrite Hbody in Hm. apply Hm. intros e.
      now apply (neighbor_value_in_U cur).
    - now injection Hbody as <- <-. }
  destruct (IH visited' queue') as [tr Htr]; [simpl in Hlt; lia|].
  rewrite Htr. by eexists.
Qed.

Lemma bfs_terminates fuel start :
  (length (nodes g) < fuel)%nat → is_Some (bfs fuel g start).
Proof.
  intros Hlt. unfold bfs. destruct (hasNode g start) eqn:Hs; simpl;
    [|by eexists].
  apply bfs_loop_terminates. simpl.
  assert (value start ∈ node_values g).
  { apply elem_of_list_to_set, list_elem_of_fmap_2.
    now apply hasNode_nodes. }
  pose proof (size_difference_add (node_values g) ∅ (value start)) as Hsz.
  rewrite union_empty_r_L, difference_empty_L in Hsz.
  pose proof (size_list_to_set_le (value <$> nodes g)) as Hle.
  rewrite length_fmap in Hle. fold (node_values g) in Hle.
  rewrite <- Hsz in Hle by set_solver. lia.
Qed.

(** *** The visited nodes are the component of the start node *)

Hypothesis Huniq : unique_values g.
Variable start : T.


Lemma bfs_inv_init :
  hasNode g start = true → bfs_inv g start [] {[value start]} [start].
Proof.
  intros Hs%hasNode_nodes; [|done]. split; simpl.
  - apply NoDup_singleton.
  - intros x ->%list_elem_of_singleton. split; [done|]. apply rtc_refl.
  - intros x Hx. rewrite elem_of_singleton, list_elem_of_singleton.
    split; [|now intros ->]. intros Hv.
    now apply (NoDup_fmap_eq value (nodes g)).
  - intros x y Hx. now apply elem_of_nil in Hx.
  - now apply list_elem_of_singleton.
Qed.

Lemma bfs_inv_step prior visited cur queue1 visited' queue' :
  bfs_inv g start prior visited (cur :: queue1) →
  bfs_body g visited cur queue1 = (visited', queue') →
  bfs_inv g start (prior ++ [cur]) visited' queue'.
Proof.
  intros [Hnd Hreach Hvis Hclosed Hstart] Hbody.
  assert (Hcur : cur ∈ nodes g ∧ reachable g start cur).
  { apply Hreach, elem_of_app. right. now left. }
  assert (∃ new, visited' = visited ∪ list_to_set (value <$> new)
                 ∧ queue' = queue1 ++ new
                 ∧ NoDup (value <$> new)
                 ∧ (∀ x, x ∈ new → (value x ∉ visited) ∧ edge_of g cur x)
                 ∧ (∀ y, edge_of g cur y → value y ∈ visited'))
    as (new & -> & -> & Hndnew & Hnew & Hall).
  { unfold bfs_body in Hbody.
    destruct (getNeighbors g cur) as [es|] eqn:Hes.
    - destruct (bfs_enqueue_spec es visited queue1)
        as (new & Heq & ? & Hnew & Hall).
      rewrite Hbody in Heq. injection Heq as -> ->.
      exists new. repeat split; try done.
      + now apply Hnew.
      + destruct (Hnew x) as (_ & e & ? & ?); [done|]. now exists es, e.
      + intros y (es' & e & Hes' & He & <-).
        rewrite Hes in Hes'. injection Hes' as <-. now apply Hall.
    - injection Hbody as <- <-. exists []. simpl. rewrite app_nil_r.
      repeat split; try done.
      + set_solver.
      + constructor.
      + now apply elem_of_nil in H.
      + now apply elem_of_nil in H.
      + intros y (es' & e & Hes' & _). rewrite Hes in Hes'. done. }
  assert (Hnewnodes : ∀ x, x ∈ new → x ∈ nodes g).
  { intros x Hx. destruct (Hnew x Hx) as (_ & es & e & Hes & He & <-).
    eapply wf_target; eauto. }
  assert (Hvis' : ∀ x, x ∈ nodes g →
            value x ∈ visited ∪ list_to_set (value <$> new)
            ↔ x ∈ (prior ++ [cur]) ++ queue1 ++ new).
  { intros x Hx. rewrite elem_of_union, elem_of_list_to_set, (Hvis x Hx).
    rewrite app_snoc_app, (elem_of_app _ new). split.
    - intros [?|Hin]; [now left|]. right.
      apply list_elem_of_fmap in Hin as (y & Hxy & Hy).
      now rewrite (NoDup_fmap_eq value (nodes g) x y) by auto.
    - intros [?|Hin]; [now left|]. right. now apply list_elem_of_fmap_2. }
  split.
  - rewrite app_snoc_app.
    apply NoDup_app. split; [done|]. split.
    + intros x Hx Hxn. destruct (Hnew x Hxn) as [Hnot _]. apply Hnot.
      apply Hvis; [now apply Hnewnodes|done].
    + eapply NoDup_fmap_1; eauto.
  - intros x. rewrite app_snoc_app.
    intros [Hx|Hx]%elem_of_app; [now apply Hreach|].
    split; [now apply Hnewnodes|].
    eapply rtc_r; [apply Hcur|]. now apply Hnew.
  - exact Hvis'.
  - intros x y [Hx| ->%list_elem_of_singleton]%elem_of_app Hedge.
    + specialize (Hclosed x y Hx Hedge).
      rewrite app_snoc_app. apply elem_of_app. now left.
    + apply Hvis'; [|now apply Hall].
      destruct Hedge as (es & e & Hes & He & <-). eapply wf_target; eauto.
  - rewrite app_snoc_app. apply elem_of_app. now left.
Qed.

Lemma closed_reachable (prior : list T) :
  start ∈ prior → (∀ x y, x ∈ prior → edge_of g x y → y ∈ prior) →
  ∀ x, reachable g start x → x ∈ prior.
Proof.
  intros Hs Hclosed. apply rtc_ind_r; [done|].
  intros y z _ Hyz Hy. eauto.
Qed.

Lemma bfs_loop_component fuel prior visited queue tr :
  bfs_inv g start prior visited queue →
  bfs_loop fuel g visited queue = Some tr →
  ∃ vs, tr = Visit <$> vs ∧ NoDup (prior ++ vs)
        ∧ ∀ x, x ∈ prior ++ vs ↔ reachable g start x.
Proof.
  revert prior visited queue tr.
  induction fuel as [|fuel IH]; intros prior visited queue tr Hinv Hrun;
    [done|].
  simpl in Hrun. destruct queue as [|cur queue1].
  - injection Hrun as <-. exists []. destruct Hinv as [Hnd Hr _ Hc Hs].
    rewrite app_nil_r in *. split; [done|]. split; [done|].
    intros x. split; [apply Hr|]. now apply closed_reachable.
  - destruct (bfs_body g visited cur queue1) as [visited' queue'] eqn:Hbody.
    destruct (bfs_loop fuel g visited' queue') as [tr'|] eqn:Hrec; [|done].
    injection Hrun as <-.
    eapply IH in Hrec as (vs & -> & Hnd & Hall);
      [|eapply bfs_inv_step; eauto].
    exists (cur :: vs). rewrite <- app_assoc in Hnd, Hall. done.
Qed.

Lemma bfs_component fuel tr :
  hasNode g start = true → bfs fuel g start = Some tr →
  visits_component g start tr.
Proof.
  intros Hs Hrun. unfold bfs in Hrun. rewrite Hs in Hrun. simpl in Hrun.
  eapply bfs_loop_component in Hrun; [|now apply bfs_inv_init].
  exact Hrun.
Qed.

End BFS.

(** * Depth-first search *)

Section DFS.
Context {T : Type} {EqT : EqDecision T} {CntT : Countable T}
        {DSV : DataShapeWithValue T}.
Variable g : Graph T.
Implicit Types (x y cur : T) (visited : gset Z) (stack prior : list T).

Lemma dfs_loop_mono n m visited stack tr :
  dfs_loop n g visited stack = Some tr → (n ≤ m)%nat →
  dfs_loop m g visited stack = Some tr.
Proof.
  revert m visited stack tr.
  induction n as [|n IH]; intros m visited stack tr Hn Hle; [done|].
  destruct m as [|m]; [lia|]. simpl in *.
  destruct stack as [|cur stack1]; [done|].
  destruct (dfs_body g visited cur stack1) as [[visited' stack'] calls].
  destruct (dfs_loop n g visited' stack') as [tr'|] eqn:Hrec; [|done].
  rewrite (IH m _ _ tr') by (done || lia). done.
Qed.

(** The inner loop pushes the targets whose value is not in [visited],
    the last one on top. *)
Lemma dfs_push_spec neighbors visited stack :
  dfs_push visited stack neighbors
  = reverse (filter (λ n, value n ∉ visited) (target <$> neighbors))
    ++ stack.
Proof.
  revert stack. induction neighbors as [|e rest IH]; intros stack; [done|].
  rewrite fmap_cons. simpl.
  destruct (decide (value (target e) ∈ visited)) as [Hv|Hv].
  - rewrite filter_cons_False by (intros Hn; now apply Hn). apply IH.
  - rewrite filter_cons_True by done. rewrite IH, reverse_cons.
    now rewrite <- app_assoc.
Qed.

Lemma dfs_push_length neighbors visited stack :
  (length (dfs_push visited stack neighbors)
   ≤ length stack + length neighbors)%nat.
Proof.
  rewrite dfs_push_spec, length_app, length_reverse.
  pose proof (length_filter (λ n, value n ∉ visited) (target <$> neighbors))
    as Hle.
  rewrite length_fmap in Hle. lia.
Qed.

Lemma dfs_body_visited visited cur stack1 :
  value cur ∈ visited → dfs_body g visited cur stack1 = (visited, stack1, []).
Proof. intros Hv. unfold dfs_body. now rewrite decide_True. Qed.

Lemma dfs_body_unvisited visited cur stack1 es :
  value cur ∉ visited → getNeighbors g cur = Some es →
  dfs_body g visited cur stack1
  = ({[value cur]} ∪ visited,
     reverse (filter (λ n, value n ∉ {[value cur]} ∪ visited)
                     (target <$> es)) ++ stack1,
     [Visit cur]).
Proof.
  intros Hv Hes. unfold dfs_body. rewrite decide_False by done.
  now rewrite Hes, dfs_push_spec.
Qed.

(** *** Termination *)

Hypothesis Hwf : well_formed g.

Lemma dfs_weight_drop visited cur :
  cur ∈ nodes g → value cur ∉ visited →
  (dfs_weight g ({[value cur]} ∪ visited)
   + length (default [] (getNeighbors g cur))
   ≤ dfs_weight g visited)%nat.
Proof.
  intros Hcur Hv. unfold dfs_weight.
  pose proof (sum_list_with_drop
    (λ x, if decide (value x ∈ visited) then O
          else length (default [] (getNeighbors g x)))
    (λ x, if decide (value x ∈ {[value cur]} ∪ visited) then O
          else length (default [] (getNeighbors g x)))
    (nodes g) cur) as Hdrop.
  simpl in Hdrop. rewrite (decide_False (P:=value cur ∈ visited)) in Hdrop
    by done.
  apply Hdrop; [|done|].
  - intros y. destruct (decide (value y ∈ {[value cur]} ∪ visited));
      [lia|]. rewrite decide_False; [lia|set_solver].
  - rewrite decide_True; [done|set_solver].
Qed.

Lemma dfs_body_measure visited cur stack1 visited' stack' calls :
  (∀ x, x ∈ cur :: stack1 → x ∈ nodes g) →
  dfs_body g visited cur stack1 = (visited', stack', calls) →
  (∀ x, x ∈ stack' → x ∈ nodes g)
  ∧ (length stack' + dfs_weight g visited'
     ≤ length stack1 + dfs_weight g visited)%nat.
Proof.
  intros Hnodes Hbody.
  assert (Hcur : cur ∈ nodes g) by (apply Hnodes; now left).
  assert (Hst : ∀ x, x ∈ stack1 → x ∈ nodes g)
    by (intros x Hx; apply Hnodes; now right).
  unfold dfs_body in Hbody.
  destruct (decide (value cur ∈ visited)) as [Hv|Hv].
  { injection Hbody as <- <- <-. split; [done|lia]. }
  pose proof (dfs_weight_drop visited cur Hcur Hv) as Hdrop.
  destruct (getNeighbors g cur) as [es|] eqn:Hes;
    injection Hbody as <- <- <-; simpl in Hdrop.
  - split.
    + intros x. rewrite dfs_push_spec, elem_of_app, elem_of_reverse,
        list_elem_of_filter, list_elem_of_fmap.
      intros [(_ & e & -> & He)|Hx]; [|auto]. eapply wf_target; eauto.
    + pose proof (dfs_push_length es ({[value cur]} ∪ visited) stack1). lia.
  - split; [done|lia].
Qed.

Lemma dfs_loop_terminates fuel visited stack :
  (∀ x, x ∈ stack → x ∈ nodes g) →
  (length stack + dfs_weight g visited < fuel)%nat →
  is_Some (dfs_loop fuel g visited stack).
Proof.
  revert visited stack.
  induction fuel as [|fuel IH]; intros visited stack Hnodes Hlt; [lia|].
  simpl. destruct stack as [|cur stack1]; [by eexists|].
  destruct (dfs_body g visited cur stack1) as [[visited' stack'] calls]
    eqn:Hbody.
  destruct (dfs_body_measure _ _ _ _ _ _ Hnodes Hbody) as [Hn Hm].
  destruct (IH visited' stack') as [tr Htr]; [done|simpl in Hlt; lia|].
  rewrite Htr. by eexists.
Qed.

Lemma dfs_weight_empty : dfs_weight g ∅ = edge_count g.
Proof.
  unfold dfs_weight, edge_count. induction (nodes g) as [|x l IH]; [done|].
  simpl. rewrite IH. now rewrite decide_False by set_solver.
Qed.

Lemma dfs_terminates fuel start :
  (S (edge_count g) < fuel)%nat → is_Some (dfs fuel g start).
Proof.
  intros Hlt. unfold dfs. destruct (hasNode g start) eqn:Hs; simpl;
    [|by eexists].
  apply dfs_loop_terminates.
  - intros x ->%list_elem_of_singleton. now apply hasNode_nodes.
  - rewrite dfs_weight_empty. simpl. lia.
Qed.

(** *** The visited nodes are the component of the start node *)

Hypothesis Huniq : unique_values g.
Variable start : T.


Lemma dfs_inv_init : hasNode g start = true → dfs_inv g start [] ∅ [start].
Proof.
  intros Hs%hasNode_nodes; [|done]. split; simpl.
  - constructor.
  - intros x ->%list_elem_of_singleton. split; [done|]. apply rtc_refl.
  - intros x Hx. rewrite elem_of_nil. set_solver.
  - intros x y Hx. now apply elem_of_nil in Hx.
  - now apply list_elem_of_singleton.
Qed.

Lemma dfs_inv_step prior visited cur stack1 visited' stack' calls :
  dfs_inv g start prior visited (cur :: stack1) →
  dfs_body g visited cur stack1 = (visited', stack', calls) →
  ∃ vs, calls = Visit <$> vs ∧ dfs_inv g start (prior ++ vs) visited' stack'.
Proof.
  intros [Hnd Hreach Hvis Hclosed Hstart] Hbody.
  assert (Hcur : cur ∈ nodes g ∧ reachable g start cur).
  { apply Hreach, elem_of_app. right. now left. }
  destruct Hcur as [Hcur Hrcur].
  destruct (decide (value cur ∈ visited)) as [Hv|Hv].
  - rewrite dfs_body_visited in Hbody by done. injection Hbody as <- <- <-.
    exists []. rewrite app_nil_r. split; [done|].
    assert (Hin : cur ∈ prior) by now apply Hvis.
    assert (Hsub : ∀ y, y ∈ prior ++ cur :: stack1 → y ∈ prior ++ stack1).
    { intros y. rewrite !elem_of_app, elem_of_cons.
      intros [?|[->|?]]; auto. }
    split; [done| |done|eauto|auto].
    intros x Hx. apply Hreach. revert Hx. rewrite !elem_of_app, elem_of_cons.
    tauto.
  - assert (Hnotin : cur ∉ prior).
    { intros Hin. now apply Hv, Hvis. }
    assert (∃ pushed, visited' = {[value cur]} ∪ visited
              ∧ stack' = pushed ++ stack1 ∧ calls = [Visit cur]
              ∧ (∀ y, y ∈ pushed → edge_of g cur y)
              ∧ (∀ y, edge_of g cur y →
                   value y ∈ {[value cur]} ∪ visited ∨ y ∈ pushed))
      as (pushed & -> & -> & -> & Hpushed & Hall).
    { destruct (getNeighbors g cur) as [es|] eqn:Hes.
      - rewrite (dfs_body_unvisited _ _ _ es) in Hbody by done.
        injection Hbody as <- <- <-. eexists. do 3 (split; [done|]). split.
        + intros y. rewrite elem_of_reverse, list_elem_of_filter,
            list_elem_of_fmap.
          intros (_ & e & -> & He). now exists es, e.
        + intros y (es' & e & Hes' & He & <-).
          rewrite Hes in Hes'. injection Hes' as <-.
          destruct (decide (value (target e) ∈ {[value cur]} ∪ visited));
            [now left|right].
          rewrite elem_of_reverse, list_elem_of_filter. split; [done|].
          now apply list_elem_of_fmap_2.
      - unfold dfs_body in Hbody. rewrite decide_False, Hes in Hbody by done.
        injection Hbody as <- <- <-. exists []. do 3 (split; [done|]).
        split.
        + intros y Hy. now apply elem_of_nil in Hy.
        + intros y (es' & e & Hes' & _). rewrite Hes in Hes'. done. }
    exists [cur]. split; [done|].
    assert (Hvis' : ∀ x, x ∈ nodes g →
              value x ∈ {[value cur]} ∪ visited ↔ x ∈ prior ++ [cur]).
    { intros x Hx. rewrite elem_of_union, elem_of_singleton, (Hvis x Hx),
        elem_of_app, list_elem_of_singleton.
      split.
      - intros [Hval|?]; [right|now left].
        now apply (NoDup_fmap_eq value (nodes g)).
      - intros [?| ->]; [now right|now left]. }
    assert (Htarget : ∀ y, edge_of g cur y → y ∈ nodes g).
    { intros y (es & e & Hes & He & <-). eapply wf_target; eauto. }
    split.
    + apply NoDup_app. split; [done|]. split; [|apply NoDup_singleton].
      now intros x Hx ->%list_elem_of_singleton.
    + intros x. rewrite <- app_assoc. simpl.
      rewrite elem_of_app, elem_of_cons, elem_of_app.
      intros [Hx|[->|[Hx|Hx]]].
      * apply Hreach, elem_of_app. now left.
      * done.
      * split; [now apply Htarget, Hpushed|].
        eapply rtc_r; [exact Hrcur|]. now apply Hpushed.
      * apply Hreach, elem_of_app. right. now right.
    + exact Hvis'.
    + intros x y [Hx| ->%list_elem_of_singleton]%elem_of_app Hedge.
      * specialize (Hclosed x y Hx Hedge). revert Hclosed.
        rewrite <- app_assoc. simpl.
        rewrite !elem_of_app, !elem_of_cons, elem_of_app. tauto.
      * destruct (Hall y Hedge) as [Hy|Hy].
        -- apply elem_of_app. left. apply Hvis'; [now apply Htarget|done].
        -- apply elem_of_app. right. apply elem_of_app. now left.
    + revert Hstart. rewrite <- app_assoc. simpl.
      rewrite !elem_of_app, !elem_of_cons, elem_of_app. tauto.
Qed.

Lemma closed_reachable' (prior : list T) :
  start ∈ prior → (∀ x y, x ∈ prior → edge_of g x y → y ∈ prior) →
  ∀ x, reachable g start x → x ∈ prior.
Proof.
  intros Hs Hclosed. apply rtc_ind_r; [done|].
  intros y z _ Hyz Hy. eauto.
Qed.

Lemma dfs_loop_component fuel prior visited stack tr :
  dfs_inv g start prior visited stack →
  dfs_loop fuel g visited stack = Some tr →
  ∃ vs, tr = Visit <$> vs ∧ NoDup (prior ++ vs)
        ∧ ∀ x, x ∈ prior ++ vs ↔ reachable g start x.
Proof.
  revert prior visited stack tr.
  induction fuel as [|fuel IH]; intros prior visited stack tr Hinv Hrun;
    [done|].
  simpl in Hrun. destruct stack as [|cur stack1].
  - injection Hrun as <-. exists []. destruct Hinv as [Hnd Hr _ Hc Hs].
    rewrite app_nil_r in *. split; [done|]. split; [done|].
    intros x. split; [apply Hr|]. now apply closed_reachable'.
  - destruct (dfs_body g visited cur stack1) as [[visited' stack'] calls]
      eqn:Hbody.
    destruct (dfs_loop fuel g visited' stack') as [tr'|] eqn:Hrec; [|done].
    injection Hrun as <-.
    destruct (dfs_inv_step _ _ _ _ _ _ _ Hinv Hbody) as (vs1 & -> & Hinv').
    destruct (IH _ _ _ _ Hinv' Hrec) as (vs & -> & Hnd & Hall).
    exists (vs1 ++ vs). rewrite fmap_app. rewrite <- app_assoc in Hnd, Hall.
    done.
Qed.

Lemma dfs_component fuel tr :
  hasNode g start = true → dfs fuel g start = Some tr →
  visits_component g start tr.
Proof.
  intros Hs Hrun. unfold dfs in Hrun. rewrite Hs in Hrun. simpl in Hrun.
  eapply dfs_loop_component in Hrun; [|now apply dfs_inv_init].
  exact Hrun.
Qed.

End DFS.

(** * Depth-first search: pushing visited targets is not observable *)

Section DFSPolicies.
Context {T : Type} {EqT : EqDecision T} {CntT : Countable T}
        {DSV : DataShapeWithValue T}.
Variable g : Graph T.
Implicit Types (visited : gset Z) (stack : list T)
               (push : gset Z → list T → list (GraphEdge T) → list T).

Lemma dfs_loop_dfs_loop_with fuel visited stack :
  dfs_loop fuel g visited stack = dfs_loop_with dfs_push fuel g visited stack.
Proof.
  revert visited stack. induction fuel as [|fuel IH]; intros visited stack;
    [done|].
  simpl. destruct stack as [|cur stack1]; [done|]. unfold dfs_body.
  destruct (decide (value cur ∈ visited)).
  - rewrite IH. now destruct (dfs_loop_with dfs_push fuel g visited stack1).
  - rewrite IH. now destruct (dfs_loop_with dfs_push fuel g _ _).
Qed.

Lemma dfs_push_pushes_unvisited : pushes_unvisited (dfs_push (T:=T)).
Proof.
  intros visited stack es.
  rewrite dfs_push_spec, filter_app, filter_reverse, list_filter_filter.
  do 2 f_equal. apply list_filter_iff. tauto.
Qed.

Lemma dfs_push_all_pushes_unvisited : pushes_unvisited (dfs_push_all (T:=T)).
Proof.
  intros visited stack es. unfold dfs_push_all.
  now rewrite filter_app, filter_reverse.
Qed.

Lemma filter_cons_split {A : Type} (P : A → Prop) `{∀ x, Decision (P x)}
    (l : list A) (x : A) (r : list A) :
  filter P l = x :: r →
  ∃ pre rest, l = pre ++ x :: rest ∧ Forall (λ y, ¬ P y) pre
              ∧ P x ∧ filter P rest = r.
Proof.
  induction l as [|a l IH]; [done|]. rewrite filter_cons.
  destruct (decide (P a)) as [Ha|Ha].
  - intros [= -> <-]. exists [], l. split; [done|]. split; [constructor|done].
  - intros Hl. destruct (IH Hl) as (pre & rest & -> & Hpre & Hx & Hr).
    exists (a :: pre), rest. split; [done|]. split; [now constructor|done].
Qed.

Lemma dfs_loop_with_discard push visited stack (pre : list T) n :
  Forall (λ y, value y ∈ visited) pre →
  dfs_loop_with push (length pre + n) g visited (pre ++ stack)
  = dfs_loop_with push n g visited stack.
Proof.
  induction 1 as [|y pre Hy _ IH]; [done|]. simpl.
  now rewrite decide_True.
Qed.

Lemma filter_visited_more visited (v : Z) (l k : list T) :
  filter (λ x, value x ∉ visited) l = filter (λ x, value x ∉ visited) k →
  filter (λ x, value x ∉ {[v]} ∪ visited) l
  = filter (λ x, value x ∉ {[v]} ∪ visited) k.
Proof.
  intros Heq.
  assert (∀ m : list T,
            filter (λ x, value x ∉ {[v]} ∪ visited) m
            = filter (λ x, value x ≠ v)
                     (filter (λ x, value x ∉ visited) m)) as Hsplit.
  { intros m. rewrite list_filter_filter. apply list_filter_iff.
    intros x. rewrite elem_of_union, elem_of_singleton. tauto. }
  now rewrite !Hsplit, Heq.
Qed.

(** Two loops whose inner loops push the unvisited targets, on stacks that
    agree on their unvisited entries, make the same calls. *)
Lemma dfs_loop_with_simulation push1 push2 :
  pushes_unvisited push1 → pushes_unvisited push2 →
  ∀ fuel visited stack1 stack2 tr,
    filter (λ x, value x ∉ visited) stack1
    = filter (λ x, value x ∉ visited) stack2 →
    dfs_loop_with push1 fuel g visited stack1 = Some tr →
    ∃ fuel', dfs_loop_with push2 fuel' g visited stack2 = Some tr.
Proof.
  intros Hp1 Hp2.
  induction fuel as [|fuel IH]; intros visited stack1 stack2 tr Heq Hrun;
    [done|].
  simpl in Hrun. destruct stack1 as [|cur rest1].
  - injection Hrun as <-. rewrite filter_nil in Heq.
    exists (length stack2 + 1)%nat.
    rewrite <- (app_nil_r stack2) at 2.
    rewrite dfs_loop_with_discard; [done|].
    apply Forall_forall. intros y Hy.
    destruct (decide (value y ∈ visited)) as [|Hnv]; [done|]. exfalso.
    now apply (filter_nil_not_elem_of _ stack2 y (eq_sym Heq) Hnv).
  - destruct (decide (value cur ∈ visited)) as [Hv|Hv].
    + apply (IH visited rest1 stack2 tr); [|done].
      rewrite <- Heq. rewrite filter_cons_False; [done|].
      intros Hn. now apply Hn.
    + rewrite filter_cons_True in Heq by done. symmetry in Heq.
      apply filter_cons_split in Heq
        as (pre & rest2 & -> & Hpre & _ & Heq).
      destruct (dfs_loop_with push1 fuel g _ _) as [tr'|] eqn:Hrec; [|done].
      injection Hrun as <-.
      apply (IH _ _
               (match getNeighbors g cur with
                | Some es => push2 ({[value cur]} ∪ visited) rest2 es
                | None => rest2
                end)) in Hrec as [fuel2 Hrec2].
      * exists (length pre + S fuel2)%nat.
        rewrite dfs_loop_with_discard.
        2:{ eapply Forall_impl; [exact Hpre|]. intros y Hy. simpl in Hy.
            destruct (decide (value y ∈ visited)); [done|]. now exfalso. }
        simpl.
        rewrite decide_False by done. now rewrite Hrec2.
      * destruct (getNeighbors g cur) as [es|].
        -- rewrite Hp1, Hp2. f_equal.
           now apply filter_visited_more.
        -- now apply filter_visited_more.
Qed.

(** [dfs] makes the calls of the visitor that the loop of the
    specification, which pushes every target, makes. *)
Lemma dfs_as_specified_same_calls start tr :
  (∃ fuel, dfs fuel g start = Some tr)
  ↔ (∃ fuel, dfs_as_specified fuel g start = Some tr).
Proof.
  unfold dfs, dfs_as_specified.
  destruct (negb (hasNode g start)); [done|].
  split; intros [fuel Hrun].
  - rewrite dfs_loop_dfs_loop_with in Hrun.
    apply (dfs_loop_with_simulation dfs_push dfs_push_all
             dfs_push_pushes_unvisited dfs_push_all_pushes_unvisited
             fuel ∅ [start] [start] tr eq_refl Hrun).
  - destruct (dfs_loop_with_simulation dfs_push_all dfs_push
                dfs_push_all_pushes_unvisited dfs_push_pushes_unvisited
                fuel ∅ [start] [start] tr eq_refl Hrun) as [fuel' Hrun'].
    exists fuel'. now rewrite dfs_loop_dfs_loop_with.
Qed.

End DFSPolicies.

(** * Distances *)

Lemma number_le_refl a : number_le a a.
Proof. destruct a; simpl; [lia|done]. Qed.

Lemma number_le_trans a b c : number_le a b → number_le b c → number_le a c.
Proof. destruct a, b, c; simpl; try done; lia. Qed.

Lemma number_lt_le a b : number_lt a b = true → number_le a b.
Proof.
  destruct a, b; simpl; try done. intros Hlt%bool_decide_eq_true. lia.
Qed.

Lemma number_lt_Fin a b : number_lt a b = true → ∃ z, a = Fin z.
Proof. destruct a; [eauto|done]. Qed.

Lemma number_not_lt_le a b : number_lt a b = false → number_le b a.
Proof.
  destruct a, b; simpl; try done. intros Hlt%bool_decide_eq_false. lia.
Qed.

Lemma number_le_add a w : 0 ≤ w → number_le a (number_add a w).
Proof. destruct a; simpl; [lia|done]. Qed.

Lemma number_le_Infinity a : number_le Infinity a → a = Infinity.
Proof. now destruct a. Qed.

(** * The insertion-ordered set *)

Lemma Set_add_elem (s : list Z) (v x : Z) : x ∈ Set_add s v ↔ x ∈ s ∨ x = v.
Proof.
  unfold Set_add. destruct (decide (v ∈ s)).
  - split; [auto|]. now intros [?| ->].
  - rewrite elem_of_app, list_elem_of_singleton. done.
Qed.

Lemma Set_add_NoDup (s : list Z) (v : Z) : NoDup s → NoDup (Set_add s v).
Proof.
  intros Hs. unfold Set_add. destruct (decide (v ∈ s)); [done|].
  apply NoDup_app. split; [done|]. split; [|apply NoDup_singleton].
  now intros x Hx ->%list_elem_of_singleton.
Qed.

Lemma Set_add_length (s : list Z) (v : Z) :
  (length (Set_add s v) ≤ S (length s))%nat.
Proof.
  unfold Set_add. destruct (decide (v ∈ s)); [lia|].
  rewrite length_app. simpl. lia.
Qed.

Lemma Set_new_spec (l : list Z) :
  NoDup (Set_new l) ∧ (∀ x, x ∈ Set_new l ↔ x ∈ l)
  ∧ (length (Set_new l) ≤ length l)%nat.
Proof.
  unfold Set_new.
  assert (∀ acc, NoDup acc →
            NoDup (foldl Set_add acc l)
            ∧ (∀ x, x ∈ foldl Set_add acc l ↔ x ∈ acc ∨ x ∈ l)
            ∧ (length (foldl Set_add acc l) ≤ length acc + length l)%nat)
    as Hgen.
  { induction l as [|v l IH]; intros acc Hacc; simpl.
    - split; [done|]. split; [|lia]. intros x. rewrite elem_of_nil. tauto.
    - destruct (IH (Set_add acc v)) as (Hnd & Hin & Hlen);
        [now apply Set_add_NoDup|].
      split; [done|]. split.
      + intros x. rewrite Hin, Set_add_elem, elem_of_cons. tauto.
      + pose proof (Set_add_length acc v). lia. }
  destruct (Hgen []) as (Hnd & Hin & Hlen); [constructor|].
  split; [done|]. split; [|done].
  intros x. rewrite Hin, elem_of_nil. tauto.
Qed.

Lemma Set_delete_elem (v : Z) (s : list Z) (x : Z) :
  x ∈ Set_delete v s ↔ x ∈ s ∧ x ≠ v.
Proof. unfold Set_delete. rewrite list_elem_of_filter. tauto. Qed.

Lemma Set_delete_length (v : Z) (s : list Z) :
  v ∈ s → (length (Set_delete v s) < length s)%nat.
Proof.
  intros Hv. unfold Set_delete. apply (length_filter_lt _ _ v); [done|].
  intros Hne. now apply Hne.
Qed.

Lemma Set_delete_NoDup (v : Z) (s : list Z) : NoDup s → NoDup (Set_delete v s).
Proof. apply NoDup_filter. Qed.

(** * Dijkstra: the scan, the loop and the negative weights *)

Section DijkstraLoop.
Context {T : Type} {EqT : EqDecision T} {CntT : Countable T}
        {DSV : DataShapeWithValue T}.
Variable g : Graph T.
Implicit Types (dist : gmap Z number) (pred : gmap Z (option T))
               (unvisited : list Z) (cur : T).

(** The scan returns the first unvisited value of least distance, if a
    finite distance is there. *)
Lemma scan_min_spec dist unvisited :
  (∀ v d, v ∈ unvisited → dist !! v = Some d →
          number_le (scan_min dist unvisited).2 d)
  ∧ match (scan_min dist unvisited).1 with
    | None => (scan_min dist unvisited).2 = Infinity
    | Some c => c ∈ unvisited
                ∧ dist !! c = Some (scan_min dist unvisited).2
                ∧ ∃ z, (scan_min dist unvisited).2 = Fin z
    end.
Proof.
  unfold scan_min. induction unvisited as [|v l IH] using rev_ind.
  - simpl. split; [|done]. intros v d Hv. now apply elem_of_nil in Hv.
  - rewrite foldl_snoc. destruct IH as [IHle IHcur].
    set (acc := foldl (scan_step dist) (None, Infinity) l) in *.
    unfold scan_step. destruct (dist !! v) as [d|] eqn:Hd.
    + destruct (number_lt d acc.2) eqn:Hlt; simpl.
      * split.
        -- intros v' d' [Hv'| ->%list_elem_of_singleton]%elem_of_app Hd'.
           ++ apply (number_le_trans _ acc.2);
                [now apply number_lt_le|eauto].
           ++ rewrite Hd in Hd'. injection Hd' as <-. apply number_le_refl.
        -- split; [apply elem_of_app; right; now left|]. split; [done|].
           eapply number_lt_Fin; eauto.
      * split.
        -- intros v' d' [Hv'| ->%list_elem_of_singleton]%elem_of_app Hd';
             [eauto|].
           rewrite Hd in Hd'. injection Hd' as <-.
           now apply number_not_lt_le.
        -- destruct acc.1; [|done]. destruct IHcur as (? & ? & ?).
           split; [apply elem_of_app; now left|done].
    + split.
      * intros v' d' [Hv'| ->%list_elem_of_singleton]%elem_of_app Hd';
          [eauto|]. rewrite Hd in Hd'. done.
      * destruct acc.1; [|done]. destruct IHcur as (? & ? & ?).
        split; [apply elem_of_app; now left|done].
Qed.

(** The negative-weight test looks at every edge record, whether or not
    its target is unvisited. *)
Lemma relax_None cur unvisited neighbors dist pred :
  relax cur unvisited neighbors dist pred = None
  ↔ ∃ e, e ∈ neighbors ∧ default 1 (weight e) < 0.
Proof.
  revert dist pred. induction neighbors as [|e rest IH]; intros dist pred.
  - simpl. split; [done|]. intros (e & He & _). now apply elem_of_nil in He.
  - simpl. destruct (bool_decide (default 1 (weight e) < 0)) eqn:Hneg.
    + apply bool_decide_eq_true in Hneg. split; [|done].
      intros _. exists e. split; [now left|done].
    + apply bool_decide_eq_false in Hneg.
      assert (Hrest : (∃ e', e' ∈ e :: rest ∧ default 1 (weight e') < 0)
                      ↔ ∃ e', e' ∈ rest ∧ default 1 (weight e') < 0).
      { split; intros (e' & He' & Hw).
        - apply elem_of_cons in He' as [->|He']; [done|eauto].
        - exists e'. split; [now right|done]. }
      rewrite Hrest.
      destruct (decide (value (target e) ∈ unvisited)); [|apply IH].
      destruct (dist !! value cur) as [dc|]; [|apply IH].
      destruct (dist !! value (target e)) as [dn|]; [|apply IH].
      destruct (number_lt (number_add dc (default 1 (weight e))) dn);
        apply IH.
Qed.

(** An iteration that goes on has removed one value from the unvisited
    set. *)
Lemma dijkstra_body_Continue dist pred unvisited dist' pred' unvisited' :
  dijkstra_body g dist pred unvisited = Continue dist' pred' unvisited' →
  ∃ c z, scan_min dist unvisited = (Some c, Fin z)
         ∧ c ∈ unvisited ∧ unvisited' = Set_delete c unvisited.
Proof.
  unfold dijkstra_body. intros Hbody.
  pose proof (scan_min_spec dist unvisited) as [_ Hcur].
  destruct (scan_min dist unvisited) as [[c|] [z|]]; try done.
  simpl in Hcur. destruct Hcur as (Hc & _). exists c, z.
  split; [done|]. split; [done|].
  destruct (nodeMap g !! c) as [cur|]; [|now injection Hbody].
  destruct (getNeighbors g cur) as [es|]; [|now injection Hbody].
  destruct (relax cur _ es dist pred) as [[d p]|]; [|done].
  now injection Hbody.
Qed.

Lemma dijkstra_body_length dist pred unvisited dist' pred' unvisited' :
  dijkstra_body g dist pred unvisited = Continue dist' pred' unvisited' →
  (length unvisited' < length unvisited)%nat.
Proof.
  intros (c & z & _ & Hc & ->)%dijkstra_body_Continue.
  now apply Set_delete_length.
Qed.

Lemma dijkstra_loop_mono n m dist pred unvisited r :
  dijkstra_loop n g dist pred unvisited = Some r → (n ≤ m)%nat →
  dijkstra_loop m g dist pred unvisited = Some r.
Proof.
  revert m dist pred unvisited.
  induction n as [|n IH]; intros m dist pred unvisited Hn Hle; [done|].
  destruct m as [|m]; [lia|]. simpl in *.
  destruct unvisited as [|v l]; [done|].
  destruct (dijkstra_body g dist pred (v :: l)); try done.
  apply IH; [done|lia].
Qed.

Lemma dijkstra_loop_terminates fuel dist pred unvisited :
  (length unvisited < fuel)%nat →
  is_Some (dijkstra_loop fuel g dist pred unvisited).
Proof.
  revert dist pred unvisited.
  induction fuel as [|fuel IH]; intros dist pred unvisited Hlt; [lia|].
  simpl. destruct unvisited as [|v l]; [by eexists|].
  destruct (dijkstra_body g dist pred (v :: l)) as [| |d p u] eqn:Hbody;
    try by eexists.
  apply IH. apply dijkstra_body_length in Hbody. lia.
Qed.

Lemma init_unvisited_length :
  (length (init_unvisited g) ≤ length (nodes g))%nat.
Proof.
  unfold init_unvisited.
  destruct (Set_new_spec (value <$> nodes g)) as (_ & _ & Hlen).
  now rewrite length_fmap in Hlen.
Qed.

Lemma dijkstra_terminates fuel start :
  (length (nodes g) < fuel)%nat → is_Some (dijkstra fuel g start).
Proof.
  intros Hlt. unfold dijkstra.
  destruct (negb (hasNode g start)); [by eexists|].
  destruct (dijkstra_loop_terminates fuel (init_distances g start)
              (init_predecessors g) (init_unvisited g)) as [r Hr].
  { pose proof init_unvisited_length. lia. }
  rewrite Hr. destruct r; by eexists.
Qed.



End DijkstraLoop.

(** * Dijkstra: the distances *)

Section DijkstraDistances.
Context {T : Type} {EqT : EqDecision T} {CntT : Countable T}
        {DSV : DataShapeWithValue T}.
Variable g : Graph T.
Hypothesis Hwf : well_formed g.
Hypothesis Huniq : unique_values g.
Variable start : T.
Implicit Types (dist : gmap Z number) (pred : gmap Z (option T))
               (unvisited : list Z) (cur : T).

Lemma init_map_lookup {A : Type} (a : A) (ns : list T) (v : Z) :
  init_map a ns !! v = if decide (v ∈ value <$> ns) then Some a else None.
Proof.
  unfold init_map.
  assert (∀ m : gmap Z A,
            foldl (λ m node, <[value node := a]> m) m ns !! v
            = if decide (v ∈ value <$> ns) then Some a else m !! v) as Hgen.
  { induction ns as [|n ns IH]; intros m.
    - simpl. destruct (decide (v ∈ [])) as [Hin|]; [|done].
      now apply elem_of_nil in Hin.
    - simpl foldl. rewrite IH, fmap_cons.
      destruct (decide (v ∈ value <$> ns)) as [Hin|Hnin];
        destruct (decide (v ∈ value n :: (value <$> ns))) as [Hin'|Hnin'];
        try done.
      + exfalso. apply Hnin'. now right.
      + apply elem_of_cons in Hin' as [->|?]; [|done].
        apply lookup_insert_eq.
      + rewrite lookup_insert_ne; [done|]. intros <-. apply Hnin'.
        now left. }
  rewrite Hgen. now destruct (decide (v ∈ value <$> ns)).
Qed.

Lemma edge_relaxed_insert dist u e t new old :
  edge_relaxed dist u e → value u ≠ t →
  dist !! t = Some old → number_le new old →
  edge_relaxed (<[t := new]> dist) u e.
Proof.
  intros (Hw & du & dv & Hu & Hv & Hle) Hne Hold Hnew.
  split; [done|]. exists du.
  rewrite (lookup_insert_ne dist t (value u)) by done.
  destruct (decide (t = value (target e))) as [->|Hnt].
  - exists new. rewrite lookup_insert_eq. do 2 (split; [done|]).
    rewrite Hold in Hv. injection Hv as ->.
    eapply number_le_trans; eauto.
  - exists dv. now rewrite lookup_insert_ne.
Qed.

Lemma relax_inv_same cur unvisited unvisited' seen dist pred e :
  relax_inv g start cur unvisited unvisited' seen dist pred →
  edge_relaxed dist cur e →
  relax_inv g start cur unvisited unvisited' (seen ++ [e]) dist pred.
Proof.
  intros [Hb He Hs Hle Hf] Hrel. split; try done.
  intros e' [?| ->%list_elem_of_singleton]%elem_of_app; auto.
Qed.

Lemma relax_inv_update cur unvisited unvisited' seen dist pred e es zc dn :
  relax_inv g start cur unvisited unvisited' seen dist pred →
  cur ∈ nodes g → value cur ∉ unvisited' →
  (∀ v, v ∈ unvisited' → v ∈ unvisited) →
  getNeighbors g cur = Some es → e ∈ es →
  0 ≤ default 1 (weight e) →
  value (target e) ∈ unvisited' →
  dist !! value cur = Some (Fin zc) →
  dist !! value (target e) = Some dn →
  number_lt (Fin (zc + default 1 (weight e))) dn = true →
  relax_inv g start cur unvisited unvisited' (seen ++ [e])
    (<[value (target e) := Fin (zc + default 1 (weight e))]> dist)
    (<[value (target e) := Some cur]> pred).
Proof.
  intros [Hb He Hs Hle Hf] Hcur Hcv Hsub Hes Hin Hw Ht Hdc Hdn Hlt.
  set (t := value (target e)) in *.
  set (w := default 1 (weight e)) in *.
  assert (Hte : target e ∈ nodes g) by (eapply wf_target; eauto).
  assert (Hct : value cur ≠ t) by (intros Heq; now rewrite Heq in Hcv).
  assert (Hzc : 0 ≤ zc) by (eapply db_nonneg; eauto).
  assert (Hnew : number_le (Fin (zc + w)) dn) by now apply number_lt_le.
  split.
  - destruct Hb as [Hnd Hunv Hdom Hstart Hnn Hreach Hpred Hmono]. split.
    + done.
    + done.
    + intros x Hx. destruct (Hdom x Hx) as [Hd Hp].
      split; apply lookup_insert_is_Some'; now right.
    + rewrite lookup_insert_ne; [done|]. intros Heq.
      rewrite <- Heq, Hdn in Hstart. injection Hstart as ->.
      simpl in Hlt. apply bool_decide_eq_true in Hlt. lia.
    + intros v z. rewrite lookup_insert.
      destruct (decide (t = v)); [|apply Hnn]. intros [= <-]. lia.
    + intros x z Hx. rewrite lookup_insert.
      destruct (decide (t = value x)) as [Heq|]; [|now apply Hreach].
      intros _.
      assert (x = target e) as ->
        by now apply (NoDup_fmap_eq value (nodes g)).
      eapply rtc_r; [eapply (Hreach cur); eauto|]. now exists es, e.
    + intros x p Hx. rewrite !lookup_insert.
      destruct (decide (t = value x)); [eauto|now apply Hpred].
    + intros a b da db Ha Hb. rewrite !lookup_insert.
      destruct (decide (t = a)) as [<-|]; [done|].
      destruct (decide (t = b)) as [<-|]; [|now apply Hmono].
      intros Hda [= <-]. destruct (Hle a da Ha Hda) as (dc & Hdc' & Hle').
      rewrite Hdc in Hdc'. injection Hdc' as <-.
      eapply number_le_trans; [exact Hle'|]. simpl. lia.
  - intros u es' e' Hu Hes' He'.
    eapply edge_relaxed_insert; eauto.
    intros Heq. apply Hu, Hsub. now rewrite Heq.
  - intros e' [He'| ->%list_elem_of_singleton]%elem_of_app.
    + eapply edge_relaxed_insert; eauto.
    + split; [done|]. exists (Fin zc), (Fin (zc + w)).
      rewrite lookup_insert_ne by auto. rewrite lookup_insert_eq.
      do 2 (split; [done|]). simpl. fold w. lia.
  - intros a da Ha. rewrite (lookup_insert_ne _ t (value cur)) by auto.
    rewrite lookup_insert_ne; [now apply Hle|].
    intros <-. done.
  - exists zc. now rewrite lookup_insert_ne by auto.
Qed.

Lemma relax_inv_run cur unvisited unvisited' all :
  cur ∈ nodes g → value cur ∉ unvisited' →
  (∀ v, v ∈ unvisited' → v ∈ unvisited) →
  getNeighbors g cur = Some all →
  ∀ es seen dist pred dist' pred',
    (∀ e, e ∈ es → e ∈ all) →
    relax_inv g start cur unvisited unvisited' seen dist pred →
    relax cur unvisited' es dist pred = Some (dist', pred') →
    relax_inv g start cur unvisited unvisited' (seen ++ es) dist' pred'.
Proof.
  intros Hcur Hcv Hsub Hall.
  induction es as [|e rest IH]; intros seen dist pred dist' pred' Hes Hinv Hrun.
  - injection Hrun as <- <-. now rewrite app_nil_r.
  - simpl in Hrun.
    assert (He : e ∈ all) by (apply Hes; now left).
    assert (Hrest : ∀ e', e' ∈ rest → e' ∈ all)
      by (intros e' He'; apply Hes; now right).
    destruct (bool_decide (default 1 (weight e) < 0)) eqn:Hneg; [done|].
    apply bool_decide_eq_false in Hneg.
    assert (Hw : 0 ≤ default 1 (weight e)) by lia.
    assert (Hte : target e ∈ nodes g) by (eapply wf_target; eauto).
    destruct (ri_Fin _ _ _ _ _ _ _ _ Hinv) as [zc Hdc].
    destruct (db_dom _ _ _ _ _ (ri_base _ _ _ _ _ _ _ _ Hinv) _ Hte)
      as [[dn Hdn] _].
    rewrite (cons_middle e seen rest), app_assoc.
    rewrite Hdc, Hdn in Hrun. cbn -[number_lt relax] in Hrun.
    destruct (decide (value (target e) ∈ unvisited')) as [Ht|Ht].
    + destruct (number_lt (Fin (zc + default 1 (weight e))) dn) eqn:Hlt.
      * eapply IH; [done| |exact Hrun].
        eapply relax_inv_update; eauto.
      * eapply IH; [done| |exact Hrun].
        apply relax_inv_same; [done|]. split; [done|].
        exists (Fin zc), dn. do 2 (split; [done|]).
        now apply number_not_lt_le.
    + eapply IH; [done| |exact Hrun].
      apply relax_inv_same; [done|]. split; [done|].
      exists (Fin zc), dn. do 2 (split; [done|]).
      destruct (ri_le _ _ _ _ _ _ _ _ Hinv _ _ Ht Hdn) as (dc & Hdc' & Hle).
      rewrite Hdc in Hdc'. injection Hdc' as <-.
      eapply number_le_trans; [exact Hle|]. simpl. lia.
Qed.

Lemma dijkstra_inv_step dist pred unvisited dist' pred' unvisited' :
  dijkstra_base g start dist pred unvisited →
  dijkstra_edges g dist unvisited →
  dijkstra_body g dist pred unvisited = Continue dist' pred' unvisited' →
  dijkstra_base g start dist' pred' unvisited'
  ∧ dijkstra_edges g dist' unvisited'.
Proof.
  intros Hb He Hbody.
  destruct (dijkstra_body_Continue _ _ _ _ _ _ _ Hbody)
    as (c & z & Hscan & Hc & ->).
  pose proof (scan_min_spec dist unvisited) as [Hmin Hsel].
  rewrite Hscan in Hmin, Hsel. simpl in Hmin, Hsel.
  destruct Hsel as (_ & Hdc & _).
  destruct (db_unvisited _ _ _ _ _ Hb c Hc) as (x & Hx & Hxc).
  destruct (wf_nodeMap_dom g Hwf x Hx) as [cur Hnm]. rewrite Hxc in Hnm.
  destruct (wf_nodeMap g Hwf c cur Hnm) as [Hcur Hcv].
  destruct (proj1 (wf_dom g Hwf cur) Hcur) as [es Hes].
  unfold dijkstra_body in Hbody. rewrite Hscan, Hnm in Hbody.
  unfold getNeighbors in Hbody at 1. rewrite Hes in Hbody.
  destruct (relax cur (Set_delete c unvisited) es dist pred)
    as [[d p]|] eqn:Hrelax; [|done].
  injection Hbody as <- <-.
  assert (Hnotin : value cur ∉ Set_delete c unvisited).
  { rewrite Set_delete_elem, Hcv. tauto. }
  assert (Hsub : ∀ v, v ∈ Set_delete c unvisited → v ∈ unvisited).
  { intros v. rewrite Set_delete_elem. tauto. }
  assert (Hinit : relax_inv g start cur unvisited (Set_delete c unvisited)
                    [] dist pred).
  { split.
    - destruct Hb as [Hnd Hunv Hdom Hstart Hnn Hreach Hpred Hmono].
      split; try done.
      + now apply Set_delete_NoDup.
      + intros v Hv. apply Hunv. now apply Hsub.
      + intros a b da db Ha Hb Hda Hdb.
        apply Set_delete_elem in Hb as [Hb Hbc].
        destruct (decide (a = c)) as [->|Hac].
        * rewrite Hdc in Hda. injection Hda as <-. eapply Hmin; eauto.
        * eapply (Hmono a b); eauto. intros Hin. apply Ha.
          now apply Set_delete_elem.
    - done.
    - intros e He'. now apply elem_of_nil in He'.
    - intros a da Ha Hda. rewrite Hcv, Hdc. eexists. split; [done|].
      destruct (decide (a = c)) as [->|Hac].
      + rewrite Hdc in Hda. injection Hda as <-. apply number_le_refl.
      + eapply (db_mono _ _ _ _ _ Hb a c); eauto. intros Hin. apply Ha.
        now apply Set_delete_elem.
    - exists z. now rewrite Hcv. }
  pose proof (relax_inv_run cur unvisited (Set_delete c unvisited) es
                Hcur Hnotin Hsub Hes es [] dist pred d p
                (λ e He', He') Hinit Hrelax) as [Hb' He' Hs' _ _].
  split; [done|].
  intros u es' e Hu Hes' Hin.
  destruct (decide (value u ∈ unvisited)) as [Hun|Hun]; [|eauto].
  assert (value u = c) as Huc.
  { destruct (decide (value u = c)); [done|]. exfalso. apply Hu.
    now apply Set_delete_elem. }
  assert (Hunode : u ∈ nodes g).
  { apply (wf_dom g Hwf). unfold getNeighbors in Hes'.
    rewrite Hes'. by eexists. }
  assert (u = cur) as ->.
  { apply (NoDup_fmap_eq value (nodes g)); auto. congruence. }
  unfold getNeighbors in Hes'. rewrite Hes in Hes'. injection Hes' as <-.
  now apply Hs'.
Qed.

Lemma dijkstra_body_Break dist pred unvisited :
  dijkstra_body g dist pred unvisited = Break →
  ∀ v d, v ∈ unvisited → dist !! v = Some d → d = Infinity.
Proof.
  intros Hbody v d Hv Hd.
  pose proof (scan_min_spec dist unvisited) as [Hmin Hsel].
  apply number_le_Infinity.
  assert ((scan_min dist unvisited).2 = Infinity) as <-; [|eauto].
  unfold dijkstra_body in Hbody.
  destruct (scan_min dist unvisited) as [[c|] [z|]]; simpl in *; try done.
  destruct (nodeMap g !! c) as [cur|]; [|done].
  destruct (getNeighbors g cur) as [es|]; [|done].
  now destruct (relax cur _ es dist pred) as [[? ?]|].
Qed.

Lemma dijkstra_loop_Completed fuel dist pred unvisited dist' pred' :
  dijkstra_base g start dist pred unvisited →
  dijkstra_edges g dist unvisited →
  dijkstra_loop fuel g dist pred unvisited = Some (Completed dist' pred') →
  ∃ unvisited',
    dijkstra_base g start dist' pred' unvisited'
    ∧ dijkstra_edges g dist' unvisited'
    ∧ ∀ v d, v ∈ unvisited' → dist' !! v = Some d → d = Infinity.
Proof.
  revert dist pred unvisited.
  induction fuel as [|fuel IH]; intros dist pred unvisited Hb He Hrun;
    [done|].
  simpl in Hrun. destruct unvisited as [|v l] eqn:Hunv.
  - injection Hrun as <- <-. exists []. do 2 (split; [done|]).
    intros ? ? Hin. now apply elem_of_nil in Hin.
  - rewrite <- Hunv in *. clear Hunv.
    destruct (dijkstra_body g dist pred unvisited) as [| |d p u] eqn:Hbody.
    + injection Hrun as <- <-. exists unvisited. do 2 (split; [done|]).
      now apply dijkstra_body_Break with pred.
    + done.
    + destruct (dijkstra_inv_step _ _ _ _ _ _ Hb He Hbody) as [Hb' He'].
      eauto.
Qed.

Lemma dijkstra_body_Abort dist pred unvisited :
  dijkstra_base g start dist pred unvisited →
  dijkstra_body g dist pred unvisited = Abort →
  ∃ u es e, reachable g start u ∧ getNeighbors g u = Some es
            ∧ e ∈ es ∧ default 1 (weight e) < 0.
Proof.
  intros Hb Hbody.
  pose proof (scan_min_spec dist unvisited) as [_ Hsel].
  unfold dijkstra_body in Hbody.
  destruct (scan_min dist unvisited) as [[c|] [z|]]; simpl in *; try done.
  destruct Hsel as (_ & Hdc & _).
  destruct (nodeMap g !! c) as [cur|] eqn:Hnm; [|done].
  destruct (wf_nodeMap g Hwf c cur Hnm) as [Hcur <-].
  destruct (getNeighbors g cur) as [es|] eqn:Hes; [|done].
  destruct (relax cur _ es dist pred) as [[? ?]|] eqn:Hrelax; [done|].
  apply relax_None in Hrelax as (e & He & Hw).
  exists cur, es, e. split; [|done]. eapply db_reach; eauto.
Qed.

Lemma dijkstra_loop_NegativeWeight fuel dist pred unvisited :
  dijkstra_base g start dist pred unvisited →
  dijkstra_edges g dist unvisited →
  dijkstra_loop fuel g dist pred unvisited = Some NegativeWeight →
  ∃ u es e, reachable g start u ∧ getNeighbors g u = Some es
            ∧ e ∈ es ∧ default 1 (weight e) < 0.
Proof.
  revert dist pred unvisited.
  induction fuel as [|fuel IH]; intros dist pred unvisited Hb He Hrun;
    [done|].
  simpl in Hrun. destruct unvisited as [|v l] eqn:Hunv; [done|].
  rewrite <- Hunv in *. clear Hunv.
  destruct (dijkstra_body g dist pred unvisited) as [| |d p u] eqn:Hbody.
  - done.
  - now apply dijkstra_body_Abort with dist pred unvisited.
  - destruct (dijkstra_inv_step _ _ _ _ _ _ Hb He Hbody) as [Hb' He'].
    eauto.
Qed.

Hypothesis Hstart : hasNode g start = true.

Lemma dijkstra_inv_init :
  dijkstra_base g start (init_distances g start) (init_predecessors g)
                (init_unvisited g)
  ∧ dijkstra_edges g (init_distances g start) (init_unvisited g).
Proof.
  assert (Hs : start ∈ nodes g) by now apply hasNode_nodes.
  destruct (Set_new_spec (value <$> nodes g)) as (Hnd & Hin & _).
  fold (init_unvisited g) in Hnd, Hin.
  assert (Hval : ∀ x, x ∈ nodes g → value x ∈ init_unvisited g).
  { intros x Hx. apply Hin. now apply list_elem_of_fmap_2. }
  assert (Hdist : ∀ v d, init_distances g start !! v = Some d →
            v ∈ init_unvisited g
            ∧ (d = Infinity ∨ (d = Fin 0 ∧ v = value start))).
  { intros v d. unfold init_distances. rewrite lookup_insert.
    destruct (decide (value start = v)) as [<-|].
    - intros [= <-]. split; [now apply Hval|]. right. done.
    - rewrite init_map_lookup.
      destruct (decide (v ∈ value <$> nodes g)); [|done].
      intros [= <-]. split; [now apply Hin|]. now left. }
  split; [split|].
  - done.
  - intros v Hv. apply Hin, list_elem_of_fmap in Hv as (x & -> & Hx). eauto.
  - intros x Hx. unfold init_distances, init_predecessors. split.
    + apply lookup_insert_is_Some'. right. rewrite init_map_lookup.
      rewrite decide_True by now apply list_elem_of_fmap_2. by eexists.
    + rewrite init_map_lookup.
      rewrite decide_True by now apply list_elem_of_fmap_2. by eexists.
  - apply lookup_insert_eq.
  - intros v z Hv. destruct (Hdist v _ Hv) as [_ [?|[[= ->] _]]]; [done|lia].
  - intros x z Hx Hv. destruct (Hdist _ _ Hv) as [_ [?|[_ Heq]]]; [done|].
    assert (x = start) as -> by now apply (NoDup_fmap_eq value (nodes g)).
    apply rtc_refl.
  - intros x p Hx. unfold init_predecessors. rewrite init_map_lookup.
    now destruct (decide (value x ∈ value <$> nodes g)).
  - intros a b da db Ha _ Hda _. destruct (Hdist _ _ Hda) as [? _]. done.
  - intros u es e Hu Hes. exfalso. apply Hu, Hval, (wf_dom g Hwf).
    unfold getNeighbors in Hes. rewrite Hes. by eexists.
Qed.

(** The maps that a completed run returns. *)
Lemma dijkstra_completed fuel r :
  dijkstra fuel g start = Some (r, []) →
  distances r !! value start = Some (Fin 0)
  ∧ (∀ u es e, getNeighbors g u = Some es → e ∈ es →
       ∃ du dv, distances r !! value u = Some du
                ∧ distances r !! value (target e) = Some dv
                ∧ number_le dv (number_add du (default 1 (weight e))))
  ∧ (∀ x, x ∈ nodes g → ¬ reachable g start x →
       distances r !! value x = Some Infinity
       ∧ predecessors r !! value x = Some None).
Proof.
  unfold dijkstra. rewrite Hstart. simpl.
  destruct (dijkstra_loop fuel g _ _ _) as [[d p|]|] eqn:Hloop; [|done|done].
  intros [= <-]. simpl.
  destruct dijkstra_inv_init as [Hb0 He0].
  destruct (dijkstra_loop_Completed _ _ _ _ _ _ Hb0 He0 Hloop)
    as (unv & Hb & He & Hinf).
  split; [apply (db_start _ _ _ _ _ Hb)|]. split.
  - intros u es e Hes Hin.
    destruct (decide (value u ∈ unv)) as [Hu|Hu].
    + assert (Hunode : u ∈ nodes g).
      { apply (wf_dom g Hwf). unfold getNeighbors in Hes.
        rewrite Hes. by eexists. }
      assert (Hte : target e ∈ nodes g) by (eapply wf_target; eauto).
      destruct (db_dom _ _ _ _ _ Hb u Hunode) as [[du Hdu] _].
      destruct (db_dom _ _ _ _ _ Hb _ Hte) as [[dv Hdv] _].
      exists du, dv. do 2 (split; [done|]).
      rewrite (Hinf _ _ Hu Hdu). simpl. now destruct dv.
    + destruct (He u es e Hu Hes Hin) as (_ & du & dv & ? & ? & ?). eauto.
  - intros x Hx Hnr.
    destruct (db_dom _ _ _ _ _ Hb x Hx) as [[dx Hdx] [px Hpx]].
    assert (dx = Infinity) as ->.
    { destruct dx as [z|]; [|done]. exfalso. apply Hnr.
      eapply db_reach; eauto. }
    split; [done|]. destruct px as [q|]; [|done].
    destruct (db_pred _ _ _ _ _ Hb x q Hx Hpx) as [z Hz]. congruence.
Qed.

(** Without a negative weight on the edge records of the component of
    the start node the run is completed. *)
Lemma dijkstra_completes fuel :
  (∀ u es e, reachable g start u → getNeighbors g u = Some es → e ∈ es →
     0 ≤ default 1 (weight e)) →
  (length (nodes g) < fuel)%nat →
  ∃ r, dijkstra fuel g start = Some (r, []).
Proof.
  intros Hpos Hfuel.
  destruct (dijkstra_loop_terminates g fuel (init_distances g start)
              (init_predecessors g) (init_unvisited g)) as [r Hr].
  { pose proof (init_unvisited_length g). lia. }
  unfold dijkstra. rewrite Hstart. simpl. rewrite Hr.
  destruct r as [d p|]; [eauto|]. exfalso.
  destruct dijkstra_inv_init as [Hb0 He0].
  destruct (dijkstra_loop_NegativeWeight _ _ _ _ Hb0 He0 Hr)
    as (u & es & e & Hu & Hes & He & Hw).
  specialize (Hpos u es e Hu Hes He). lia.
Qed.

End DijkstraDistances.

(** * Dijkstra over an addition: the distances by key *)


Section DijkstraKeyed.
Context {T : Type} {EqT : EqDecision T} {CntT : Countable T}
        {DSV : DataShapeWithValue T}.
Variable add : number → Z → number.
Variable good : Z → Prop.
Hypothesis good_0 : good 0.
Hypothesis add_good : ∀ z w z', 0 ≤ z → good z → 0 ≤ w →
  add (Fin z) w = Fin z' → 0 ≤ z' ∧ good z'.
Hypothesis add_le : ∀ z w, 0 ≤ z → good z → 0 ≤ w →
  number_le (Fin z) (add (Fin z) w).
Variable g : Graph T.
Hypothesis Hwf : well_formed g.
Variable start : T.
Implicit Types (dist : gmap Z number) (pred : gmap Z (option T))
               (unvisited : list Z) (cur : T).

(** What the inner loop does to the two maps, whatever the values of the
    nodes are. *)
Lemma relax_with_spec cur unvisited' zc :
  value cur ∉ unvisited' →
  ∀ es dist pred dist' pred',
    dist !! value cur = Some (Fin zc) →
    relax_with add cur unvisited' es dist pred = Some (dist', pred') →
    dist' !! value cur = Some (Fin zc)
    ∧ (∀ e, e ∈ es → 0 ≤ default 1 (weight e))
    ∧ (∀ v, (dist' !! v = dist !! v ∧ pred' !! v = pred !! v)
            ∨ (v ∈ unvisited'
               ∧ ∃ e z', e ∈ es ∧ v = value (target e)
                         ∧ add (Fin zc) (default 1 (weight e)) = Fin z'
                         ∧ dist' !! v = Some (Fin z')
                         ∧ pred' !! v = Some (Some cur)))
    ∧ (∀ v d, dist !! v = Some d →
         ∃ d', dist' !! v = Some d' ∧ number_le d' d)
    ∧ (∀ e dv, e ∈ es → value (target e) ∈ unvisited' →
         dist !! value (target e) = Some dv →
         ∃ dv', dist' !! value (target e) = Some dv'
                ∧ number_le dv' (add (Fin zc) (default 1 (weight e)))).
Proof.
  intros Hcv.
  induction es as [|e rest IH]; intros dist pred dist' pred' Hdc Hrun.
  { injection Hrun as <- <-. split; [done|]. split.
    { intros e He. now apply elem_of_nil in He. }
    split; [now left|]. split.
    - intros v d Hd. exists d. split; [done|apply number_le_refl].
    - intros e dv He. now apply elem_of_nil in He. }
  simpl in Hrun.
  destruct (bool_decide (default 1 (weight e) < 0)) eqn:Hneg; [done|].
  apply bool_decide_eq_false in Hneg.
  set (t := value (target e)) in *. set (w := default 1 (weight e)) in *.
  assert (Hsame :
            relax_with add cur unvisited' rest dist pred
            = Some (dist', pred') →
            (t ∈ unvisited' → ∀ dv, dist !! t = Some dv →
               number_le dv (add (Fin zc) w)) →
            dist' !! value cur = Some (Fin zc)
            ∧ (∀ e0, e0 ∈ e :: rest → 0 ≤ default 1 (weight e0))
            ∧ (∀ v, (dist' !! v = dist !! v ∧ pred' !! v = pred !! v)
                    ∨ (v ∈ unvisited'
                       ∧ ∃ e0 z', e0 ∈ e :: rest ∧ v = value (target e0)
                           ∧ add (Fin zc) (default 1 (weight e0)) = Fin z'
                           ∧ dist' !! v = Some (Fin z')
                           ∧ pred' !! v = Some (Some cur)))
            ∧ (∀ v d, dist !! v = Some d →
                 ∃ d', dist' !! v = Some d' ∧ number_le d' d)
            ∧ (∀ e0 dv, e0 ∈ e :: rest → value (target e0) ∈ unvisited' →
                 dist !! value (target e0) = Some dv →
                 ∃ dv', dist' !! value (target e0) = Some dv'
                        ∧ number_le dv'
                            (add (Fin zc) (default 1 (weight e0))))).
  { intros Hrest Hle.
    destruct (IH _ _ _ _ Hdc Hrest) as (Ha & Hb & Hc & He & Hd).
    split; [done|]. split.
    { intros e0 [->|He0]%elem_of_cons; [fold w; lia|auto]. }
    split.
    { intros v.
      destruct (Hc v) as [?|(Hv & e0 & z' & He0 & Hnew)]; [now left|].
      right. split; [done|]. exists e0, z'. split; [now right|done]. }
    split; [done|].
    intros e0 dv [->|He0]%elem_of_cons Ht Hdv; [|eauto].
    destruct (He _ _ Hdv) as (d' & Hd' & Hle').
    exists d'. split; [done|].
    eapply number_le_trans; [exact Hle'|]. now apply Hle. }
  destruct (decide (t ∈ unvisited')) as [Ht|Ht]; [|now apply Hsame].
  rewrite Hdc in Hrun.
  destruct (dist !! t) as [dn|] eqn:Hdn; [|now apply Hsame].
  cbn -[number_lt relax_with] in Hrun. fold w in Hrun.
  destruct (number_lt (add (Fin zc) w) dn) eqn:Hlt.
  2:{ apply Hsame; [done|]. intros _ dv [= <-].
      now apply number_not_lt_le. }
  destruct (number_lt_Fin _ _ Hlt) as [zn Hzn].
  assert (Hct : t ≠ value cur) by (intros Heq; now rewrite Heq in Ht).
  assert (Hdc1 : <[t := add (Fin zc) w]> dist !! value cur = Some (Fin zc))
    by now rewrite lookup_insert_ne.
  destruct (IH _ _ _ _ Hdc1 Hrun) as (Ha & Hb & Hc & He & Hd).
  split; [done|]. split.
  { intros e0 [->|He0]%elem_of_cons; [fold w; lia|auto]. }
  split.
  { intros v. destruct (Hc v) as [[Heq Hpeq]|(Hv & e0 & z' & He0 & Hnew)].
    - destruct (decide (t = v)) as [<-|Hne].
      + right. split; [done|]. exists e, zn. split; [now left|].
        split; [done|]. split; [done|].
        rewrite Heq, Hpeq, !lookup_insert_eq. now rewrite Hzn.
      + left. now rewrite Heq, Hpeq, !lookup_insert_ne.
    - right. split; [done|]. exists e0, z'. split; [now right|done]. }
  split.
  { intros v d Hd0. destruct (decide (t = v)) as [<-|Hne].
    - destruct (He t (add (Fin zc) w)) as (d' & Hd' & Hle');
        [apply lookup_insert_eq|].
      exists d'. split; [done|]. rewrite Hdn in Hd0. injection Hd0 as <-.
      eapply number_le_trans; [exact Hle'|]. now apply number_lt_le.
    - apply He. now rewrite lookup_insert_ne. }
  intros e0 dv [->|He0]%elem_of_cons Ht0 Hdv.
  - fold t. fold w.
    destruct (He t (add (Fin zc) w)) as (d' & Hd' & Hle');
      [apply lookup_insert_eq|]. eauto.
  - destruct (decide (t = value (target e0))) as [Heq|Hne].
    + apply (Hd e0 (add (Fin zc) w)); [done|done|].
      rewrite <- Heq. apply lookup_insert_eq.
    + apply (Hd e0 dv); [done|done|]. now rewrite lookup_insert_ne.
Qed.

(** The cases of an iteration that goes on. *)
Lemma dijkstra_body_with_cases dist pred unvisited dist' pred' unvisited' :
  dijkstra_body_with add g dist pred unvisited
  = Continue dist' pred' unvisited' →
  ∃ c z, scan_min dist unvisited = (Some c, Fin z)
         ∧ c ∈ unvisited ∧ dist !! c = Some (Fin z)
         ∧ (∀ v d, v ∈ unvisited → dist !! v = Some d → number_le (Fin z) d)
         ∧ unvisited' = Set_delete c unvisited
         ∧ ((dist' = dist ∧ pred' = pred
             ∧ ∀ u es, nodeMap g !! c = Some u →
                 getNeighbors g u = Some es → False)
            ∨ ∃ cur es, nodeMap g !! c = Some cur ∧ value cur = c
                        ∧ cur ∈ nodes g
                        ∧ getNeighbors g cur = Some es
                        ∧ relax_with add cur unvisited' es dist pred
                          = Some (dist', pred')).
Proof.
  unfold dijkstra_body_with. intros Hbody.
  pose proof (scan_min_spec dist unvisited) as [Hmin Hsel].
  destruct (scan_min dist unvisited) as [[c|] [z|]] eqn:Hscan; try done.
  simpl in Hmin, Hsel. destruct Hsel as (Hc & Hdc & _).
  exists c, z. do 4 (split; [done|]).
  destruct (nodeMap g !! c) as [cur|] eqn:Hnm.
  - destruct (wf_nodeMap g Hwf c cur Hnm) as [Hcur Hcv].
    destruct (getNeighbors g cur) as [es|] eqn:Hes.
    + destruct (relax_with add cur _ es dist pred) as [[d p]|] eqn:Hrelax;
        [|done].
      injection Hbody as <- <- <-. split; [done|].
      right. exists cur, es. done.
    + injection Hbody as <- <- <-. split; [done|]. left.
      do 2 (split; [done|]). intros u es [= <-] Hes'. congruence.
  - injection Hbody as <- <- <-. split; [done|]. left.
    do 2 (split; [done|]). intros u es Hu. done.
Qed.

Lemma dijkstra_body_with_length dist pred unvisited dist' pred' unvisited' :
  dijkstra_body_with add g dist pred unvisited
  = Continue dist' pred' unvisited' →
  (length unvisited' < length unvisited)%nat.
Proof.
  intros (c & z & _ & Hc & _ & _ & -> & _)%dijkstra_body_with_cases.
  now apply Set_delete_length.
Qed.



Lemma init_distances_cases v d :
  init_distances g start !! v = Some d →
  v ∈ value <$> (start :: nodes g)
  ∧ (d = Infinity ∨ (d = Fin 0 ∧ v = value start)).
Proof.
  unfold init_distances. rewrite lookup_insert.
  destruct (decide (value start = v)) as [<-|].
  - intros [= <-]. split; [now left|now right].
  - rewrite init_map_lookup.
    destruct (decide (v ∈ value <$> nodes g)); [|done].
    intros [= <-]. split; [now right|now left].
Qed.

Hypothesis Hstart : hasNode g start = true.





(** ** The last state of a completed run *)







End DijkstraKeyed.
(** * The addition of doubles on integers *)

Section Round53.





Lemma round53_exact (z : Z) : 0 ≤ z ≤ 2 ^ 53 → round53 z = Fin z.
Proof.
  intros Hz. destruct (decide (z = 2 ^ 53)) as [->|Hne].
  - vm_compute. reflexivity.
  - unfold round53. now rewrite bool_decide_eq_true_2 by lia.
Qed.





Lemma double_add_exact (z w : Z) :
  0 ≤ z → 0 ≤ w → z + w ≤ 2 ^ 53 → double_add (Fin z) w = Fin (z + w).
Proof. intros. simpl. apply round53_exact. lia. Qed.


(** [double_add] is the addition [SFadd] of binary64 in the standard
    library, on the doubles around [2 ^ 53] and [2 ^ 54] and on the
    largest ones. *)
Lemma double_add_binary64 :
  Forall (λ a, round53 a = Fin a →
     Forall (λ w, round53 w = Fin w →
               SFadd 53 1024 (binary64 (Fin a)) (binary64 (Fin w))
               = binary64 (double_add (Fin a) w))
       (seqZ 0 6 ++ seqZ (2 ^ 53 - 2) 8
        ++ [2 ^ 54; 2 ^ 60 + 2 ^ 8; 2 ^ 969; 2 ^ 970; 2 ^ 971;
            2 ^ 1023; 2 ^ 1024 - 2 ^ 971]))
    (seqZ 0 6 ++ seqZ (2 ^ 53 - 8) 24 ++ seqZ (2 ^ 54 - 8) 24
     ++ [2 ^ 60 + 2 ^ 8; 2 ^ 100; 2 ^ 100 + 2 ^ 48; 2 ^ 1023;
         2 ^ 1024 - 2 ^ 972; 2 ^ 1024 - 2 ^ 971]).
Proof. apply (bool_decide_unpack _). vm_compute. exact I. Qed.

(** The sums at which doubles begin to round, and the overflow. *)
Lemma double_add_rounds :
  double_add (Fin (2 ^ 53)) 1 = Fin (2 ^ 53)
  ∧ double_add (Fin (2 ^ 53)) 3 = Fin (2 ^ 53 + 4)
  ∧ double_add (Fin (2 ^ 53 + 2)) 1 = Fin (2 ^ 53 + 4)
  ∧ double_add (Fin (2 ^ 1024 - 2 ^ 971)) (2 ^ 970 - 1)
    = Fin (2 ^ 1024 - 2 ^ 971)
  ∧ double_add (Fin (2 ^ 1024 - 2 ^ 971)) (2 ^ 970) = Infinity.
Proof. repeat split; vm_compute; reflexivity. Qed.

End Round53.

(** * Exact weights: the doubles add as the integers do *)

Section DijkstraExact.
Context {T : Type} {EqT : EqDecision T} {CntT : Countable T}
        {DSV : DataShapeWithValue T}.
Implicit Types (dist : gmap Z number) (pred : gmap Z (option T))
               (unvisited : list Z) (cur : T).

(** [dijkstra] is the loop over the exact addition. *)
Lemma relax_with_number_add cur unvisited es dist pred :
  relax_with number_add cur unvisited es dist pred
  = relax cur unvisited es dist pred.
Proof.
  revert dist pred. induction es as [|e rest IH]; intros dist pred; [done|].
  simpl. destruct (bool_decide (default 1 (weight e) < 0)); [done|].
  destruct (decide (value (target e) ∈ unvisited)); [|apply IH].
  destruct (dist !! value cur) as [dc|]; [|apply IH].
  destruct (dist !! value (target e)) as [dn|]; [|apply IH].
  destruct (number_lt (number_add dc (default 1 (weight e))) dn); apply IH.
Qed.

Lemma dijkstra_body_with_number_add (g : Graph T) dist pred unvisited :
  dijkstra_body_with number_add g dist pred unvisited
  = dijkstra_body g dist pred unvisited.
Proof.
  unfold dijkstra_body_with, dijkstra_body.
  destruct (scan_min dist unvisited) as [[c|] [z|]]; [|done|done|done].
  destruct (nodeMap g !! c) as [cur|]; [|done].
  destruct (getNeighbors g cur) as [es|]; [|done].
  now rewrite relax_with_number_add.
Qed.

Lemma dijkstra_loop_with_number_add fuel (g : Graph T) dist pred unvisited :
  dijkstra_loop_with number_add fuel g dist pred unvisited
  = dijkstra_loop fuel g dist pred unvisited.
Proof.
  revert dist pred unvisited.
  induction fuel as [|fuel IH]; intros dist pred unvisited; [done|].
  simpl. destruct unvisited as [|v l]; [done|].
  rewrite dijkstra_body_with_number_add.
  destruct (dijkstra_body g dist pred (v :: l)); [done|done|]. apply IH.
Qed.

Lemma dijkstra_with_number_add fuel (g : Graph T) (start : T) :
  dijkstra_with number_add fuel g start = dijkstra fuel g start.
Proof.
  unfold dijkstra_with, dijkstra.
  now rewrite dijkstra_loop_with_number_add.
Qed.

(** Two additions that agree on the sums that the inner loop forms give
    the same maps. *)
Lemma relax_with_ext (add1 add2 : number → Z → number) cur unvisited zc :
  value cur ∉ unvisited →
  ∀ es dist pred,
    dist !! value cur = Some (Fin zc) →
    (∀ e, e ∈ es → 0 ≤ default 1 (weight e) →
       add1 (Fin zc) (default 1 (weight e))
       = add2 (Fin zc) (default 1 (weight e))) →
    relax_with add1 cur unvisited es dist pred
    = relax_with add2 cur unvisited es dist pred.
Proof.
  intros Hcv. induction es as [|e rest IH]; intros dist pred Hdc Hadd; [done|].
  simpl. destruct (bool_decide (default 1 (weight e) < 0)) eqn:Hneg; [done|].
  apply bool_decide_eq_false in Hneg.
  assert (Hrest : ∀ e', e' ∈ rest → 0 ≤ default 1 (weight e') →
            add1 (Fin zc) (default 1 (weight e'))
            = add2 (Fin zc) (default 1 (weight e'))).
  { intros e' He'. apply Hadd. now right. }
  destruct (decide (value (target e) ∈ unvisited)) as [Ht|Ht]; [|now apply IH].
  rewrite Hdc.
  destruct (dist !! value (target e)) as [dn|]; [|now apply IH].
  rewrite (Hadd e) by (first [now left|lia]).
  destruct (number_lt _ dn); [|now apply IH].
  apply IH; [|done]. rewrite lookup_insert_ne; [done|].
  intros Heq. now rewrite Heq in Ht.
Qed.

Variable add : number → Z → number.
Hypothesis add_exact : ∀ z w, 0 ≤ z → 0 ≤ w → z + w ≤ 2 ^ 53 →
  add (Fin z) w = Fin (z + w).
Variable g : Graph T.
Hypothesis Hwf : well_formed g.
Hypothesis Hexact : exact_weights g.

(** The sum that the inner loop forms for the selected node. *)
Lemma dijkstra_bounded_sum dist unvisited c z cur es e :
  dijkstra_bounded g dist unvisited →
  c ∈ unvisited → dist !! c = Some (Fin z) →
  cur ∈ nodes g → getNeighbors g cur = Some es → e ∈ es →
  0 ≤ default 1 (weight e) →
  (∀ v d, dist !! v = Some (Fin d) → 0 ≤ d ≤ 2 ^ 53)
  ∧ 0 ≤ z ∧ z + default 1 (weight e) ≤ 2 ^ 53.
Proof.
  intros Hbd Hc Hdc Hcur Hes He Hw.
  assert (Hlen : (0 < length unvisited)%nat).
  { destruct unvisited; [now apply elem_of_nil in Hc|simpl; lia]. }
  assert (HN : 0 < Z.of_nat (length (nodes g))).
  { destruct (nodes g); [now apply elem_of_nil in Hcur|simpl; lia]. }
  assert (HP : 0 < 2 ^ 53) by done.
  split.
  - intros v d Hv. destruct (Hbd v d Hv) as [Hd Hle]. split; [done|]. nia.
  - destruct (Hbd c z Hdc) as [Hz Hle].
    pose proof (Hexact cur es e Hes He) as Hwe.
    rewrite Z.abs_eq in Hwe by done. split; [lia|]. nia.
Qed.

Lemma dijkstra_bounded_step dist pred unvisited dist' pred' unvisited' :
  dijkstra_bounded g dist unvisited →
  dijkstra_body_with add g dist pred unvisited
  = Continue dist' pred' unvisited' →
  dijkstra_bounded g dist' unvisited'.
Proof.
  intros Hbd Hbody.
  pose proof (dijkstra_body_with_length add g Hwf _ _ _ _ _ _ Hbody) as Hlen.
  destruct (dijkstra_body_with_cases add g Hwf _ _ _ _ _ _ Hbody)
    as (c & z & _ & Hc & Hdc & _ & Hunv & Hcases).
  assert (Hkeep : ∀ v z', dist !! v = Some (Fin z') →
            0 ≤ z'
            ∧ z' * Z.of_nat (length (nodes g))
              ≤ (Z.of_nat (length (nodes g)) - Z.of_nat (length unvisited'))
                * 2 ^ 53).
  { intros v z' Hv. destruct (Hbd v z' Hv) as [? Hle]. split; [done|].
    assert (0 < 2 ^ 53) by done. nia. }
  destruct Hcases
    as [(-> & _ & _)|(cur & es & Hnm & Hcv & Hcur & Hes & Hrelax)];
    [exact Hkeep|].
  assert (Hnotin : value cur ∉ unvisited').
  { rewrite Hunv, Set_delete_elem, Hcv. tauto. }
  pose proof Hdc as Hdc'. rewrite <- Hcv in Hdc'.
  destruct (relax_with_spec add cur _ z Hnotin es dist pred dist' pred'
              Hdc' Hrelax) as (_ & Hb & Hchg & _ & _).
  intros v z' Hv.
  destruct (Hchg v) as [[Heq _]|(_ & e & zn & He & _ & Hadd & Hnew & _)].
  - rewrite Heq in Hv. now apply (Hkeep v).
  - rewrite Hnew in Hv. injection Hv as <-.
    destruct (Hbd _ _ Hdc) as [Hz Hzle].
    specialize (Hb e He). pose proof (Hexact cur es e Hes He) as Hw.
    rewrite Z.abs_eq in Hw by done.
    destruct (dijkstra_bounded_sum _ _ _ _ _ _ _ Hbd Hc Hdc Hcur Hes He Hb)
      as (_ & _ & Hsum).
    rewrite add_exact in Hadd by done. injection Hadd as <-.
    split; [lia|]. assert (0 < 2 ^ 53) by done. nia.
Qed.

Lemma dijkstra_bounded_init (start : T) :
  dijkstra_bounded g (init_distances g start) (init_unvisited g).
Proof.
  intros v z Hv.
  destruct (init_distances_cases g start _ _ Hv) as [_ [?|[[= ->] _]]];
    [done|].
  split; [done|]. pose proof (init_unvisited_length g).
  assert (0 < 2 ^ 53) by done. nia.
Qed.

Lemma dijkstra_bounded_reached (start : T) (s : dijkstra_state) :
  rtc (dijkstra_step_with add g) (dijkstra_init g start) s →
  dijkstra_bounded g s.1.1 s.2.
Proof.
  revert s. apply rtc_ind_r; [apply dijkstra_bounded_init|].
  intros s1 s2 _ [_ Hstep] IH.
  eapply dijkstra_bounded_step; [exact IH|exact Hstep].
Qed.

End DijkstraExact.

Section DijkstraDouble.
Context {T : Type} {EqT : EqDecision T} {CntT : Countable T}
        {DSV : DataShapeWithValue T}.
Variable g : Graph T.
Hypothesis Hwf : well_formed g.
Hypothesis Hexact : exact_weights g.
Implicit Types (dist : gmap Z number) (pred : gmap Z (option T))
               (unvisited : list Z) (cur : T).

Lemma number_add_exact z w :
  0 ≤ z → 0 ≤ w → z + w ≤ 2 ^ 53 → number_add (Fin z) w = Fin (z + w).
Proof. done. Qed.

Lemma dijkstra_body_double_exact dist pred unvisited :
  dijkstra_bounded g dist unvisited →
  dijkstra_body_with double_add g dist pred unvisited
  = dijkstra_body g dist pred unvisited.
Proof.
  intros Hbd. rewrite <- dijkstra_body_with_number_add.
  unfold dijkstra_body_with.
  pose proof (scan_min_spec dist unvisited) as [_ Hsel].
  destruct (scan_min dist unvisited) as [[c|] [z|]]; try done.
  simpl in Hsel. destruct Hsel as (Hc & Hdc & _).
  destruct (nodeMap g !! c) as [cur|] eqn:Hnm; [|done].
  destruct (wf_nodeMap g Hwf c cur Hnm) as [Hcur Hcv].
  destruct (getNeighbors g cur) as [es|] eqn:Hes; [|done].
  rewrite (relax_with_ext double_add number_add cur _ z); [done| |by rewrite Hcv|].
  - rewrite Set_delete_elem, Hcv. tauto.
  - intros e He Hw.
    destruct (dijkstra_bounded_sum g Hexact _ _ _ _ _ _ _
                Hbd Hc Hdc Hcur Hes He Hw) as (_ & Hz & Hsum).
    now rewrite double_add_exact.
Qed.

Lemma dijkstra_loop_double_exact fuel dist pred unvisited :
  dijkstra_bounded g dist unvisited →
  dijkstra_loop_with double_add fuel g dist pred unvisited
  = dijkstra_loop fuel g dist pred unvisited.
Proof.
  revert dist pred unvisited.
  induction fuel as [|fuel IH]; intros dist pred unvisited Hbd; [done|].
  simpl. destruct unvisited as [|v l] eqn:Hunv; [done|].
  rewrite <- Hunv in *. rewrite dijkstra_body_double_exact by done.
  destruct (dijkstra_body g dist pred unvisited) as [| |d p u] eqn:Hbody;
    try done.
  apply IH. rewrite <- dijkstra_body_with_number_add in Hbody.
  eapply (dijkstra_bounded_step number_add number_add_exact g Hwf Hexact);
    eauto.
Qed.

(** On exact weights the loop over [double_add] is [dijkstra]. *)
Lemma dijkstra_with_double_exact fuel (start : T) :
  dijkstra_with double_add fuel g start = dijkstra fuel g start.
Proof.
  unfold dijkstra_with, dijkstra.
  rewrite dijkstra_loop_double_exact; [done|].
  now apply dijkstra_bounded_init.
Qed.

End DijkstraDouble.


(** * The results do not depend on the fuel *)

Section Fuel.
Context {T : Type} {EqT : EqDecision T} {CntT : Countable T}
        {DSV : DataShapeWithValue T}.
Variables (g : Graph T) (start : T).

Lemma bfs_mono n m tr :
  bfs n g start = Some tr → (n ≤ m)%nat → bfs m g start = Some tr.
Proof.
  unfold bfs. destruct (negb (hasNode g start)); [done|].
  apply bfs_loop_mono.
Qed.

Lemma dfs_mono n m tr :
  dfs n g start = Some tr → (n ≤ m)%nat → dfs m g start = Some tr.
Proof.
  unfold dfs. destruct (negb (hasNode g start)); [done|].
  apply dfs_loop_mono.
Qed.

Lemma dijkstra_mono n m res :
  dijkstra n g start = Some res → (n ≤ m)%nat →
  dijkstra m g start = Some res.
Proof.
  unfold dijkstra. destruct (negb (hasNode g start)); [done|].
  destruct (dijkstra_loop n g _ _ _) as [r|] eqn:Hn; [|done].
  intros Hres Hle. now rewrite (dijkstra_loop_mono g n m _ _ _ r).
Qed.

End Fuel.

(** * The properties of the traversals and of the shortest paths *)

Section Properties.
Context {T : Type} {EqT : EqDecision T} {CntT : Countable T}
        {DSV : DataShapeWithValue T}.
Implicit Types (g : Graph T) (start cur : T).

Lemma visits_Visit (vs : list T) : visits (Visit <$> vs) = vs.
Proof. induction vs as [|x vs IH]; [done|]. simpl. f_equal. exact IH. Qed.



(** C3, as amended.  In a graph whose nodes carry pairwise different
    values, with the start node present, [bfs] and [dfs] call the visitor
    once on every node that is reachable from the start node via outgoing
    edges and on no other node. *)
Theorem traversals_visit_component g start :
  well_formed g → unique_values g → hasNode g start = true →
  (∀ fuel, (length (nodes g) < fuel)%nat →
     ∃ tr, bfs fuel g start = Some tr ∧ visits_component g start tr)
  ∧ (∀ fuel, (S (edge_count g) < fuel)%nat →
       ∃ tr, dfs fuel g start = Some tr ∧ visits_component g start tr).
Proof.
  intros Hwf Huniq Hs. split; intros fuel Hfuel.
  - destruct (bfs_terminates g Hwf fuel start Hfuel) as [tr Htr].
    exists tr. split; [done|]. now apply (bfs_component g Hwf Huniq start fuel).
  - destruct (dfs_terminates g Hwf fuel start Hfuel) as [tr Htr].
    exists tr. split; [done|]. now apply (dfs_component g Hwf Huniq start fuel).
Qed.

(** C4, as amended.  An iteration of the loop of [dfs] that pops a node
    whose value is visited drops it.  One that pops a node whose value is
    not visited marks the value, calls the visitor on the node and pushes,
    in the order of the neighbor list, those targets of its edge records
    whose value is not visited then (the value of the node itself is);
    the last pushed is on top.  A target may be on the stack more than
    once. *)
Theorem dfs_iteration g (visited : gset Z) cur (stack1 : list T) fuel :
  dfs_loop (S fuel) g visited (cur :: stack1)
  = (let '(visited', stack', calls) := dfs_body g visited cur stack1 in
     app calls <$> dfs_loop fuel g visited' stack')
  ∧ (value cur ∈ visited →
     dfs_body g visited cur stack1 = (visited, stack1, []))
  ∧ (value cur ∉ visited → ∀ es, getNeighbors g cur = Some es →
     dfs_body g visited cur stack1
     = ({[value cur]} ∪ visited,
        reverse (filter (λ n, value n ∉ {[value cur]} ∪ visited)
                        (target <$> es)) ++ stack1,
        [Visit cur])).
Proof.
  split; [done|]. split.
  - apply dfs_body_visited.
  - intros Hv es Hes. now apply dfs_body_unvisited.
Qed.


(** C10. On every graph [bfs], [dfs] and [dijkstra] return: [bfs] with
    more fuel than there are nodes, [dfs] with more fuel than there are
    edge records plus one, [dijkstra] with more fuel than there are nodes.
    The nodes that [bfs] takes from its queue carry pairwise different
    values; an iteration of [dfs] pushes at most as many entries as the
    node has edge records; an iteration of [dijkstra] breaks, returns or
    takes one value out of the unvisited set. *)
Theorem traversals_terminate g start :
  well_formed g →
  (∀ fuel, (length (nodes g) < fuel)%nat → is_Some (bfs fuel g start))
  ∧ (∀ fuel tr, bfs fuel g start = Some tr → NoDup (value <$> visits tr))
  ∧ (∀ fuel, (S (edge_count g) < fuel)%nat → is_Some (dfs fuel g start))
  ∧ (∀ (visited : gset Z) cur (stack1 : list T),
       (length (dfs_body g visited cur stack1).1.2
        ≤ length stack1 + length (default [] (getNeighbors g cur)))%nat)
  ∧ (∀ fuel, (length (nodes g) < fuel)%nat → is_Some (dijkstra fuel g start))
  ∧ (∀ (dist : gmap Z number) (pred : gmap Z (option T))
       (unvisited : list Z),
       match dijkstra_body g dist pred unvisited with
       | Continue _ _ unvisited' =>
           ∃ c, c ∈ unvisited
                ∧ unvisited' = Set_delete c unvisited
                ∧ (∀ x, x ∈ unvisited' ↔ x ∈ unvisited ∧ x ≠ c)
                ∧ (length unvisited' < length unvisited)%nat
       | Break | Abort => True
       end).
Proof.
  intros Hwf. split; [|split; [|split; [|split; [|split]]]].
  - intros fuel. now apply bfs_terminates.
  - intros fuel tr. unfold bfs.
    destruct (negb (hasNode g start)).
    + intros [= <-]. constructor.
    + intros Hrun. apply bfs_loop_values in Hrun as (vs & -> & Hnd & _).
      * now rewrite visits_Visit.
      * apply NoDup_singleton.
      * intros x ->%list_elem_of_singleton. now apply elem_of_singleton.
  - intros fuel. now apply dfs_terminates.
  - intros visited cur stack1. unfold dfs_body.
    destruct (decide (value cur ∈ visited)); simpl; [lia|].
    destruct (getNeighbors g cur) as [es|]; simpl; [|lia].
    apply dfs_push_length.
  - intros fuel. now apply dijkstra_terminates.
  - intros dist pred unvisited.
    destruct (dijkstra_body g dist pred unvisited) as [| |d p u] eqn:Hbody;
      [done|done|].
    destruct (dijkstra_body_Continue _ _ _ _ _ _ _ Hbody)
      as (c & z & _ & Hc & ->).
    exists c. split; [done|]. split; [done|]. split.
    + intros x. apply Set_delete_elem.
    + now apply Set_delete_length.
Qed.

End Properties.

(** * The scenarios of the test-suite and concrete runs *)

Section Scenarios.
Import Test.

Lemma unique_values_decide (g : Graph TestData) :
  bool_decide (NoDup (value <$> nodes g)) = true → unique_values g.
Proof. apply bool_decide_eq_true_1. Qed.

(** "should perform BFS correctly" *)
Example bfs_traversal_graph :
  bfs 6 traversal_graph node1
  = Some [Visit node1; Visit node2; Visit node3; Visit node4; Visit node5].
Proof. vm_compute. reflexivity. Qed.

(** "should perform DFS correctly (iterative)": A, C, D, E, B. *)
Example dfs_traversal_graph :
  dfs 12 traversal_graph node1
  = Some [Visit node1; Visit node3; Visit node4; Visit node5; Visit node2].
Proof. vm_compute. reflexivity. Qed.

(** "should handle graphs with negative weights" *)
Example dijkstra_negative_graph :
  dijkstra 3 negative_graph node1
  = Some (empty_result,
          [ConsoleError "Dijkstra requires non-negative edge weights. Found negative weight."]).
Proof. vm_compute. reflexivity. Qed.

(** "should handle unreachable nodes", from A. *)
Example dijkstra_unreachable_graph :
  ∃ r, dijkstra 5 unreachable_graph node1 = Some (r, [])
       ∧ distances r
         = list_to_map [(10, Fin 0); (20, Fin 1); (30, Infinity);
                        (40, Infinity)].
Proof. eexists. split; vm_compute; reflexivity. Qed.

(** C8. On the weighted undirected graph of the test-suite (A..E with the
    values 10..50; A-B 4, A-C 2, B-E 3, B-D 2, C-D 4, C-E 5, D-E 1)
    [dijkstra(A)] is completed and returns the distances A 0, B 4, C 2,
    D 6, E 7; the predecessor of B and of C is A, that of D is C (one of
    B and C), that of E is C (one of B, C and D), and the distance of C
    plus the weight 5 of C-E is 7. *)
Theorem dijkstra_weighted_scenario :
  ∃ r,
    (∀ fuel, (5 < fuel)%nat →
       dijkstra fuel weighted_unidirected node1 = Some (r, []))
    ∧ distances r
      = list_to_map [(10, Fin 0); (20, Fin 4); (30, Fin 2); (40, Fin 6);
                     (50, Fin 7)]
    ∧ predecessors r !! 10 = Some None
    ∧ predecessors r !! 20 = Some (Some node1)
    ∧ predecessors r !! 30 = Some (Some node1)
    ∧ (predecessors r !! 40 = Some (Some node2)
       ∨ predecessors r !! 40 = Some (Some node3))
    ∧ (∃ p w, predecessors r !! 50 = Some (Some p)
              ∧ (p = node2 ∨ p = node3 ∨ p = node4)
              ∧ (∃ es, getNeighbors weighted_unidirected p = Some es
                       ∧ mkGraphEdge node5 (Some w) ∈ es)
              ∧ (∃ d, distances r !! value p = Some (Fin d) ∧ d + w = 7))
    ∧ predecessors r !! 40 = Some (Some node3)
    ∧ predecessors r !! 50 = Some (Some node3).
Proof.
  eexists. split.
  { intros fuel Hfuel. apply (dijkstra_mono _ _ 6); [|lia].
    vm_compute. reflexivity. }
  split; [vm_compute; reflexivity|].
  do 3 (split; [vm_compute; reflexivity|]).
  split; [right; vm_compute; reflexivity|].
  split; [|split; vm_compute; reflexivity].
  exists node3, 5. split; [vm_compute; reflexivity|].
  split; [auto|]. split.
  - eexists. split; [vm_compute; reflexivity|].
    apply list_elem_of_further, list_elem_of_further, list_elem_of_here.
  - exists 2. split; [vm_compute; reflexivity|done].
Qed.


(** On [shadow_graph] the loop over the addition of doubles returns what
    [dijkstra] returns. *)
Lemma shadow_graph_double :
  dijkstra_with double_add 4 shadow_graph node1 = dijkstra 4 shadow_graph node1.
Proof. vm_compute. reflexivity. Qed.

(** C3 does not hold as stated: in [twin_graph] the node [twin] carries
    the value of [node1]; it is reachable from [node1], and so is
    [node2], but [bfs] and [dfs] from [node1] visit [node1] only. *)
Lemma traversals_twin_counterexample :
  well_formed twin_graph
  ∧ hasNode twin_graph node1 = true
  ∧ bfs 4 twin_graph node1 = Some [Visit node1]
  ∧ dfs 7 twin_graph node1 = Some [Visit node1]
  ∧ reachable twin_graph node1 twin
  ∧ ¬ visits_component twin_graph node1 [Visit node1].
Proof.
  assert (Hreach : reachable twin_graph node1 twin).
  { apply rtc_once. eexists _, _. split; [vm_compute; reflexivity|].
    split; [apply list_elem_of_here|reflexivity]. }
  split; [apply Directed_build_well_formed|].
  do 3 (split; [vm_compute; reflexivity|]). split; [exact Hreach|].
  intros (vs & Heq & _ & Hall).
  apply (f_equal visits) in Heq. rewrite visits_Visit in Heq.
  simpl in Heq. subst vs. apply Hall in Hreach.
  apply list_elem_of_singleton in Hreach. discriminate.
Qed.

(** C4 does not hold as stated: in [pair_graph], after the iteration of
    [dfs(node1)] that visits [node1] and pushes [node2], the iteration
    that pops [node2] does not push [node1], the target of the edge of
    [node2], whose value is visited. *)
Lemma dfs_push_counterexample :
  dfs_body pair_graph ∅ node1 [] = ({[10]}, [node2], [Visit node1])
  ∧ (value node2 ∉ ({[10]} : gset Z))
  ∧ getNeighbors pair_graph node2 = Some [mkGraphEdge node1 None]
  ∧ (dfs_body pair_graph {[10]} node2 []).1.2 = []
  ∧ ¬ dfs_pushes_all_targets pair_graph {[10]} node2 [].
Proof.
  split; [vm_compute; reflexivity|].
  split; [apply (bool_decide_unpack _); vm_compute; exact I|].
  split; [vm_compute; reflexivity|]. split; [vm_compute; reflexivity|].
  intros Hall. specialize (Hall [mkGraphEdge node1 None] eq_refl).
  vm_compute in Hall. discriminate.
Qed.

End Scenarios.

(** * The theorems at concrete inputs *)

Section Witnesses.
Import Test.

Lemma weighted_unidirected_unique : unique_values weighted_unidirected.
Proof. apply unique_values_decide. vm_compute. reflexivity. Qed.

Lemma traversal_graph_unique : unique_values traversal_graph.
Proof. apply unique_values_decide. vm_compute. reflexivity. Qed.

Lemma hasNode_exactly_added_witness :
  hasNode (Directed.build [AddNode node1; AddNode node2; AddNode node1;
                           AddEdge node1 node2]) node1 = true
  ∧ getNodes (Directed.build [AddNode node1; AddNode node2; AddNode node1;
                              AddEdge node1 node2])
    = [node1; node2].
Proof.
  pose proof (hasNode_exactly_added
                [AddNode node1; AddNode node2; AddNode node1;
                 AddEdge node1 node2] node1)
    as (Hhas & _ & _ & Hnodes & _).
  split.
  - apply Hhas. vm_compute. apply list_elem_of_here.
  - rewrite Hnodes. vm_compute. reflexivity.
Defined.

Lemma edge_insertion_frame_witness :
  appends_both pair_graph (Unidirected.addWeightedEdge pair_graph node1 node2 5).1
    node1 node2 (mkGraphEdge node2 (Some 5)) (mkGraphEdge node1 (Some 5))
  ∧ Directed.addEdge pair_graph node1 node3
    = (pair_graph,
       [ConsoleError "Cannot add directed edge: Source (10) or target (30) node not found."]).
Proof.
  pose proof (edge_insertion_frame pair_graph node1 node2 5) as [Hok _].
  pose proof (edge_insertion_frame pair_graph node1 node3 5) as [_ Hfail].
  split.
  - apply Hok; vm_compute; reflexivity.
  - apply Hfail. right. vm_compute. reflexivity.
Defined.

Lemma start_not_found_witness :
  bfs 0 traversal_graph twin
  = Some [ConsoleError "BFS failed: Start node with data 10 not found."].
Proof.
  refine (proj1 (proj2 (start_not_found 0 traversal_graph twin _))).
  vm_compute. reflexivity.
Defined.


Lemma exact_weights_decide (g : Graph TestData) :
  bool_decide
    (map_Forall
       (λ _ es,
          Forall (λ e : GraphEdge TestData,
                    Z.abs (default 1 (weight e)) * Z.of_nat (length (nodes g))
                    ≤ 2 ^ 53) es)
       (adjacencyList g)) = true →
  exact_weights g.
Proof.
  intros Hall%bool_decide_eq_true_1 u es e Hes He.
  specialize (Hall u es Hes).
  now apply (proj1 (Forall_forall _ _) Hall).
Qed.

Lemma weighted_unidirected_exact : exact_weights weighted_unidirected.
Proof. apply exact_weights_decide. vm_compute. reflexivity. Qed.

Lemma negative_graph_exact : exact_weights negative_graph.
Proof. apply exact_weights_decide. vm_compute. reflexivity. Qed.





Lemma traversals_visit_component_witness :
  ∃ tr, bfs 6 traversal_graph node1 = Some tr
        ∧ visits_component traversal_graph node1 tr.
Proof.
  refine (proj1 (traversals_visit_component traversal_graph node1
                   (Unidirected_build_well_formed _)
                   traversal_graph_unique eq_refl) 6%nat _).
  vm_compute. lia.
Defined.

Lemma dfs_iteration_witness :
  dfs_body pair_graph {[10]} node2 []
  = ({[value node2]} ∪ {[10]},
     reverse (filter (λ n, value n ∉ ({[value node2]} ∪ {[10]} : gset Z))
                     (target <$> [mkGraphEdge node1 None])) ++ [],
     [Visit node2]).
Proof.
  apply (dfs_iteration pair_graph {[10]} node2 [] 0).
  - apply (bool_decide_unpack _). vm_compute. exact I.
  - vm_compute. reflexivity.
Defined.


Lemma traversals_terminate_witness :
  is_Some (bfs 6 weighted_unidirected node1)
  ∧ is_Some (dfs 16 weighted_unidirected node1)
  ∧ is_Some (dijkstra 6 weighted_unidirected node1).
Proof.
  pose proof (traversals_terminate weighted_unidirected node1
                (Unidirected_build_well_formed _))
    as (Hb & _ & Hd & _ & Hj & _).
  split; [|split].
  - apply Hb. vm_compute. lia.
  - apply Hd. vm_compute. lia.
  - apply Hj. vm_compute. lia.
Defined.

End Witnesses.

(** * More on the graphs built by the public methods *)

Section BuiltGraphs.
Context {T : Type} {EqT : EqDecision T} {CntT : Countable T}
        {DSV : DataShapeWithValue T}.
Implicit Types (g : Graph T) (x a b : T) (ops : list (operation T)).

Lemma Directed_call_cases g op :
  (Directed.call g op).1 = g
  ∨ (∃ x, (Directed.call g op).1 = addNode g x)
  ∨ (∃ a e, hasNode g a = true ∧ hasNode g (target e) = true
            ∧ (Directed.call g op).1 = push_edge g a e).
Proof.
  destruct op as [x|a b|a b w]; simpl.
  - right. left. eauto.
  - unfold Directed.addEdge.
    destruct (hasNode g a) eqn:Ha, (hasNode g b) eqn:Hb; simpl; auto.
    right. right. exists a, (mkGraphEdge b None). auto.
  - unfold Directed.addWeightedEdge.
    destruct (hasNode g a) eqn:Ha, (hasNode g b) eqn:Hb; simpl; auto.
    right. right. exists a, (mkGraphEdge b (Some w)). auto.
Qed.

Lemma Unidirected_call_cases g op :
  (Unidirected.call g op).1 = g
  ∨ (∃ x, (Unidirected.call g op).1 = addNode g x)
  ∨ (∃ a b w, hasNode g a = true ∧ hasNode g b = true
              ∧ (Unidirected.call g op).1
                = push_edge (push_edge g a (mkGraphEdge b w)) b
                            (mkGraphEdge a w)).
Proof.
  destruct op as [x|a b|a b w]; simpl.
  - right. left. eauto.
  - unfold Unidirected.addEdge.
    destruct (hasNode g a) eqn:Ha, (hasNode g b) eqn:Hb; simpl; auto.
    right. right. exists a, b, None. auto.
  - unfold Unidirected.addWeightedEdge.
    destruct (hasNode g a) eqn:Ha, (hasNode g b) eqn:Hb; simpl; auto.
    right. right. exists a, b, (Some w). auto.
Qed.

Section Invariant.
Variable P : Graph T → Prop.
Hypothesis P_addNode : ∀ g x, well_formed g → P g → P (addNode g x).
Hypothesis P_push_edge : ∀ g a e,
  well_formed g → P g → hasNode g a = true → hasNode g (target e) = true →
  P (push_edge g a e).

Lemma Directed_run_invariant ops g :
  well_formed g → P g →
  well_formed (run_calls Directed.call g ops)
  ∧ P (run_calls Directed.call g ops).
Proof.
  revert g. induction ops as [|op ops IH]; intros g Hwf HP; [done|].
  simpl. apply IH.
  - destruct (Directed_call_cases g op) as [->|[[x ->]|(a & e & Ha & He & ->)]].
    + done.
    + now apply well_formed_addNode.
    + apply well_formed_push_edge; [done|]. now apply hasNode_nodes.
  - destruct (Directed_call_cases g op) as [->|[[x ->]|(a & e & Ha & He & ->)]];
      auto.
Qed.

Lemma Unidirected_run_invariant ops g :
  well_formed g → P g →
  well_formed (run_calls Unidirected.call g ops)
  ∧ P (run_calls Unidirected.call g ops).
Proof.
  revert g. induction ops as [|op ops IH]; intros g Hwf HP; [done|].
  simpl.
  destruct (Unidirected_call_cases g op)
    as [->|[[x ->]|(a & b & w & Ha & Hb & ->)]].
  - now apply IH.
  - apply IH; [now apply well_formed_addNode|auto].
  - assert (Hwf1 : well_formed (push_edge g a (mkGraphEdge b w))).
    { apply well_formed_push_edge; [done|]. now apply hasNode_nodes. }
    apply IH.
    + apply well_formed_push_edge; [done|]. simpl. now apply hasNode_nodes.
    + apply P_push_edge; [done| |now rewrite hasNode_push_edge..].
      now apply P_push_edge.
Qed.

End Invariant.

Lemma nodeMap_last_addNode g x :
  well_formed g → nodeMap_last g → nodeMap_last (addNode g x).
Proof.
  intros _ Hg v. unfold addNode. destruct (hasNode g x); simpl; [apply Hg|].
  rewrite filter_app, lookup_insert.
  destruct (decide (value x = v)) as [Hv|Hv].
  - rewrite filter_cons_True by done. rewrite filter_nil.
    now rewrite last_snoc.
  - rewrite filter_cons_False by done. rewrite filter_nil, app_nil_r.
    apply Hg.
Qed.

Lemma getNeighbors_push_edge g a e x :
  getNeighbors (push_edge g a e) x
  = if decide (a = x) then (λ es, es ++ [e]) <$> getNeighbors g x
    else getNeighbors g x.
Proof.
  unfold getNeighbors. simpl. rewrite lookup_alter.
  now destruct (decide (a = x)) as [->|].
Qed.

Lemma getNeighbors_addNode g x y :
  getNeighbors (addNode g x) y
  = if decide (x = y) then Some (default [] (getNeighbors g y))
    else getNeighbors g y.
Proof.
  unfold addNode, getNeighbors.
  destruct (hasNode g x) eqn:Hx; simpl.
  - destruct (decide (x = y)) as [<-|]; [|done].
    apply hasNode_true in Hx as [es ->]. done.
  - rewrite lookup_insert. destruct (decide (x = y)) as [<-|]; [|done].
    apply hasNode_false in Hx. now rewrite Hx.
Qed.

Lemma grows_refl g : grows g g.
Proof. split; [done|]. intros x es Hes. eauto. Qed.

Lemma grows_trans g1 g2 g3 : grows g1 g2 → grows g2 g3 → grows g1 g3.
Proof.
  intros [Hn12 He12] [Hn23 He23]. split; [by etrans|].
  intros x es Hes. destruct (He12 x es Hes) as (es2 & Hes2 & Hp2).
  destruct (He23 x es2 Hes2) as (es3 & Hes3 & Hp3).
  exists es3. split; [done|]. by etrans.
Qed.

Lemma grows_addNode g x : grows g (addNode g x).
Proof.
  split.
  - unfold addNode, getNodes. destruct (hasNode g x); simpl; [done|].
    now apply prefix_app_r.
  - intros y es Hes. rewrite getNeighbors_addNode.
    destruct (decide (x = y)) as [<-|]; [|eauto].
    rewrite Hes. simpl. eauto.
Qed.

Lemma grows_push_edge g a e : grows g (push_edge g a e).
Proof.
  split; [done|]. intros y es Hes. rewrite getNeighbors_push_edge.
  destruct (decide (a = y)) as [<-|]; [|eauto].
  rewrite Hes. simpl. eexists. split; [done|]. now apply prefix_app_r.
Qed.

Lemma symmetric_edges_addNode g x :
  well_formed g → symmetric_edges g → symmetric_edges (addNode g x).
Proof.
  intros Hwf Hsym a b w es. rewrite getNeighbors_addNode.
  destruct (decide (x = a)) as [<-|Hxa].
  - destruct (getNeighbors g x) as [es0|] eqn:Hx; simpl.
    + intros [= <-] Hin. destruct (Hsym x b w es0 Hx Hin) as (es' & Hb & Hin').
      exists es'. split; [|done]. rewrite getNeighbors_addNode.
      destruct (decide (x = b)) as [<-|]; [|done]. now rewrite Hb.
    + intros [= <-] Hin. now apply elem_of_nil in Hin.
  - intros Ha Hin. destruct (Hsym a b w es Ha Hin) as (es' & Hb & Hin').
    exists es'. split; [|done]. rewrite getNeighbors_addNode.
    destruct (decide (x = b)) as [<-|]; [|done]. now rewrite Hb.
Qed.

Lemma symmetric_edges_push_both g a b w :
  hasNode g a = true → hasNode g b = true → symmetric_edges g →
  symmetric_edges (push_edge (push_edge g a (mkGraphEdge b w)) b
                             (mkGraphEdge a w)).
Proof.
  intros Ha Hb Hsym.
  set (g' := push_edge (push_edge g a (mkGraphEdge b w)) b (mkGraphEdge a w)).
  assert (Hgrow : grows g g').
  { eapply grows_trans; apply grows_push_edge. }
  assert (Hold : ∀ x y w' es, getNeighbors g x = Some es →
            mkGraphEdge y w' ∈ es →
            ∃ es', getNeighbors g' y = Some es' ∧ mkGraphEdge x w' ∈ es').
  { intros x y w' es Hes Hin.
    destruct (Hsym x y w' es Hes Hin) as (es1 & Hes1 & Hin1).
    destruct (proj2 Hgrow y es1 Hes1) as (es2 & Hes2 & Hpre).
    exists es2. split; [done|]. eapply elem_of_prefix; eauto. }
  assert (Hnew_a : ∃ es', getNeighbors g' a = Some es'
                          ∧ mkGraphEdge b w ∈ es').
  { apply hasNode_true in Ha as [la Hla].
    destruct (proj2 (grows_push_edge (push_edge g a (mkGraphEdge b w)) b
                       (mkGraphEdge a w)) a (la ++ [mkGraphEdge b w]))
      as (es' & Hes' & Hpre).
    - rewrite getNeighbors_push_edge, decide_True by done.
      unfold getNeighbors. now rewrite Hla.
    - exists es'. split; [done|]. eapply elem_of_prefix; [|exact Hpre].
      apply elem_of_app. right. now left. }
  assert (Hnew_b : ∃ es', getNeighbors g' b = Some es'
                          ∧ mkGraphEdge a w ∈ es').
  { assert (is_Some (getNeighbors (push_edge g a (mkGraphEdge b w)) b))
      as [lb Hlb].
    { apply hasNode_true. now rewrite hasNode_push_edge. }
    exists (lb ++ [mkGraphEdge a w]). split.
    - unfold g'. rewrite getNeighbors_push_edge, decide_True by done.
      now rewrite Hlb.
    - apply elem_of_app. right. now left. }
  intros x y w' es Hes Hin. unfold g' in Hes.
  rewrite !getNeighbors_push_edge in Hes.
  destruct (decide (b = x)) as [<-|Hbx].
  - destruct (decide (a = b)) as [<-|Hab].
    + destruct (getNeighbors g a) as [la|] eqn:Hla; [|done].
      simpl in Hes. injection Hes as <-.
      rewrite <- app_assoc in Hin. simpl in Hin.
      apply elem_of_app in Hin as [Hin|Hin]; [eauto|].
      apply elem_of_cons in Hin as [[= -> ->]|Hin]; [done|].
      apply list_elem_of_singleton in Hin as [= -> ->]. done.
    + destruct (getNeighbors g b) as [lb|] eqn:Hlb; [|done].
      simpl in Hes. injection Hes as <-.
      apply elem_of_app in Hin as [Hin|Hin]; [eauto|].
      apply list_elem_of_singleton in Hin as [= -> ->]. done.
  - destruct (decide (a = x)) as [<-|Hax]; [|eauto].
    destruct (getNeighbors g a) as [la|] eqn:Hla; [|done].
    simpl in Hes. injection Hes as <-.
    apply elem_of_app in Hin as [Hin|Hin]; [eauto|].
    apply list_elem_of_singleton in Hin as [= -> ->]. done.
Qed.

Lemma Unidirected_run_symmetric ops g :
  well_formed g → symmetric_edges g →
  symmetric_edges (run_calls Unidirected.call g ops).
Proof.
  revert g. induction ops as [|op ops IH]; intros g Hwf Hsym; [done|].
  simpl.
  destruct (Unidirected_call_cases g op)
    as [->|[[x ->]|(a & b & w & Ha & Hb & ->)]].
  - now apply IH.
  - apply IH; [now apply well_formed_addNode|].
    now apply symmetric_edges_addNode.
  - apply IH; [|now apply symmetric_edges_push_both].
    apply well_formed_push_edge.
    + apply well_formed_push_edge; [done|]. now apply hasNode_nodes.
    + simpl. now apply hasNode_nodes.
Qed.

Lemma symmetric_edges_reachable g a b :
  symmetric_edges g → reachable g a b → reachable g b a.
Proof.
  intros Hsym Hab. induction Hab as [|x y z Hxy _ IH]; [apply rtc_refl|].
  eapply rtc_r; [exact IH|].
  destruct Hxy as (es & [t w] & Hes & Hin & Ht). simpl in Ht. subst t.
  destruct (Hsym x y w es Hes Hin) as (es' & Hes' & Hin').
  now exists es', (mkGraphEdge x w).
Qed.

(** X1. After any sequence of calls on a new directed or undirected graph
    the fields satisfy [well_formed]: [getNodes()] has no repetition,
    [hasNode] is true exactly of its members, the target of every edge
    record is one of them, and [nodeMap] maps a value to a node of the
    graph with this value and has an entry for the value of every node. *)
Theorem built_graphs_well_formed ops :
  well_formed (Directed.build ops) ∧ well_formed (Unidirected.build ops).
Proof.
  split.
  - rewrite Directed_build_run.
    apply (Directed_run_invariant (λ _, True)); auto using well_formed_new.
  - rewrite Unidirected_build_run.
    apply (Unidirected_run_invariant (λ _, True)); auto using well_formed_new.
Qed.

(** X2. In a built graph [nodeMap] holds, for every value, the node that
    was added last among the nodes with this value (none when no node has
    it); with pairwise different values it holds every node at its value. *)
Theorem nodeMap_holds_last_added ops :
  nodeMap_last (Directed.build ops)
  ∧ nodeMap_last (Unidirected.build ops)
  ∧ (∀ x, unique_values (Directed.build ops) →
       x ∈ getNodes (Directed.build ops) →
       nodeMap (Directed.build ops) !! value x = Some x).
Proof.
  assert (Hnew : nodeMap_last (new_graph (T:=T))).
  { intros v. simpl. apply lookup_empty. }
  assert (Hd : nodeMap_last (Directed.build ops)).
  { rewrite Directed_build_run.
    apply (Directed_run_invariant nodeMap_last);
      auto using well_formed_new, nodeMap_last_addNode. }
  split; [exact Hd|]. split.
  - rewrite Unidirected_build_run.
    apply (Unidirected_run_invariant nodeMap_last);
      auto using well_formed_new, nodeMap_last_addNode.
  - intros x Huniq Hx.
    pose proof (Directed_build_well_formed ops) as Hwf.
    destruct (wf_nodeMap_dom _ Hwf x Hx) as [y Hy].
    destruct (wf_nodeMap _ Hwf _ _ Hy) as [Hyn Hyv].
    rewrite Hy. f_equal.
    now apply (NoDup_fmap_eq value (nodes (Directed.build ops))).
Qed.

(** X3. Calls only append: after further calls the list of [getNodes()]
    and every neighbor list has its former content as a prefix; no node
    and no edge record is removed, changed or moved. *)
Theorem built_graphs_grow ops ops' :
  grows (Directed.build ops) (Directed.build (ops ++ ops'))
  ∧ grows (Unidirected.build ops) (Unidirected.build (ops ++ ops')).
Proof.
  split.
  - rewrite !Directed_build_run. unfold run_calls at 2. rewrite foldl_app.
    fold (run_calls Directed.call new_graph ops).
    apply (Directed_run_invariant
             (grows (run_calls Directed.call new_graph ops))).
    + intros g x _ Hg. eapply grows_trans; [exact Hg|apply grows_addNode].
    + intros g a e _ Hg _ _.
      eapply grows_trans; [exact Hg|apply grows_push_edge].
    + rewrite <- Directed_build_run. apply Directed_build_well_formed.
    + apply grows_refl.
  - rewrite !Unidirected_build_run. unfold run_calls at 2. rewrite foldl_app.
    fold (run_calls Unidirected.call new_graph ops).
    apply (Unidirected_run_invariant
             (grows (run_calls Unidirected.call new_graph ops))).
    + intros g x _ Hg. eapply grows_trans; [exact Hg|apply grows_addNode].
    + intros g a e _ Hg _ _.
      eapply grows_trans; [exact Hg|apply grows_push_edge].
    + rewrite <- Unidirected_build_run. apply Unidirected_build_well_formed.
    + apply grows_refl.
Qed.

(** X4. In an undirected graph built by the methods every edge record
    [a -> b] of weight [w] has its mirror record [b -> a] of the same
    weight (a missing weight on both); so a node is reachable from another
    exactly when the other is reachable from it. *)
Theorem undirected_edges_symmetric ops :
  symmetric_edges (Unidirected.build ops)
  ∧ ∀ a b, reachable (Unidirected.build ops) a b
           ↔ reachable (Unidirected.build ops) b a.
Proof.
  assert (Hsym : symmetric_edges (Unidirected.build ops)).
  { rewrite Unidirected_build_run.
    apply Unidirected_run_symmetric; [apply well_formed_new|].
    intros a b w es Hes. unfold getNeighbors in Hes. simpl in Hes.
    now rewrite lookup_empty in Hes. }
  split; [exact Hsym|].
  intros a b. split; now apply symmetric_edges_reachable.
Qed.

End BuiltGraphs.

(** * Dijkstra: shortest paths, predecessors, failure and keys *)

Section DijkstraPaths.
Context {T : Type} {EqT : EqDecision T} {CntT : Countable T}
        {DSV : DataShapeWithValue T}.
Variable g : Graph T.
Hypothesis Hwf : well_formed g.
Hypothesis Huniq : unique_values g.
Variable start : T.
Implicit Types (dist : gmap Z number) (pred : gmap Z (option T))
               (unvisited : list Z) (cur : T).

Lemma reachable_path_weight x :
  reachable g start x ↔ ∃ w, path_weight g start x w.
Proof.
  split.
  - revert x. apply rtc_ind_r; [exists 0; constructor|].
    intros y z _ (es & e & Hes & He & <-) [w Hw].
    eexists. econstructor; eauto.
  - intros [w Hw]. induction Hw as [|u es e w _ IH Hes He]; [apply rtc_refl|].
    eapply rtc_r; [exact IH|]. now exists es, e.
Qed.

(** What an iteration that goes on has selected, and the invariant of the
    inner loop at its start. *)
Lemma dijkstra_body_selected dist pred unvisited dist' pred' unvisited' :
  dijkstra_base g start dist pred unvisited →
  dijkstra_edges g dist unvisited →
  dijkstra_body g dist pred unvisited = Continue dist' pred' unvisited' →
  ∃ cur es,
    cur ∈ nodes g ∧ value cur ∈ unvisited
    ∧ unvisited' = Set_delete (value cur) unvisited
    ∧ getNeighbors g cur = Some es
    ∧ relax cur unvisited' es dist pred = Some (dist', pred')
    ∧ relax_inv g start cur unvisited unvisited' [] dist pred.
Proof.
  intros Hb He Hbody.
  destruct (dijkstra_body_Continue _ _ _ _ _ _ _ Hbody)
    as (c & z & Hscan & Hc & ->).
  pose proof (scan_min_spec dist unvisited) as [Hmin Hsel].
  rewrite Hscan in Hmin, Hsel. simpl in Hmin, Hsel.
  destruct Hsel as (_ & Hdc & _).
  destruct (db_unvisited _ _ _ _ _ Hb c Hc) as (x & Hx & Hxc).
  destruct (wf_nodeMap_dom g Hwf x Hx) as [cur Hnm]. rewrite Hxc in Hnm.
  clear x Hx Hxc.
  destruct (wf_nodeMap g Hwf c cur Hnm) as [Hcur Hcv].
  destruct (proj1 (wf_dom g Hwf cur) Hcur) as [es Hes].
  unfold dijkstra_body in Hbody. rewrite Hscan, Hnm in Hbody.
  unfold getNeighbors in Hbody at 1. rewrite Hes in Hbody.
  destruct (relax cur (Set_delete c unvisited) es dist pred)
    as [[d p]|] eqn:Hrelax; [|done].
  injection Hbody as <- <-. subst c.
  exists cur, es. do 5 (split; [done|]).
  split.
  - destruct Hb as [Hnd Hunv Hdom Hstart Hnn Hreach Hpred Hmono].
    split; try done.
    + now apply Set_delete_NoDup.
    + intros v Hv. apply Hunv. apply Set_delete_elem in Hv. tauto.
    + intros a b da db Ha Hb Hda Hdb.
      apply Set_delete_elem in Hb as [Hb Hbc].
      destruct (decide (a = value cur)) as [->|Hac].
      * rewrite Hdc in Hda. injection Hda as <-. eapply Hmin; eauto.
      * eapply (Hmono a b); eauto. intros Hin. apply Ha.
        now apply Set_delete_elem.
  - done.
  - intros e He'. now apply elem_of_nil in He'.
  - intros a da Ha Hda. rewrite Hdc. eexists. split; [done|].
    destruct (decide (a = value cur)) as [->|Hac].
    + rewrite Hdc in Hda. injection Hda as <-. apply number_le_refl.
    + eapply (db_mono _ _ _ _ _ Hb a (value cur)); eauto. intros Hin.
      apply Ha. now apply Set_delete_elem.
  - exists z. done.
Qed.

Lemma dijkstra_tree_update cur unvisited unvisited' seen dist pred e es zc dn :
  relax_inv g start cur unvisited unvisited' seen dist pred →
  dijkstra_tree g start dist pred unvisited' →
  cur ∈ nodes g → value cur ∉ unvisited' →
  getNeighbors g cur = Some es → e ∈ es →
  0 ≤ default 1 (weight e) →
  value (target e) ∈ unvisited' →
  dist !! value cur = Some (Fin zc) →
  dist !! value (target e) = Some dn →
  number_lt (Fin (zc + default 1 (weight e))) dn = true →
  dijkstra_tree g start
    (<[value (target e) := Fin (zc + default 1 (weight e))]> dist)
    (<[value (target e) := Some cur]> pred) unvisited'.
Proof.
  intros Hinv [Hpath Hst Hpred Hfound] Hcur Hcv Hes Hin Hw Ht Hdc Hdn Hlt.
  pose proof (ri_base _ _ _ _ _ _ _ _ Hinv) as Hb.
  set (t := value (target e)) in *.
  set (w := default 1 (weight e)) in *.
  assert (Hte : target e ∈ nodes g) by (eapply wf_target; eauto).
  assert (Hct : value cur ≠ t) by (intros Heq; now rewrite Heq in Hcv).
  assert (Hzc : 0 ≤ zc) by (eapply db_nonneg; eauto).
  assert (Hts : t ≠ value start).
  { intros Heq. pose proof (db_start _ _ _ _ _ Hb) as Hs.
    rewrite <- Heq, Hdn in Hs. injection Hs as ->.
    simpl in Hlt. apply bool_decide_eq_true in Hlt. lia. }
  split.
  - intros x z Hx. rewrite lookup_insert.
    destruct (decide (t = value x)) as [Heq|]; [|now apply Hpath].
    intros [= <-].
    assert (x = target e) as ->
      by now apply (NoDup_fmap_eq value (nodes g)).
    econstructor; eauto.
  - now rewrite lookup_insert_ne.
  - intros x p Hx. rewrite !lookup_insert.
    destruct (decide (t = value x)) as [Heq|Hne].
    + intros [= <-]. split; [done|].
      assert (x = target e) as ->
        by now apply (NoDup_fmap_eq value (nodes g)).
      exists es, e, zc. do 3 (split; [done|]).
      rewrite decide_False by auto. done.
    + intros Hp. destruct (Hpred x p Hx Hp)
        as (Hpv & es' & e' & zp & ? & ? & ? & Hdp & Hdx).
      split; [done|]. exists es', e', zp. do 3 (split; [done|]).
      rewrite decide_False; [done|]. intros Heq. apply Hpv.
      now rewrite <- Heq.
  - intros x z Hx. rewrite !lookup_insert.
    destruct (decide (t = value x)); [eauto|apply Hfound; done].
Qed.

Lemma relax_tree_run cur unvisited unvisited' all :
  cur ∈ nodes g → value cur ∉ unvisited' →
  (∀ v, v ∈ unvisited' → v ∈ unvisited) →
  getNeighbors g cur = Some all →
  ∀ es seen dist pred dist' pred',
    (∀ e, e ∈ es → e ∈ all) →
    relax_inv g start cur unvisited unvisited' seen dist pred →
    dijkstra_tree g start dist pred unvisited' →
    relax cur unvisited' es dist pred = Some (dist', pred') →
    dijkstra_tree g start dist' pred' unvisited'.
Proof.
  intros Hcur Hcv Hsub Hall.
  induction es as [|e rest IH];
    intros seen dist pred dist' pred' Hes Hinv Htree Hrun.
  - now injection Hrun as <- <-.
  - simpl in Hrun.
    assert (He : e ∈ all) by (apply Hes; now left).
    assert (Hrest : ∀ e', e' ∈ rest → e' ∈ all)
      by (intros e' He'; apply Hes; now right).
    destruct (bool_decide (default 1 (weight e) < 0)) eqn:Hneg; [done|].
    apply bool_decide_eq_false in Hneg.
    assert (Hw : 0 ≤ default 1 (weight e)) by lia.
    assert (Hte : target e ∈ nodes g) by (eapply wf_target; eauto).
    destruct (ri_Fin _ _ _ _ _ _ _ _ Hinv) as [zc Hdc].
    destruct (db_dom _ _ _ _ _ (ri_base _ _ _ _ _ _ _ _ Hinv) _ Hte)
      as [[dn Hdn] _].
    rewrite Hdc, Hdn in Hrun. cbn -[number_lt relax] in Hrun.
    assert (Hsame : ∀ dv, dist !! value (target e) = Some dv →
              number_le dv (Fin (zc + default 1 (weight e))) →
              relax_inv g start cur unvisited unvisited' (seen ++ [e])
                        dist pred).
    { intros dv Hdv Hle. apply relax_inv_same; [done|]. split; [done|].
      exists (Fin zc), dv. done. }
    destruct (decide (value (target e) ∈ unvisited')) as [Ht|Ht].
    + destruct (number_lt (Fin (zc + default 1 (weight e))) dn) eqn:Hlt.
      * eapply (IH (seen ++ [e])); [done| | |exact Hrun].
        -- eapply relax_inv_update; eauto.
        -- eapply dijkstra_tree_update; eauto.
      * eapply (IH (seen ++ [e])); [done| |exact Htree|exact Hrun].
        apply (Hsame dn Hdn). now apply number_not_lt_le.
    + eapply (IH (seen ++ [e])); [done| |exact Htree|exact Hrun].
      apply (Hsame dn Hdn).
      destruct (ri_le _ _ _ _ _ _ _ _ Hinv _ _ Ht Hdn) as (dc & Hdc' & Hle).
      rewrite Hdc in Hdc'. injection Hdc' as <-.
      eapply number_le_trans; [exact Hle|]. simpl. lia.
Qed.

Lemma dijkstra_tree_step dist pred unvisited dist' pred' unvisited' :
  dijkstra_base g start dist pred unvisited →
  dijkstra_edges g dist unvisited →
  dijkstra_tree g start dist pred unvisited →
  dijkstra_body g dist pred unvisited = Continue dist' pred' unvisited' →
  dijkstra_tree g start dist' pred' unvisited'.
Proof.
  intros Hb He Htree Hbody.
  destruct (dijkstra_body_selected _ _ _ _ _ _ Hb He Hbody)
    as (cur & es & Hcur & Hcu & -> & Hes & Hrelax & Hinit).
  assert (Hsub : ∀ v, v ∈ Set_delete (value cur) unvisited → v ∈ unvisited).
  { intros v. rewrite Set_delete_elem. tauto. }
  apply (relax_tree_run cur unvisited (Set_delete (value cur) unvisited) es)
    with es [] dist pred; auto.
  - rewrite Set_delete_elem. tauto.
  - destruct Htree as [Hpath Hst Hpred Hfound]. split; auto.
    intros x p Hx Hp. destruct (Hpred x p Hx Hp) as [Hpv Hrest].
    split; [|done]. intros Hin. apply Hpv. now apply Hsub.
Qed.

Lemma dijkstra_loop_tree fuel dist pred unvisited dist' pred' :
  dijkstra_base g start dist pred unvisited →
  dijkstra_edges g dist unvisited →
  dijkstra_tree g start dist pred unvisited →
  dijkstra_loop fuel g dist pred unvisited = Some (Completed dist' pred') →
  ∃ unvisited',
    dijkstra_base g start dist' pred' unvisited'
    ∧ dijkstra_edges g dist' unvisited'
    ∧ dijkstra_tree g start dist' pred' unvisited'
    ∧ ∀ v d, v ∈ unvisited' → dist' !! v = Some d → d = Infinity.
Proof.
  revert dist pred unvisited.
  induction fuel as [|fuel IH]; intros dist pred unvisited Hb He Ht Hrun;
    [done|].
  simpl in Hrun. destruct unvisited as [|v l] eqn:Hunv.
  - injection Hrun as <- <-. exists []. do 3 (split; [done|]).
    intros ? ? Hin. now apply elem_of_nil in Hin.
  - rewrite <- Hunv in *. clear Hunv.
    destruct (dijkstra_body g dist pred unvisited) as [| |d p u] eqn:Hbody.
    + injection Hrun as <- <-. exists unvisited. do 3 (split; [done|]).
      intros v0 d. eapply dijkstra_body_Break; eassumption.
    + done.
    + destruct (dijkstra_inv_step g Hwf Huniq start _ _ _ _ _ _ Hb He Hbody)
        as [Hb' He'].
      pose proof (dijkstra_tree_step _ _ _ _ _ _ Hb He Ht Hbody). eauto.
Qed.

Hypothesis Hstart : hasNode g start = true.

Lemma dijkstra_tree_init :
  dijkstra_tree g start (init_distances g start) (init_predecessors g)
                (init_unvisited g).
Proof.
  assert (Hs : start ∈ nodes g) by now apply hasNode_nodes.
  assert (Hdist : ∀ v z, init_distances g start !! v = Some (Fin z) →
            v = value start ∧ z = 0).
  { intros v z. unfold init_distances. rewrite lookup_insert.
    destruct (decide (value start = v)) as [<-|]; [now intros [= <-]|].
    rewrite init_map_lookup. now destruct (decide (v ∈ value <$> nodes g)). }
  split.
  - intros x z Hx Hd. destruct (Hdist _ _ Hd) as [Hv ->].
    assert (x = start) as -> by now apply (NoDup_fmap_eq value (nodes g)).
    constructor.
  - unfold init_predecessors. rewrite init_map_lookup.
    rewrite decide_True; [done|]. now apply list_elem_of_fmap_2.
  - intros x p Hx. unfold init_predecessors. rewrite init_map_lookup.
    now destruct (decide (value x ∈ value <$> nodes g)).
  - intros x z Hx Hd Hne. now destruct (Hdist _ _ Hd).
Qed.

(** The invariants at the end of a completed run. *)
Lemma dijkstra_completed_invariants fuel r :
  dijkstra fuel g start = Some (r, []) →
  ∃ unvisited',
    dijkstra_base g start (distances r) (predecessors r) unvisited'
    ∧ dijkstra_edges g (distances r) unvisited'
    ∧ dijkstra_tree g start (distances r) (predecessors r) unvisited'
    ∧ ∀ v d, v ∈ unvisited' → distances r !! v = Some d → d = Infinity.
Proof.
  unfold dijkstra. rewrite Hstart. simpl.
  destruct (dijkstra_loop fuel g _ _ _) as [[d p|]|] eqn:Hloop; [|done|done].
  intros [= <-]. simpl.
  destruct (dijkstra_inv_init g Hwf Huniq start Hstart) as [Hb0 He0].
  exact (dijkstra_loop_tree _ _ _ _ _ _ Hb0 He0 dijkstra_tree_init Hloop).
Qed.

Lemma dijkstra_path_bound fuel r x w :
  dijkstra fuel g start = Some (r, []) →
  path_weight g start x w →
  ∃ z, distances r !! value x = Some (Fin z) ∧ z ≤ w.
Proof.
  intros Hrun Hpath.
  destruct (dijkstra_completed g Hwf Huniq start Hstart fuel r Hrun)
    as (Hs & Hedges & _).
  induction Hpath as [|u es e w _ [zu [Hzu Hle]] Hes He].
  - exists 0. split; [done|lia].
  - destruct (Hedges u es e Hes He) as (du & dv & Hdu & Hdv & Hrel).
    rewrite Hzu in Hdu. injection Hdu as <-. simpl in Hrel.
    destruct dv as [zv|]; simpl in Hrel; [|done].
    exists zv. split; [done|]. lia.
Qed.

(** A completed run has met no negative weight on the component of the
    start node. *)
Lemma dijkstra_completed_nonnegative fuel r u es e :
  dijkstra fuel g start = Some (r, []) →
  reachable g start u → getNeighbors g u = Some es → e ∈ es →
  0 ≤ default 1 (weight e).
Proof.
  intros Hrun Hu Hes He.
  destruct (dijkstra_completed_invariants fuel r Hrun)
    as (unv & Hb & Hedges & _ & Hinf).
  apply reachable_path_weight in Hu as [w Hw].
  destruct (dijkstra_path_bound fuel r u w Hrun Hw) as (z & Hz & _).
  destruct (decide (value u ∈ unv)) as [Hin|Hnin].
  - now specialize (Hinf _ _ Hin Hz).
  - now destruct (Hedges u es e Hnin Hes He).
Qed.

End DijkstraPaths.

Section DijkstraExtras.
Context {T : Type} {EqT : EqDecision T} {CntT : Countable T}
        {DSV : DataShapeWithValue T}.
Implicit Types (g : Graph T) (start : T).

Lemma dijkstra_completed_hasNode g start fuel r :
  dijkstra fuel g start = Some (r, []) → hasNode g start = true.
Proof.
  intros Hrun. destruct (hasNode g start) eqn:Hs; [done|].
  unfold dijkstra in Hrun. now rewrite Hs in Hrun.
Qed.

(** X8. In a graph whose nodes carry pairwise different values and whose
    weights are integers on which the additions are exact
    ([exact_weights]), the distance that a completed [dijkstra(start)]
    returns for a node is the least weight of a path from the start node:
    it is the weight of some path, no path weighs less, and it is
    [Infinity] exactly when there is no path. *)
Theorem dijkstra_shortest_paths g start fuel r x :
  well_formed g → unique_values g → exact_weights g →
  dijkstra_with double_add fuel g start = Some (r, []) → x ∈ getNodes g →
  (∀ w, path_weight g start x w →
     ∃ z, distances r !! value x = Some (Fin z) ∧ z ≤ w)
  ∧ (∀ z, distances r !! value x = Some (Fin z) → path_weight g start x z)
  ∧ (distances r !! value x = Some Infinity ↔ ¬ reachable g start x).
Proof.
  intros Hwf Huniq Hexact Hrun Hx.
  rewrite (dijkstra_with_double_exact g Hwf Hexact) in Hrun.
  pose proof (dijkstra_completed_hasNode _ _ _ _ Hrun) as Hs.
  destruct (dijkstra_completed_invariants g Hwf Huniq start Hs fuel r Hrun)
    as (unv & Hb & _ & Htree & _).
  split; [|split].
  - intros w Hw. now apply (dijkstra_path_bound g Hwf Huniq start Hs fuel).
  - intros z Hz. now apply (dt_path _ _ _ _ _ Htree).
  - split.
    + intros Hinf Hr. apply (reachable_path_weight g start) in Hr as [w Hw].
      destruct (dijkstra_path_bound g Hwf Huniq start Hs fuel r x w Hrun Hw)
        as (z & Hz & _).
      congruence.
    + intros Hnr.
      destruct (dijkstra_completed g Hwf Huniq start Hs fuel r Hrun)
        as (_ & _ & Hunreach).
      now apply Hunreach.
Qed.

(** X9. In a graph whose nodes carry pairwise different values and whose
    weights are integers on which the additions are exact
    ([exact_weights]), the predecessors that a completed
    [dijkstra(start)] returns are consistent with the distances: the
    start node has [null]; a predecessor [p] of a node [x] has an edge
    record to [x] whose weight added to the distance of [p] is the
    distance of [x]; and every other node at a finite distance has a
    predecessor. *)
Theorem dijkstra_predecessors g start fuel r :
  well_formed g → unique_values g → exact_weights g →
  dijkstra_with double_add fuel g start = Some (r, []) →
  predecessors r !! value start = Some None
  ∧ (∀ x p, x ∈ getNodes g → predecessors r !! value x = Some (Some p) →
       ∃ es e zp, getNeighbors g p = Some es ∧ e ∈ es ∧ target e = x
                  ∧ distances r !! value p = Some (Fin zp)
                  ∧ distances r !! value x
                    = Some (Fin (zp + default 1 (weight e))))
  ∧ (∀ x z, x ∈ getNodes g → x ≠ start →
       distances r !! value x = Some (Fin z) →
       ∃ p, predecessors r !! value x = Some (Some p)).
Proof.
  intros Hwf Huniq Hexact Hrun.
  rewrite (dijkstra_with_double_exact g Hwf Hexact) in Hrun.
  pose proof (dijkstra_completed_hasNode _ _ _ _ Hrun) as Hs.
  destruct (dijkstra_completed_invariants g Hwf Huniq start Hs fuel r Hrun)
    as (unv & Hb & _ & [Hpath Hst Hpred Hfound] & _).
  split; [done|]. split.
  - intros x p Hx Hp. now destruct (Hpred x p Hx Hp).
  - intros x z Hx Hne Hz. apply (Hfound x z Hx Hz). intros Hv. apply Hne.
    apply (NoDup_fmap_eq value (nodes g)); auto.
    now apply hasNode_nodes.
Qed.

(** X10. In a graph whose nodes carry pairwise different values and whose
    weights are integers on which the additions are exact
    ([exact_weights]), with the start node present and more fuel than
    there are nodes, [dijkstra] returns its negative-weight failure
    exactly when an edge record of some node reachable from the start
    node has a negative weight: such a record is always met, and a
    negative record elsewhere is never looked at. *)
Theorem dijkstra_fails_iff_reachable_negative g start fuel :
  well_formed g → unique_values g → exact_weights g →
  hasNode g start = true →
  (length (nodes g) < fuel)%nat →
  dijkstra_with double_add fuel g start
  = Some (empty_result,
          [ConsoleError "Dijkstra requires non-negative edge weights. Found negative weight."])
  ↔ ∃ u es e, reachable g start u ∧ getNeighbors g u = Some es
              ∧ e ∈ es ∧ default 1 (weight e) < 0.
Proof.
  intros Hwf Huniq Hexact Hs Hfuel.
  rewrite (dijkstra_with_double_exact g Hwf Hexact). split.
  - unfold dijkstra. rewrite Hs. simpl.
    destruct (dijkstra_loop fuel g _ _ _) as [[d p|]|] eqn:Hloop;
      [done| |done].
    intros _.
    destruct (dijkstra_inv_init g Hwf Huniq start Hs) as [Hb0 He0].
    exact (dijkstra_loop_NegativeWeight g Hwf Huniq start _ _ _ _ Hb0 He0
             Hloop).
  - intros (u & es & e & Hu & Hes & He & Hw).
    destruct (dijkstra_terminates g fuel start Hfuel) as [[r ev] Hrun].
    assert (Hcases : ev = [] ∨ (r, ev)
              = (empty_result,
                 [ConsoleError "Dijkstra requires non-negative edge weights. Found negative weight."])).
    { unfold dijkstra in Hrun. rewrite Hs in Hrun. simpl in Hrun.
      destruct (dijkstra_loop fuel g _ _ _) as [[d p|]|]; [| |done].
      - injection Hrun as <- <-. now left.
      - injection Hrun as <- <-. now right. }
    destruct Hcases as [->|Heq]; [|now rewrite Hrun, Heq].
    pose proof (dijkstra_completed_nonnegative g Hwf Huniq start Hs fuel r
                  u es e Hrun Hu Hes He).
    lia.
Qed.





End DijkstraExtras.

(** * Traversals of graphs whose values may repeat *)

Section TraversalSoundness.
Context {T : Type} {EqT : EqDecision T} {CntT : Countable T}
        {DSV : DataShapeWithValue T}.
Variable g : Graph T.
Hypothesis Hwf : well_formed g.
Variable start : T.
Implicit Types (visited : gset Z) (queue stack : list T).

Lemma bfs_loop_sound fuel visited queue tr :
  (∀ x, x ∈ queue → x ∈ nodes g ∧ reachable g start x) →
  bfs_loop fuel g visited queue = Some tr →
  ∃ vs, tr = Visit <$> vs ∧ ∀ x, x ∈ vs → x ∈ nodes g ∧ reachable g start x.
Proof.
  revert visited queue tr.
  induction fuel as [|fuel IH]; intros visited queue tr Hq Hrun; [done|].
  simpl in Hrun. destruct queue as [|cur queue1].
  { injection Hrun as <-. exists []. split; [done|].
    intros ? Hin. now apply elem_of_nil in Hin. }
  destruct (bfs_body g visited cur queue1) as [visited' queue'] eqn:Hbody.
  destruct (bfs_loop fuel g visited' queue') as [tr'|] eqn:Hrec; [|done].
  injection Hrun as <-.
  assert (Hcur : cur ∈ nodes g ∧ reachable g start cur)
    by (apply Hq; now left).
  apply IH in Hrec as (vs & -> & Hvs).
  - exists (cur :: vs). split; [done|].
    intros x [->|Hx]%elem_of_cons; auto.
  - unfold bfs_body in Hbody.
    destruct (getNeighbors g cur) as [es|] eqn:Hes.
    + destruct (bfs_enqueue_spec es visited queue1)
        as (new & Heq & _ & Hnew & _).
      rewrite Hbody in Heq. injection Heq as -> ->.
      intros x [Hx|Hx]%elem_of_app; [apply Hq; now right|].
      destruct (Hnew x Hx) as (_ & e & He & <-). split.
      * eapply wf_target; eauto.
      * eapply rtc_r; [apply Hcur|]. now exists es, e.
    + injection Hbody as <- <-. intros x Hx. apply Hq. now right.
Qed.

Lemma dfs_loop_sound fuel visited stack tr :
  (∀ x, x ∈ stack → x ∈ nodes g ∧ reachable g start x) →
  dfs_loop fuel g visited stack = Some tr →
  ∃ vs, tr = Visit <$> vs ∧ NoDup (value <$> vs)
        ∧ ∀ x, x ∈ vs →
            (value x ∉ visited) ∧ x ∈ nodes g ∧ reachable g start x.
Proof.
  revert visited stack tr.
  induction fuel as [|fuel IH]; intros visited stack tr Hst Hrun; [done|].
  simpl in Hrun. destruct stack as [|cur stack1].
  { injection Hrun as <-. exists []. split; [done|]. split; [constructor|].
    intros ? Hin. now apply elem_of_nil in Hin. }
  assert (Hcur : cur ∈ nodes g ∧ reachable g start cur)
    by (apply Hst; now left).
  assert (Hst1 : ∀ x, x ∈ stack1 → x ∈ nodes g ∧ reachable g start x)
    by (intros x Hx; apply Hst; now right).
  destruct (decide (value cur ∈ visited)) as [Hv|Hv].
  - rewrite dfs_body_visited in Hrun by done.
    destruct (dfs_loop fuel g visited stack1) as [tr'|] eqn:Hrec; [|done].
    injection Hrun as <-. simpl. now apply (IH visited stack1).
  - assert (∃ stack',
              dfs_body g visited cur stack1
              = ({[value cur]} ∪ visited, stack', [Visit cur])
              ∧ ∀ x, x ∈ stack' → x ∈ nodes g ∧ reachable g start x)
      as (stack' & Hbody & Hst').
    { destruct (getNeighbors g cur) as [es|] eqn:Hes.
      - rewrite (dfs_body_unvisited g visited cur stack1 es) by done.
        eexists. split; [reflexivity|].
        intros x. rewrite elem_of_app, elem_of_reverse, list_elem_of_filter,
          list_elem_of_fmap.
        intros [(_ & e & -> & He)|Hx]; [|auto]. split.
        + eapply wf_target; eauto.
        + eapply rtc_r; [apply Hcur|]. now exists es, e.
      - exists stack1. split; [|done]. unfold dfs_body.
        rewrite decide_False by done. now rewrite Hes. }
    rewrite Hbody in Hrun.
    destruct (dfs_loop fuel g _ stack') as [tr'|] eqn:Hrec; [|done].
    injection Hrun as <-.
    apply IH in Hrec as (vs & -> & Hnd & Hvs); [|done].
    exists (cur :: vs). split; [done|]. split.
    + simpl. constructor; [|done]. intros Hin.
      apply list_elem_of_fmap in Hin as (y & Hy & Hin).
      destruct (Hvs y Hin) as [Hnot _]. apply Hnot. rewrite <- Hy.
      set_solver.
    + intros x [->|Hx]%elem_of_cons; [done|].
      destruct (Hvs x Hx) as (Hnot & ? & ?). split; [set_solver|done].
Qed.

Lemma Visit_fmap_cons (x : T) (tr : list (event T)) (vs : list T) :
  Visit x :: tr = Visit <$> vs → ∃ vs', vs = x :: vs' ∧ tr = Visit <$> vs'.
Proof.
  destruct vs as [|y vs']; [done|]. simpl. intros [= -> ->]. eauto.
Qed.

End TraversalSoundness.

Section TraversalOrder.
Context {T : Type} {EqT : EqDecision T} {CntT : Countable T}
        {DSV : DataShapeWithValue T}.
Implicit Types (g : Graph T) (start : T).

(** X5. In every well-formed graph, also one in which values repeat, [bfs]
    and [dfs] from a present start node call the visitor first on the
    start node and then only on nodes of the graph that are reachable from
    it, and never on two nodes of the same value. *)
Theorem traversals_sound g start fuel :
  well_formed g → hasNode g start = true →
  (∀ tr, bfs fuel g start = Some tr →
     ∃ vs, tr = Visit <$> (start :: vs)
           ∧ NoDup (value <$> start :: vs)
           ∧ ∀ x, x ∈ vs → x ∈ getNodes g ∧ reachable g start x)
  ∧ (∀ tr, dfs fuel g start = Some tr →
       ∃ vs, tr = Visit <$> (start :: vs)
             ∧ NoDup (value <$> start :: vs)
             ∧ ∀ x, x ∈ vs → x ∈ getNodes g ∧ reachable g start x).
Proof.
  intros Hwf Hs.
  assert (Hstart : ∀ x, x ∈ [start] → x ∈ nodes g ∧ reachable g start x).
  { intros x ->%list_elem_of_singleton. split; [|apply rtc_refl].
    now apply hasNode_nodes. }
  split; intros tr Hrun.
  - unfold bfs in Hrun. rewrite Hs in Hrun. simpl in Hrun.
    destruct (bfs_loop_sound g Hwf start _ _ _ _ Hstart Hrun)
      as (vs & Heq & Hvs).
    destruct (bfs_loop_values g fuel {[value start]} [start] tr)
      as (vs2 & Heq2 & Hnd & _); [apply NoDup_singleton| |done|].
    { intros x ->%list_elem_of_singleton. now apply elem_of_singleton. }
    assert (vs2 = vs) as ->.
    { rewrite Heq in Heq2. apply (f_equal visits) in Heq2.
      now rewrite !visits_Visit in Heq2. }
    destruct fuel as [|fuel]; [done|]. simpl in Hrun.
    destruct (bfs_body g {[value start]} start []) as [visited' queue'].
    destruct (bfs_loop fuel g visited' queue') as [tr'|]; [|done].
    injection Hrun as Htr. rewrite Heq in Htr.
    apply Visit_fmap_cons in Htr as (vs' & -> & _).
    exists vs'. split; [done|]. split; [done|].
    intros x Hx. apply Hvs. now right.
  - unfold dfs in Hrun. rewrite Hs in Hrun. simpl in Hrun.
    destruct (dfs_loop_sound g Hwf start _ _ _ _ Hstart Hrun)
      as (vs & Heq & Hnd & Hvs).
    destruct fuel as [|fuel]; [done|]. simpl in Hrun.
    unfold dfs_body in Hrun. rewrite decide_False in Hrun by set_solver.
    destruct (dfs_loop fuel g _ _) as [tr'|]; [|done].
    injection Hrun as Htr. simpl in Htr. rewrite Heq in Htr.
    apply Visit_fmap_cons in Htr as (vs' & -> & _).
    exists vs'. split; [done|]. split; [done|].
    intros x Hx. destruct (Hvs x) as (_ & ? & ?); [now right|done].
Qed.

(** X6. [dfs] from a present start node visits the start node and next the
    target of the last edge record of the start node whose value differs
    from that of the start node; when there is no such record it visits
    the start node only. *)
Theorem dfs_last_neighbor_first g start fuel tr es :
  hasNode g start = true → getNeighbors g start = Some es →
  dfs fuel g start = Some tr →
  match last (filter (λ n, value n ≠ value start) (target <$> es)) with
  | Some t => ∃ rest, tr = Visit start :: Visit t :: rest
  | None => tr = [Visit start]
  end.
Proof.
  intros Hs Hes Hrun. unfold dfs in Hrun. rewrite Hs in Hrun.
  simpl in Hrun. destruct fuel as [|fuel]; [done|]. simpl in Hrun.
  rewrite (dfs_body_unvisited g ∅ start [] es) in Hrun by (set_solver || done).
  rewrite app_nil_r in Hrun.
  assert (filter (λ n, value n ∉ ({[value start]} ∪ ∅ : gset Z))
                 (target <$> es)
          = filter (λ n, value n ≠ value start) (target <$> es)) as Hf.
  { apply list_filter_iff. intros x. set_solver. }
  rewrite Hf in Hrun. clear Hf.
  destruct (last (filter _ (target <$> es))) as [t|] eqn:Hlast.
  - apply last_Some in Hlast as [ts Hts].
    assert (Ht : value t ≠ value start).
    { assert (t ∈ filter (λ n, value n ≠ value start) (target <$> es)) as Hin.
      { rewrite Hts. apply elem_of_app. right. now left. }
      now apply list_elem_of_filter in Hin as [? _]. }
    rewrite Hts, reverse_app in Hrun. simpl in Hrun.
    destruct fuel as [|fuel]; [done|]. simpl in Hrun.
    unfold dfs_body at 1 in Hrun. rewrite decide_False in Hrun by set_solver.
    destruct (dfs_loop fuel g _ _) as [tr'|]; [|done].
    injection Hrun as <-. simpl. eauto.
  - apply last_None in Hlast. rewrite Hlast in Hrun. simpl in Hrun.
    destruct fuel as [|fuel]; [done|]. simpl in Hrun. now injection Hrun as <-.
Qed.

End TraversalOrder.

(** * The stack *)

Section StackProofs.
Context {T : Type}.
Implicit Types (m : list (Z * T)) (s : Stack.Stack T) (k : Z).

Lemma Map_get_absent m k : k ∉ m.*1 → Map_get m k = None.
Proof.
  induction m as [|[k' v'] m IH]; [done|]. simpl. intros Hk.
  rewrite decide_False by (intros ->; apply Hk; now left).
  apply IH. intros Hin. apply Hk. now right.
Qed.

Lemma Map_set_fresh m k (v : T) : k ∉ m.*1 → Map_set m k v = m ++ [(k, v)].
Proof.
  induction m as [|[k' v'] m IH]; [done|]. simpl. intros Hk.
  rewrite decide_False by (intros ->; apply Hk; now left).
  rewrite IH; [done|]. intros Hin. apply Hk. now right.
Qed.

Lemma Map_get_snoc m k (v : T) :
  k ∉ m.*1 → Map_get (m ++ [(k, v)]) k = Some v.
Proof.
  induction m as [|[k' v'] m IH]; simpl; intros Hk.
  - now rewrite decide_True.
  - rewrite decide_False by (intros ->; apply Hk; now left).
    apply IH. intros Hin. apply Hk. now right.
Qed.

Lemma Map_delete_absent m k : k ∉ m.*1 → Map_delete m k = m.
Proof.
  unfold Map_delete. induction m as [|[k' v'] m IH]; [done|]. simpl.
  intros Hk. rewrite filter_cons_True.
  - rewrite IH; [done|]. intros Hin. apply Hk. now right.
  - simpl. intros ->. apply Hk. now left.
Qed.

Lemma Map_delete_snoc m k (v : T) :
  k ∉ m.*1 → Map_delete (m ++ [(k, v)]) k = m.
Proof.
  intros Hk. unfold Map_delete. rewrite filter_app.
  fold (Map_delete m k). rewrite Map_delete_absent by done.
  rewrite filter_cons_False; [now rewrite filter_nil, app_nil_r|].
  simpl. intros Hne. now apply Hne.
Qed.

Lemma indexed_fresh m :
  m.*1 = seqZ 0 (Map_size m) → Map_size m ∉ m.*1.
Proof. intros ->. rewrite elem_of_seqZ. lia. Qed.

Lemma indexed_snoc m k (v : T) :
  (m ++ [(k, v)]).*1 = seqZ 0 (Map_size (m ++ [(k, v)])) →
  k = Map_size m ∧ m.*1 = seqZ 0 (Map_size m).
Proof.
  unfold Map_size. rewrite length_app, fmap_app. simpl.
  replace (length m + 1)%nat with (S (length m)) by lia.
  rewrite seqZ_S. intros Heq.
  apply app_inj_2 in Heq as [Hm [= ->]]; [|done]. split; [lia|done].
Qed.

Lemma push_items s (x : T) :
  Stack.indexed s →
  Stack.items (Stack.push s x)
  = Stack.items s ++ [(Map_size (Stack.items s), x)].
Proof.
  intros Hs. unfold Stack.push. simpl. apply Map_set_fresh.
  now apply indexed_fresh.
Qed.

Lemma indexed_push s (x : T) : Stack.indexed s → Stack.indexed (Stack.push s x).
Proof.
  intros Hs. unfold Stack.indexed. rewrite push_items by done.
  unfold Map_size. rewrite length_app, fmap_app. simpl.
  replace (length (Stack.items s) + 1)%nat
    with (S (length (Stack.items s))) by lia.
  rewrite seqZ_S. f_equal. exact Hs.
Qed.

(** What [pop] and [peek] do on a stack whose keys are the indices. *)
Lemma pop_cases s :
  Stack.indexed s →
  (Stack.items s = [] ∧ Stack.pop s = (None, s) ∧ Stack.peek s = None)
  ∨ (∃ m x, Stack.items s = m ++ [(Map_size m, x)]
            ∧ m.*1 = seqZ 0 (Map_size m)
            ∧ Stack.pop s = (Some x, Stack.mkStack m)
            ∧ Stack.peek s = Some x).
Proof.
  destruct s as [m]. unfold Stack.indexed, Stack.pop, Stack.peek. simpl.
  destruct m as [|[k x] m _] using rev_ind; [left; done|].
  intros Hidx. right. apply indexed_snoc in Hidx as [-> Hm].
  exists m, x. split; [done|]. split; [done|].
  assert (Hk : Map_size (m ++ [(Map_size m, x)]) - 1 = Map_size m).
  { unfold Map_size. rewrite length_app. simpl. lia. }
  rewrite Hk.
  rewrite Map_get_snoc, Map_delete_snoc by now apply indexed_fresh.
  done.
Qed.

Lemma indexed_pop s : Stack.indexed s → Stack.indexed (Stack.pop s).2.
Proof.
  intros Hs.
  destruct (pop_cases s Hs) as [(_ & -> & _)|(m & x & _ & Hm & -> & _)];
    done.
Qed.

Lemma indexed_build (ops : list (Stack.operation T)) :
  Stack.indexed (Stack.build ops).
Proof.
  unfold Stack.build. induction ops as [|op ops IH] using rev_ind; [done|].
  rewrite foldl_snoc. destruct op; simpl.
  - now apply indexed_push.
  - now apply indexed_pop.
  - done.
Qed.

Lemma toArray_push s (x : T) :
  Stack.indexed s → Stack.toArray (Stack.push s x) = Stack.toArray s ++ [x].
Proof.
  intros Hs. unfold Stack.toArray, Map_values. rewrite push_items by done.
  now rewrite fmap_app.
Qed.

Lemma toArray_pop s :
  Stack.indexed s →
  (Stack.pop s).1 = last (Stack.toArray s)
  ∧ Stack.peek s = last (Stack.toArray s)
  ∧ Stack.toArray (Stack.pop s).2 = removelast (Stack.toArray s).
Proof.
  intros Hs. unfold Stack.toArray, Map_values.
  destruct (pop_cases s Hs)
    as [(Hnil & -> & ->)|(m & x & Hm & _ & -> & ->)].
  - simpl. rewrite Hnil. done.
  - simpl. rewrite Hm, fmap_app. simpl. rewrite last_snoc.
    now rewrite removelast_last.
Qed.

(** X12. After any sequence of [push], [pop] and [clear] on a new stack
    the keys of the map are the indices 0 .. size - 1 in this order, and
    [toArray()] is the list of the items from the bottom to the top:
    [push] appends to it, [pop] drops its last element, [clear] empties
    it; [size()] is its length. *)
Theorem stack_toArray_model (ops : list (Stack.operation T)) :
  Stack.indexed (Stack.build ops)
  ∧ Stack.toArray (Stack.build ops) = Stack.model ops
  ∧ Stack.size (Stack.build ops) = Z.of_nat (length (Stack.model ops)).
Proof.
  split; [apply indexed_build|].
  assert (Hm : Stack.toArray (Stack.build ops) = Stack.model ops).
  { unfold Stack.build, Stack.model.
    induction ops as [|op ops IH] using rev_ind; [done|].
    rewrite !foldl_snoc. rewrite <- IH.
    pose proof (indexed_build ops) as Hidx. unfold Stack.build in Hidx.
    destruct op; simpl.
    - now apply toArray_push.
    - now apply toArray_pop.
    - done. }
  split; [exact Hm|]. rewrite <- Hm.
  unfold Stack.size, Stack.toArray, Map_values, Map_size.
  now rewrite length_fmap.
Qed.

(** X13. On a stack whose keys are the indices (every stack built by the
    methods), [pop] after [push(x)] returns [x] and gives back the stack
    as it was before the [push], and [peek] after [push(x)] returns [x]. *)
Theorem stack_pop_push s (x : T) :
  Stack.indexed s →
  Stack.pop (Stack.push s x) = (Some x, s)
  ∧ Stack.peek (Stack.push s x) = Some x.
Proof.
  intros Hs. pose proof (indexed_push s x Hs) as Hp.
  destruct (pop_cases _ Hp) as [(Hnil & _)|(m & y & Hm & _ & Hpop & Hpeek)].
  - rewrite push_items in Hnil by done. now destruct (Stack.items s).
  - rewrite push_items in Hm by done.
    apply app_inj_2 in Hm as [Hitems [= _ ->]]; [|done].
    rewrite Hpop, Hpeek. split; [|done]. f_equal.
    destruct s as [m0]. simpl in Hitems. now subst.
Qed.

(** X14. On a stack whose keys are the indices, [pop] returns the last
    element of [toArray()] and removes it, and [peek] returns it and
    changes nothing; on an empty stack both return [undefined] and [pop]
    leaves the stack empty, whatever its state. *)
Theorem stack_pop_last s :
  (Stack.indexed s →
     (Stack.pop s).1 = last (Stack.toArray s)
     ∧ Stack.peek s = last (Stack.toArray s)
     ∧ Stack.toArray (Stack.pop s).2 = removelast (Stack.toArray s)
     ∧ Stack.indexed (Stack.pop s).2)
  ∧ (Stack.isEmpty s = true →
     Stack.pop s = (None, s) ∧ Stack.peek s = None
     ∧ Stack.isEmpty (Stack.pop s).2 = true).
Proof.
  split.
  - intros Hs. destruct (toArray_pop s Hs) as (? & ? & ?).
    auto using indexed_pop.
  - unfold Stack.isEmpty, Map_size. intros Hempty%bool_decide_eq_true.
    destruct s as [[|p m]]; simpl in *; [done|lia].
Qed.

End StackProofs.

(** * The order of the breadth-first search *)

Section BreadthFirstOrder.
Context {T : Type} {EqT : EqDecision T} {CntT : Countable T}
        {DSV : DataShapeWithValue T}.
Variable g : Graph T.
Hypothesis Hwf : well_formed g.
Hypothesis Huniq : unique_values g.
Variable start : T.
Implicit Types (x y cur : T) (visited : gset Z) (queue prior : list T).

Lemma layer_unique x n m : layer g start x n → layer g start x m → n = m.
Proof. intros [Hn Hminn] [Hm Hminm]. apply Hminn in Hm. apply Hminm in Hn. lia. Qed.

Lemma bfs_body_new visited cur queue1 visited' queue' :
  bfs_body g visited cur queue1 = (visited', queue') →
  ∃ new, queue' = queue1 ++ new
         ∧ ∀ x, x ∈ new → (value x ∉ visited) ∧ edge_of g cur x.
Proof.
  unfold bfs_body. intros Hbody.
  destruct (getNeighbors g cur) as [es|] eqn:Hes.
  - destruct (bfs_enqueue_spec es visited queue1)
      as (new & Heq & _ & Hnew & _).
    rewrite Hbody in Heq. injection Heq as -> ->. exists new.
    split; [done|]. intros x Hx.
    destruct (Hnew x Hx) as (? & e & ? & ?). split; [done|].
    now exists es, e.
  - injection Hbody as <- <-. exists []. rewrite app_nil_r.
    split; [done|]. intros x Hx. now apply elem_of_nil in Hx.
Qed.

Lemma bfs_layers_init : bfs_layers g start 0 [] [start].
Proof.
  split.
  - exists [start], []. split; [done|]. split.
    + intros x ->%list_elem_of_singleton. split; [constructor|lia].
    + intros x Hx. now apply elem_of_nil in Hx.
  - intros y n Hy Hn. assert (n = O) as -> by lia.
    inversion Hy; subst. now left.
Qed.

(** When the nodes of layer [k] are used up the queue holds layer [k + 1]. *)
Lemma bfs_layers_next k prior visited queue :
  bfs_inv g start prior visited queue →
  bfs_layers g start k prior queue →
  (∀ x, x ∈ queue → layer g start x (S k)) →
  bfs_layers g start (S k) prior queue.
Proof.
  intros Hinv [_ Hwithin] Hq. split.
  - exists queue, []. rewrite app_nil_r. split; [done|]. split; [done|].
    intros x Hx. now apply elem_of_nil in Hx.
  - intros y n Hy Hn. destruct (decide (n ≤ k)%nat) as [Hle|Hgt]; [eauto|].
    assert (n = S k) as -> by lia.
    inversion Hy as [|u y' n' Hu Hedge]; subst.
    destruct (proj1 (elem_of_app _ _ _) (Hwithin u k Hu (le_n _)))
      as [Hin|Hin].
    + eapply bfs_closed; eauto.
    + destruct (Hq u Hin) as [_ Hmin]. apply Hmin in Hu. lia.
Qed.

Lemma bfs_layers_step k prior visited cur qa qb new :
  bfs_inv g start prior visited (cur :: qa ++ qb) →
  bfs_layers g start k prior (cur :: qa ++ qb) →
  layer g start cur k →
  (∀ x, x ∈ qa → layer g start x k) →
  (∀ x, x ∈ qb → layer g start x (S k)) →
  (∀ x, x ∈ new → (value x ∉ visited) ∧ edge_of g cur x) →
  bfs_layers g start k (prior ++ [cur]) ((qa ++ qb) ++ new).
Proof.
  intros Hinv [_ Hwithin] Hcur Hqa Hqb Hnew. split.
  - exists qa, (qb ++ new). split; [now rewrite app_assoc|].
    split; [done|]. intros x [Hx|Hx]%elem_of_app; [auto|].
    destruct (Hnew x Hx) as [Hnot Hedge]. split.
    + econstructor; [apply Hcur|done].
    + intros m Hm. destruct (decide (S k ≤ m)%nat) as [|Hlt]; [done|].
      exfalso. apply Hnot.
      assert (Hxg : x ∈ nodes g).
      { destruct Hedge as (es & e & Hes & He & <-).
        eapply wf_target; eauto. }
      apply (bfs_visited _ _ _ _ _ Hinv x Hxg).
      apply (Hwithin x m Hm). lia.
  - intros y n Hy Hn. specialize (Hwithin y n Hy Hn).
    rewrite <- app_assoc. simpl.
    apply elem_of_app in Hwithin as [?|Hin]; apply elem_of_app; [now left|].
    right. rewrite app_comm_cons. apply elem_of_app. now left.
Qed.

Lemma ascending_cons k c k' cur vs :
  layer g start cur c → (k ≤ c ≤ k')%nat → ascending g start k' vs →
  ascending g start k (cur :: vs).
Proof.
  intros Hcur Hk Hvs i j x y Hi Hj Hij.
  destruct i as [|i], j as [|j]; simpl in *; try lia.
  - injection Hi as <-. injection Hj as <-. exists c, c.
    split; [done|]. split; [done|]. lia.
  - injection Hi as <-.
    destruct (Hvs j j y y Hj Hj (le_n _)) as (n & m & _ & Hm & ?).
    exists c, m. split; [done|]. split; [done|]. lia.
  - destruct (Hvs i j x y Hi Hj) as (n & m & ? & ? & ?); [lia|].
    exists n, m. split; [done|]. split; [done|]. lia.
Qed.

Lemma bfs_loop_layers fuel k prior visited queue tr :
  bfs_inv g start prior visited queue →
  bfs_layers g start k prior queue →
  bfs_loop fuel g visited queue = Some tr →
  ∃ vs, tr = Visit <$> vs ∧ ascending g start k vs.
Proof.
  revert k prior visited queue tr.
  induction fuel as [|fuel IH]; intros k prior visited queue tr Hinv Hlay Hrun;
    [done|].
  simpl in Hrun. destruct queue as [|cur queue1].
  { injection Hrun as <-. exists []. split; [done|].
    intros i j x y Hi. done. }
  destruct (bfs_body g visited cur queue1) as [visited' queue'] eqn:Hbody.
  destruct (bfs_loop fuel g visited' queue') as [tr'|] eqn:Hrec; [|done].
  injection Hrun as <-.
  destruct (bfs_body_new _ _ _ _ _ Hbody) as (new & -> & Hnew).
  pose proof (bfs_inv_step g Hwf Huniq start _ _ _ _ _ _ Hinv Hbody) as Hinv'.
  pose proof (bl_queue _ _ _ _ _ Hlay) as (qa & qb & Hq & Hqa & Hqb).
  destruct qa as [|c qa].
  - simpl in Hq. subst qb.
    assert (Hlay' : bfs_layers g start (S k) prior (cur :: queue1)).
    { eapply bfs_layers_next; eauto. }
    pose proof (bfs_layers_step (S k) prior visited cur queue1 [] new)
      as Hstep.
    rewrite app_nil_r in Hstep.
    assert (Hcur : layer g start cur (S k)) by (apply Hqb; now left).
    specialize (Hstep Hinv Hlay' Hcur).
    assert (Hlay2 : bfs_layers g start (S k) (prior ++ [cur])
                      (queue1 ++ new)).
    { apply Hstep; [|intros x Hx; now apply elem_of_nil in Hx|done].
      intros x Hx. apply Hqb. now right. }
    destruct (IH _ _ _ _ _ Hinv' Hlay2 Hrec) as (vs & -> & Hvs).
    exists (cur :: vs). split; [done|].
    now apply (ascending_cons k (S k) (S k)); [|lia|].
  - injection Hq as <- ->.
    eapply (bfs_layers_step k prior visited cur qa qb new) in Hlay.
    + destruct (IH _ _ _ _ _ Hinv' Hlay Hrec) as (vs & -> & Hvs).
      exists (cur :: vs). split; [done|].
      apply (ascending_cons k k k); [|lia|done].
      apply Hqa. now left.
    + done.
    + apply Hqa. now left.
    + intros x Hx. apply Hqa. now right.
    + done.
    + done.
Qed.

(** X7. In a well-formed graph of pairwise different node values [bfs]
    from a present start node visits the nodes nearest first: of two
    visits the earlier is of a node whose least number of edges from the
    start node is at most that of the later. *)
Theorem bfs_nearest_first fuel tr i j x y :
  hasNode g start = true → bfs fuel g start = Some tr →
  tr !! i = Some (Visit x) → tr !! j = Some (Visit y) → (i ≤ j)%nat →
  ∃ n m, layer g start x n ∧ layer g start y m ∧ (n ≤ m)%nat.
Proof.
  intros Hs Hrun Hi Hj Hij. unfold bfs in Hrun. rewrite Hs in Hrun.
  simpl in Hrun.
  eapply bfs_loop_layers in Hrun as (vs & -> & Hvs);
    [|now apply bfs_inv_init|apply bfs_layers_init].
  rewrite list_lookup_fmap in Hi, Hj.
  destruct (vs !! i) as [x'|] eqn:Hx; [|done].
  destruct (vs !! j) as [y'|] eqn:Hy; [|done].
  injection Hi as ->. injection Hj as ->.
  destruct (Hvs i j x y Hx Hy Hij) as (n & m & ? & ? & ?).
  exists n, m. split; [done|]. split; [done|]. lia.
Qed.

End BreadthFirstOrder.

(** * [dijkstra] on edges without weights *)

Section DijkstraUnweighted.
Context {T : Type} {EqT : EqDecision T} {CntT : Countable T}
        {DSV : DataShapeWithValue T}.
Variable g : Graph T.
Hypothesis Hnone : unweighted g.
Variable start : T.

Lemma hops_path_weight x n :
  hops g start x n → path_weight g start x (Z.of_nat n).
Proof.
  induction 1 as [|u v n _ IH (es & e & Hes & He & <-)]; [constructor|].
  pose proof (path_weight_snoc g start u es e _ IH Hes He) as Hp.
  rewrite (Hnone u es e Hes He) in Hp. simpl in Hp.
  now rewrite Nat2Z.inj_succ, <- Z.add_1_r.
Qed.

Lemma path_weight_hops x w :
  path_weight g start x w → ∃ n, w = Z.of_nat n ∧ hops g start x n.
Proof.
  induction 1 as [|u es e w _ (n & -> & Hn) Hes He].
  - exists O. split; [done|constructor].
  - exists (S n). rewrite (Hnone u es e Hes He). simpl. split; [lia|].
    econstructor; [exact Hn|]. now exists es, e.
Qed.

End DijkstraUnweighted.

Section DijkstraCounts.
Context {T : Type} {EqT : EqDecision T} {CntT : Countable T}
        {DSV : DataShapeWithValue T}.
Implicit Types (g : Graph T) (start : T).

(** X15. On a graph whose edge records carry no weight and whose nodes
    carry pairwise different values, the distance that a completed
    [dijkstra(start)] returns for a node is its number of edges from the
    start node on a shortest path, the layer in which [bfs] visits it. *)
Theorem dijkstra_counts_edges g start fuel r x n :
  well_formed g → unique_values g → unweighted g →
  dijkstra fuel g start = Some (r, []) → x ∈ getNodes g →
  distances r !! value x = Some (Fin (Z.of_nat n)) ↔ layer g start x n.
Proof.
  intros Hwf Huniq Hnone Hrun Hx.
  pose proof (dijkstra_completed_hasNode _ _ _ _ Hrun) as Hs.
  destruct (dijkstra_completed_invariants g Hwf Huniq start Hs fuel r Hrun)
    as (unv & _ & _ & Htree & _).
  pose proof (dijkstra_path_bound g Hwf Huniq start Hs fuel r x) as Hbound.
  split.
  - intros Hd. split.
    + apply (dt_path _ _ _ _ _ Htree) in Hd; [|done].
      apply (path_weight_hops g Hnone) in Hd as (k & Hk & Hhops).
      apply Nat2Z.inj in Hk. now subst.
    + intros m Hm%(hops_path_weight g Hnone).
      destruct (Hbound _ Hrun Hm) as (z & Hz & Hle).
      rewrite Hd in Hz. injection Hz as <-. lia.
  - intros [Hn Hmin].
    destruct (Hbound _ Hrun (hops_path_weight g Hnone start x n Hn))
      as (z & Hz & Hle).
    pose proof Hz as Hp. apply (dt_path _ _ _ _ _ Htree) in Hp; [|done].
    apply (path_weight_hops g Hnone) in Hp as (k & -> & Hk).
    apply Hmin in Hk. rewrite Hz. do 2 f_equal. lia.
Qed.

End DijkstraCounts.

(** * The sums of [dijkstra] on exact weights *)

Section DijkstraExactSums.
Context {T : Type} {EqT : EqDecision T} {CntT : Countable T}
        {DSV : DataShapeWithValue T}.
Implicit Types (g : Graph T) (start cur : T).

(** X16. On a graph with exact weights, at every iteration of
    [dijkstra(start)] every finite distance in the map is an integer
    between 0 and [2 ^ 53], and so is every sum
    [distances.get(currentNode.value) + weight] that the inner loop
    forms from the distance of the selected node and a weight that is not
    negative: the addition in double precision gives the sum of the
    integers, none is rounded and none overflows. *)
Theorem dijkstra_sums_exact g start
    (dist : gmap Z number) (pred : gmap Z (option T)) (unvisited : list Z)
    (c z : Z) cur (es : list (GraphEdge T)) (e : GraphEdge T) :
  well_formed g → exact_weights g →
  rtc (dijkstra_step_with double_add g) (dijkstra_init g start)
      (dist, pred, unvisited) →
  scan_min dist unvisited = (Some c, Fin z) →
  nodeMap g !! c = Some cur →
  getNeighbors g cur = Some es → e ∈ es →
  0 ≤ default 1 (weight e) →
  (∀ v d, dist !! v = Some (Fin d) → 0 ≤ d ≤ 2 ^ 53)
  ∧ 0 ≤ z + default 1 (weight e) ≤ 2 ^ 53
  ∧ double_add (Fin z) (default 1 (weight e))
    = Fin (z + default 1 (weight e)).
Proof.
  intros Hwf Hexact Hrtc Hscan Hnm Hes He Hw.
  pose proof (dijkstra_bounded_reached double_add double_add_exact g Hwf
                Hexact start _ Hrtc) as Hbd.
  simpl in Hbd.
  pose proof (scan_min_spec dist unvisited) as [_ Hsel].
  rewrite Hscan in Hsel. simpl in Hsel. destruct Hsel as (Hc & Hdc & _).
  destruct (wf_nodeMap g Hwf c cur Hnm) as [Hcur _].
  destruct (dijkstra_bounded_sum g Hexact _ _ _ _ _ _ _
              Hbd Hc Hdc Hcur Hes He Hw) as (Hall & Hz & Hsum).
  split; [exact Hall|]. split; [lia|]. now apply double_add_exact.
Qed.

(** X17. On a graph with exact weights the loop over the addition of
    doubles and the loop over the addition of integers are one: every
    call of [dijkstra] returns the same maps and writes the same
    messages under both, whatever the fuel. *)
Theorem dijkstra_double_agrees g start fuel :
  well_formed g → exact_weights g →
  dijkstra_with double_add fuel g start = dijkstra fuel g start.
Proof. intros Hwf Hexact. now apply dijkstra_with_double_exact. Qed.

End DijkstraExactSums.

(** * The properties above on the graphs of the test-suite *)

Section Instances.
Import Test.

Lemma negative_graph_unique : unique_values negative_graph.
Proof. apply unique_values_decide. vm_compute. reflexivity. Qed.

Lemma nodeMap_holds_last_added_witness :
  nodeMap negative_graph !! value node1 = Some node1.
Proof.
  refine (proj2 (proj2 (nodeMap_holds_last_added
                          [AddNode node1; AddNode node2;
                           AddWeightedEdge node1 node2 (-5)]))
            node1 negative_graph_unique _).
  vm_compute. apply list_elem_of_here.
Defined.

Lemma traversals_sound_witness :
  ∃ tr, bfs 6 traversal_graph node1 = Some tr
        ∧ ∃ vs, tr = Visit <$> (node1 :: vs)
                ∧ NoDup (value <$> node1 :: vs)
                ∧ ∀ x, x ∈ vs →
                    x ∈ getNodes traversal_graph
                    ∧ reachable traversal_graph node1 x.
Proof.
  eexists. split; [vm_compute; reflexivity|].
  refine (proj1 (traversals_sound traversal_graph node1 6%nat
                   (Unidirected_build_well_formed _) _) _ _).
  - vm_compute. reflexivity.
  - vm_compute. reflexivity.
Defined.

Lemma dfs_last_neighbor_first_witness :
  ∃ tr, dfs 16 traversal_graph node1 = Some tr
        ∧ ∃ rest, tr = Visit node1 :: Visit node3 :: rest.
Proof.
  eexists. split; [vm_compute; reflexivity|].
  refine (dfs_last_neighbor_first traversal_graph node1 16%nat _
            [mkGraphEdge node2 None; mkGraphEdge node3 None] _ _ _).
  - vm_compute. reflexivity.
  - vm_compute. reflexivity.
  - vm_compute. reflexivity.
Defined.

Lemma bfs_nearest_first_witness :
  ∃ n m, layer traversal_graph node1 node2 n
         ∧ layer traversal_graph node1 node5 m ∧ (n ≤ m)%nat.
Proof.
  refine (bfs_nearest_first traversal_graph (Unidirected_build_well_formed _)
            traversal_graph_unique node1 6%nat
            [Visit node1; Visit node2; Visit node3; Visit node4; Visit node5]
            1%nat 4%nat node2 node5 _ _ _ _ _).
  - vm_compute. reflexivity.
  - vm_compute. reflexivity.
  - reflexivity.
  - reflexivity.
  - lia.
Defined.

Lemma dijkstra_shortest_paths_witness :
  ∃ r, dijkstra_with double_add 6 weighted_unidirected node1 = Some (r, [])
       ∧ path_weight weighted_unidirected node1 node5 7.
Proof.
  eexists. split; [vm_compute; reflexivity|].
  refine (proj1 (proj2 (dijkstra_shortest_paths weighted_unidirected node1
                          6%nat _ node5 (Unidirected_build_well_formed _)
                          weighted_unidirected_unique
                          weighted_unidirected_exact _ _)) 7 _).
  - vm_compute. reflexivity.
  - vm_compute. do 4 apply list_elem_of_further. apply list_elem_of_here.
  - vm_compute. reflexivity.
Defined.

Lemma dijkstra_predecessors_witness :
  ∃ r, dijkstra_with double_add 6 weighted_unidirected node1 = Some (r, [])
       ∧ predecessors r !! value node1 = Some None.
Proof.
  eexists. split; [vm_compute; reflexivity|].
  refine (proj1 (dijkstra_predecessors weighted_unidirected node1 6%nat _
                   (Unidirected_build_well_formed _)
                   weighted_unidirected_unique
                   weighted_unidirected_exact _)).
  vm_compute. reflexivity.
Defined.

Lemma dijkstra_fails_iff_reachable_negative_witness :
  ∃ u es e, reachable negative_graph node1 u
            ∧ getNeighbors negative_graph u = Some es
            ∧ e ∈ es ∧ default 1 (weight e) < 0.
Proof.
  refine (proj1 (dijkstra_fails_iff_reachable_negative negative_graph node1
                   3%nat (Directed_build_well_formed _)
                   negative_graph_unique negative_graph_exact _ _) _).
  - vm_compute. reflexivity.
  - vm_compute. lia.
  - vm_compute. reflexivity.
Defined.


Lemma stack_pop_push_witness :
  Stack.pop (Stack.push (Stack.build [Stack.Push 1; Stack.Push 2]) 3)
  = (Some 3, Stack.build [Stack.Push 1; Stack.Push 2])
  ∧ Stack.peek (Stack.push (Stack.build [Stack.Push 1; Stack.Push 2]) 3)
    = Some 3.
Proof.
  apply (stack_pop_push (Stack.build [Stack.Push 1; Stack.Push 2]) 3).
  vm_compute. reflexivity.
Defined.

Lemma stack_pop_last_witness :
  (Stack.pop (Stack.build [Stack.Push 1; Stack.Push 2])).1
  = last (Stack.toArray (Stack.build [Stack.Push 1; Stack.Push 2]))
  ∧ Stack.pop (Stack.create (T:=Z)) = (None, Stack.create).
Proof.
  split.
  - refine (proj1 (proj1 (stack_pop_last
                            (Stack.build [Stack.Push 1; Stack.Push 2])) _)).
    vm_compute. reflexivity.
  - refine (proj1 (proj2 (stack_pop_last Stack.create) _)).
    vm_compute. reflexivity.
Defined.

Lemma unweighted_decide (g : Graph TestData) :
  bool_decide (map_Forall
                 (λ _ es, Forall (λ e : GraphEdge TestData, weight e = None)
                            es)
                 (adjacencyList g)) = true →
  unweighted g.
Proof.
  intros Hall%bool_decide_eq_true_1 u es e Hes He.
  specialize (Hall u es Hes).
  now apply (proj1 (Forall_forall _ _) Hall).
Qed.

Lemma traversal_graph_unweighted : unweighted traversal_graph.
Proof. apply unweighted_decide. vm_compute. reflexivity. Qed.

Lemma dijkstra_counts_edges_witness :
  ∃ r, dijkstra 6 traversal_graph node1 = Some (r, [])
       ∧ (distances r !! value node5 = Some (Fin (Z.of_nat 3))
          ↔ layer traversal_graph node1 node5 3).
Proof.
  eexists. split; [vm_compute; reflexivity|].
  refine (dijkstra_counts_edges traversal_graph node1 6%nat _ node5 3%nat
            (Unidirected_build_well_formed _) traversal_graph_unique
            traversal_graph_unweighted _ _).
  - vm_compute. reflexivity.
  - vm_compute. do 4 apply list_elem_of_further. apply list_elem_of_here.
Defined.

Lemma dijkstra_sums_exact_witness :
  (∀ v d, init_distances weighted_unidirected node1 !! v = Some (Fin d) →
          0 ≤ d ≤ 2 ^ 53)
  ∧ 0 ≤ 0 + 4 ≤ 2 ^ 53
  ∧ double_add (Fin 0) 4 = Fin (0 + 4).
Proof.
  refine (dijkstra_sums_exact weighted_unidirected node1
            (init_distances weighted_unidirected node1)
            (init_predecessors weighted_unidirected)
            (init_unvisited weighted_unidirected)
            10 0 node1
            [mkGraphEdge node2 (Some 4); mkGraphEdge node3 (Some 2)]
            (mkGraphEdge node2 (Some 4))
            (Unidirected_build_well_formed _) weighted_unidirected_exact
            _ _ _ _ _ _).
  - apply rtc_refl.
  - vm_compute. reflexivity.
  - vm_compute. reflexivity.
  - vm_compute. reflexivity.
  - apply list_elem_of_here.
  - simpl. lia.
Defined.

Lemma dijkstra_double_agrees_witness :
  dijkstra_with double_add 6 weighted_unidirected node1
  = dijkstra 6 weighted_unidirected node1.
Proof.
  exact (dijkstra_double_agrees weighted_unidirected node1 6
           (Unidirected_build_well_formed _) weighted_unidirected_exact).
Defined.

End Instances.
